(** * Chunk storage engine (src/background/chunk-storage.ts)

    A shallow embedding of the two chunk-storage backends and of the
    per-writer task queue, with the properties of the specification proved
    over it.

    Conventions.
    - JavaScript numbers that the engine manipulates are byte offsets, byte
      counts and table lengths.  They are embedded as [Z]; on the safe
      integers (magnitude below 2^53) IEEE-754 double arithmetic is exact
      and coincides with [Z] arithmetic.  Where the code adds offsets that
      a caller or a file may have chosen, the sum is [Float64.add], which
      rounds as doubles do; the length header that [load] reads back from
      the file is taken as the double it is.
    - A [Float64Array] is a list of such numbers; its raw buffer is the
      little-endian IEEE-754 binary64 image of each element.
    - Identity tokens ([{}] objects compared with [===]) are allocation
      counters: a fresh object is the successor of the last one.
    - An [async] method is a function from the state before to the state
      after, together with its completion ([Ok] or [Throw]). *)

From Stdlib Require Import ZArith Lia List Bool.
From Stdlib Require Import Strings.Byte.
From Stdlib Require SpecFloat.
From stdpp Require Import base list gmap sorting.

Local Open Scope Z_scope.

(** ** Completions *)

Inductive Error :=
  | AssertionError
  | RangeError
  | Unreachable
  | NotImplemented
  | ConstraintError
  | IOError (code : nat).

Inductive result (A : Type) :=
  | Ok (a : A)
  | Throw (e : Error).
Arguments Ok {A} a.
Arguments Throw {A} e.

(** How the promise of a call that waits on event listeners ends: it
    settles, or an exception escapes from a listener, where nothing
    resolves or rejects the promise: the host reports the exception and
    the promise stays pending for good. *)
Inductive completion (A : Type) :=
  | Settled (r : result A)
  | Unsettled (uncaught : Error).
Arguments Settled {A} r.
Arguments Unsettled {A} uncaught.

(** ** Raw bytes of a Float64Array *)

Module Float64.

Definition BYTES_PER_ELEMENT : Z := 8.

Definition safe (z : Z) : Prop := - 2 ^ 53 < z < 2 ^ 53.

Definition safeb (z : Z) : bool := (- 2 ^ 53 <? z) && (z <? 2 ^ 53).

(** The 64-bit pattern of the double whose value is the safe integer [z]:
    sign bit, 11-bit biased exponent, 52-bit fraction. *)
Definition bits (z : Z) : Z :=
  if z =? 0 then 0
  else
    let a := Z.abs z in
    let e := Z.log2 a in
    (if z <? 0 then 2 ^ 63 else 0)
    + (e + 1023) * 2 ^ 52
    + (a * 2 ^ (52 - e) - 2 ^ 52).

(** The value of a 64-bit pattern when it is a safe integer, [None] for
    every other double (NaN, infinities, fractions, magnitudes from
    2^53). *)
Definition value (w : Z) : option Z :=
  let s := w / 2 ^ 63 in
  let ef := (w / 2 ^ 52) mod 2 ^ 11 in
  let m := w mod 2 ^ 52 in
  if ef =? 0 then (if m =? 0 then Some 0 else None)
  else if ef =? 2047 then None
  else
    let x := 1075 - ef in
    if (0 <=? x) && (x <=? 52) && ((2 ^ 52 + m) mod 2 ^ x =? 0)
    then Some ((if s =? 0 then 1 else -1) * ((2 ^ 52 + m) / 2 ^ x))
    else None.

(** NaN is the only non-integer double that is falsy. *)
Definition is_nan (w : Z) : bool :=
  ((w / 2 ^ 52) mod 2 ^ 11 =? 2047) && negb (w mod 2 ^ 52 =? 0).

(** The double that a 64-bit pattern holds, whatever it is: zeros,
    subnormal and normal numbers, infinities and NaN. *)
Definition decode (w : Z) : SpecFloat.spec_float :=
  let s := negb (w / 2 ^ 63 =? 0) in
  let ef := (w / 2 ^ 52) mod 2 ^ 11 in
  let m := w mod 2 ^ 52 in
  if ef =? 2047 then
    (if m =? 0 then SpecFloat.S754_infinity s else SpecFloat.S754_nan)
  else if ef =? 0 then
    match m with
    | Z.pos p => SpecFloat.S754_finite s p (-1074)
    | _ => SpecFloat.S754_zero s
    end
  else
    match 2 ^ 52 + m with
    | Z.pos p => SpecFloat.S754_finite s p (ef - 1075)
    | _ => SpecFloat.S754_nan
    end.

(** The double nearest to an integer (ties to even). *)
Definition of_Z (z : Z) : SpecFloat.spec_float :=
  SpecFloat.binary_normalize 53 1024 z 0 false.

(** The integer part of a finite double. *)
Definition whole (d : SpecFloat.spec_float) : option Z :=
  match d with
  | SpecFloat.S754_zero _ => Some 0
  | SpecFloat.S754_finite s m e =>
      let a := if 0 <=? e then Z.pos m * 2 ^ e else Z.pos m / 2 ^ (- e) in
      Some (if s then - a else a)
  | _ => None
  end.

(** Binary64 sum and product. *)
Definition fadd : SpecFloat.spec_float -> SpecFloat.spec_float
                  -> SpecFloat.spec_float :=
  SpecFloat.SFadd 53 1024.

Definition fmul : SpecFloat.spec_float -> SpecFloat.spec_float
                  -> SpecFloat.spec_float :=
  SpecFloat.SFmul 53 1024.

(** [a + b] on numbers that hold integers: exact on the safe integers,
    rounded to the nearest double from 2^53 on, so that
    [add (2 ^ 53) 1 = 2 ^ 53].  A sum past the largest double counts as
    [2 ^ 1024]. *)
Definition add (a b : Z) : Z :=
  if safeb a && safeb b && safeb (a + b) then a + b
  else
    match fadd (of_Z a) (of_Z b) with
    | SpecFloat.S754_infinity s => if s then - 2 ^ 1024 else 2 ^ 1024
    | d => match whole d with Some z => z | None => 0 end
    end.

Definition byte_of_Z (z : Z) : byte :=
  match Byte.of_N (Z.to_N (z mod 256)) with
  | Some b => b
  | None => x00
  end.

Definition Z_of_byte (b : byte) : Z := Z.of_N (Byte.to_N b).

Fixpoint le_bytes (n : nat) (w : Z) : list byte :=
  match n with
  | O => []
  | S n' => byte_of_Z w :: le_bytes n' (w / 256)
  end.

Fixpoint le_word (bs : list byte) : Z :=
  match bs with
  | [] => 0
  | b :: bs' => Z_of_byte b + 256 * le_word bs'
  end.

End Float64.

(** ** The random-access file handle *)

(** Modelled from the spec: [SimpleMutableFile] (util/storage.js) is not
    part of the sources; the spec asks of it byte-range read, write and
    truncate on a random-access handle.  A request either completes on the
    bytes of the file or is rejected; [faults] schedules the rejections,
    one entry per request, in issue order. *)
Module SimpleMutableFile.

Record t := mk {
  content : list byte;
  faults : list (option Error)
}.

Definition empty : t := {| content := []; faults := [] |}.

(** Takes the next scheduled completion off the handle. *)
Definition request (f : t) : option Error * t :=
  match faults f with
  | [] => (None, f)
  | o :: rest => (o, {| content := content f; faults := rest |})
  end.

Definition slice (size position : Z) (bs : list byte) : list byte :=
  take (Z.to_nat size) (drop (Z.to_nat position) bs).

Definition overwrite (data : list byte) (position : Z) (bs : list byte)
  : list byte :=
  let p := Z.to_nat position in
  take p bs ++ replicate (p - length bs)%nat x00
    ++ data ++ drop (p + length data)%nat bs.

Definition resize (n : Z) (bs : list byte) : list byte :=
  let k := Z.to_nat n in
  take k bs ++ replicate (k - length bs)%nat x00.

Definition read (size position : Z) (f : t) : result (list byte) * t :=
  match request f with
  | (Some e, f') => (Throw e, f')
  | (None, f') => (Ok (slice size position (content f')), f')
  end.

Definition write (data : list byte) (position : Z) (f : t)
  : result unit * t :=
  match request f with
  | (Some e, f') => (Throw e, f')
  | (None, f') =>
      (Ok tt, {| content := overwrite data position (content f');
                 faults := faults f' |})
  end.

Definition truncate (start : Z) (f : t) : result unit * t :=
  match request f with
  | (Some e, f') => (Throw e, f')
  | (None, f') =>
      (Ok tt, {| content := resize start (content f');
                 faults := faults f' |})
  end.

End SimpleMutableFile.

(** ** Typed-array helpers *)

(** Modelled from the spec: [typedArrayToBuffer] and [concatTypedArray]
    (util/util.js) are not part of the sources; the spec asks of them to
    view a numeric array as raw bytes and to concatenate an ordered sequence
    of buffers. *)
Definition typedArrayToBuffer (a : list Z) : list byte :=
  concat (map (fun z => Float64.le_bytes 8 (Float64.bits z)) a).

Definition concatTypedArray {A : Type} (parts : list (list A)) : list A :=
  concat parts.

(** [new Float64Array(buffer)] on the raw bytes: the 64-bit words of the
    buffer, or a [RangeError] when its byte length is no multiple of 8. *)
Fixpoint words_of_buffer (fuel : nat) (bs : list byte) : list Z :=
  match fuel with
  | O => []
  | S fuel' =>
      match bs with
      | [] => []
      | _ => Float64.le_word (take 8 bs) :: words_of_buffer fuel' (drop 8 bs)
      end
  end.

Definition Float64Array_of_buffer (bs : list byte) : result (list Z) :=
  if (Z.of_nat (length bs) mod Float64.BYTES_PER_ELEMENT =? 0)
  then Ok (words_of_buffer (length bs) bs)
  else Throw RangeError.

(** The elements of a word array as numbers; [None] when one of them is a
    double outside the safe integers. *)
Definition numbers_of_words (ws : list Z) : option (list Z) :=
  mapM Float64.value ws.

(** Modelled from the spec: [assert] and [unreachable] (util/error.js) are
    not part of the sources; the spec makes a violated invariant fatal: it
    fails the call and is not retried. *)
Definition assert (condition : bool) : result unit :=
  if condition then Ok tt else Throw AssertionError.

Definition unreachable : result unit := Throw Unreachable.

Definition bind_result {A B : Type} (r : result A) (k : A -> result B)
  : result B :=
  match r with
  | Ok a => k a
  | Throw e => Throw e
  end.

(** ** Random-access backend *)

Module MutableFileChunkStorage.

(** [persistenceData] is the table
    [[length - 1, (startPosition, currentSize)...]]; [persistenceDataId]
    is the identity of the array object the field currently holds: every
    assignment to the field stores a newly allocated array. *)
Record t := mk {
  file : SimpleMutableFile.t;
  persistSentry : nat;
  persistenceData : list Z;
  persistenceDataId : nat;
  warnings : list Error
}.

Definition set_file (f : SimpleMutableFile.t) (st : t) : t :=
  {| file := f; persistSentry := persistSentry st;
     persistenceData := persistenceData st;
     persistenceDataId := persistenceDataId st;
     warnings := warnings st |}.

(** [this.persistenceData = a] for a newly allocated array [a]. *)
Definition set_persistenceData (a : list Z) (st : t) : t :=
  {| file := file st; persistSentry := persistSentry st;
     persistenceData := a;
     persistenceDataId := S (persistenceDataId st);
     warnings := warnings st |}.

(** An element store [persistenceData[i] = v] into the current array. *)
Definition store_persistenceData (i : nat) (v : Z) (st : t) : t :=
  {| file := file st; persistSentry := persistSentry st;
     persistenceData := <[i := v]> (persistenceData st);
     persistenceDataId := persistenceDataId st;
     warnings := warnings st |}.

Definition warn (e : Error) (st : t) : t :=
  {| file := file st; persistSentry := persistSentry st;
     persistenceData := persistenceData st;
     persistenceDataId := persistenceDataId st;
     warnings := warnings st ++ [e] |}.

(** The constructor's field initialisers followed by [init]: the handle
    found under the storage's name when [isLoaded], a new file
    otherwise. *)
Definition init (isLoaded : bool) (stored : option SimpleMutableFile.t)
  : t :=
  {| file := match (if isLoaded then stored else None) with
             | Some f => f
             | None => SimpleMutableFile.empty
             end;
     persistSentry := O;
     persistenceData := [0];
     persistenceDataId := O;
     warnings := [] |}.

Record Writer := mkWriter {
  startPosition : Z;
  writtenSize : Z;
  writtenSizeIndex : nat
}.

(** [new Writer(parent, persistenceIndex)]; [None] when
    [persistenceData[persistenceIndex]] is [undefined].  An [undefined]
    second argument selects the default [writtenSize = 0]. *)
Definition new_Writer (st : t) (persistenceIndex : nat) : option Writer :=
  match persistenceData st !! persistenceIndex with
  | Some sp =>
      Some {| startPosition := sp;
              writtenSize :=
                match persistenceData st !! (persistenceIndex + 1)%nat with
                | Some ws => ws
                | None => 0
                end;
              writtenSizeIndex := (persistenceIndex + 1)%nat |}
  | None => None
  end.

(** [for (let i = 1; i < persistenceData.length; i += 2) result.push(...)];
    the lookup is defined exactly when [i < persistenceData.length]. *)
Fixpoint load_loop (fuel : nat) (i : nat) (st : t) : list Writer :=
  match fuel with
  | O => []
  | S fuel' =>
      match new_Writer st i with
      | Some w => w :: load_loop fuel' (i + 2)%nat st
      | None => []
      end
  end.

Definition load_result (st : t) : list Writer :=
  load_loop (length (persistenceData st)) 1%nat st.

(** What the table in memory becomes and what [load] returns once the
    table read back has the announced length.  [None]: the table read
    back is complete and one of its entries is no safe integer; the code
    installs it all the same, and the table of this embedding, whose
    entries are integers, does not hold it. *)
Definition install (ws : list Z) (st : t)
  : option (result (list Writer) * t) :=
  match assert (length (persistenceData st) =? 1)%nat with
  | Throw e =>
      let st' := warn e st in
      Some (Ok (load_result st'), st')
  | Ok _ =>
      match numbers_of_words ws with
      | None => None
      | Some data =>
          let st' := set_persistenceData data st in
          Some (Ok (load_result st'), st')
      end
  end.

(** Modelled from the spec: [SimpleMutableFile.read] (util/storage.js) is
    not part of the sources and the spec says nothing of a size that is
    no whole number of bytes.  Such a size is taken as its integer part,
    an infinite one as the whole file, a negative one as nothing. *)
Definition read_size (bytes : SpecFloat.spec_float)
    (f : SimpleMutableFile.t) : Z :=
  match bytes with
  | SpecFloat.S754_infinity false =>
      Z.of_nat (length (SimpleMutableFile.content f))
  | d => match Float64.whole d with Some z => z | None => 0 end
  end.

(** [load(totalSize)].  The header read back is any double.  When it is a
    safe integer, [size + 1] and [BYTES * (size + 1)] are exact; otherwise
    (an infinity, a fraction, a magnitude from 2^53 on) they are the
    binary64 sum and product.  [None] comes from [install] only. *)
Definition load (totalSize : Z) (st : t)
  : option (result (list Writer) * t) :=
  let BYTES := Float64.BYTES_PER_ELEMENT in
  let '(r1, f1) := SimpleMutableFile.read BYTES totalSize (file st) in
  let st1 := set_file f1 st in
  match bind_result r1 Float64Array_of_buffer with
  | Throw e => let st' := warn e st1 in Some (Ok (load_result st'), st')
  | Ok hd =>
      match hd !! O with
      | None => Some (Ok [], st1)
      | Some w =>
          if Float64.is_nan w then Some (Ok [], st1)
          else
            match Float64.value w with
            | None =>
                let count :=
                  Float64.fadd (Float64.decode w) (Float64.of_Z 1) in
                let bytes := Float64.fmul (Float64.of_Z BYTES) count in
                let '(r2, f2) :=
                  SimpleMutableFile.read (read_size bytes f1) totalSize f1 in
                let st2 := set_file f2 st1 in
                match bind_result r2 Float64Array_of_buffer with
                | Throw e =>
                    let st' := warn e st2 in
                    Some (Ok (load_result st'), st')
                | Ok ws =>
                    if negb (SpecFloat.SFeqb
                               (Float64.of_Z (Z.of_nat (length ws))) count)
                    then Some (Ok [], st2)
                    else install ws st2
                end
            | Some size =>
                if size =? 0 then Some (Ok [], st1)
                else
                  let '(r2, f2) :=
                    SimpleMutableFile.read (BYTES * (size + 1)) totalSize f1
                  in
                  let st2 := set_file f2 st1 in
                  match bind_result r2 Float64Array_of_buffer with
                  | Throw e =>
                      let st' := warn e st2 in
                      Some (Ok (load_result st'), st')
                  | Ok ws =>
                      if negb (Z.of_nat (length ws) =? size + 1)
                      then Some (Ok [], st2)
                      else install ws st2
                  end
            end
      end
  end.

(** [writer(startPosition)]. *)
Definition writer (startPosition : Z) (st : t) : option Writer * t :=
  let persistenceIndex := length (persistenceData st) in
  let st1 :=
    set_persistenceData
      (concatTypedArray [persistenceData st; [startPosition; 0]]) st in
  let st2 :=
    match persistenceData st1 !! O with
    | Some h => store_persistenceData O (h + 2) st1
    | None => st1
    end in
  (new_Writer st2 persistenceIndex, st2).

(** A [persist] call past its synchronous part: the sentry it captured
    and the body waiting for the critical section. *)
Record PersistTask := mkTask {
  task_sentry : nat;
  task_totalSize : Z;
  task_final : bool
}.

(** [persist(totalSize, final)] up to the entry of the critical section;
    [None] is the already resolved promise of an [undefined]
    [totalSize]. *)
Definition persist (totalSize : option Z) (final : bool) (st : t)
  : option PersistTask :=
  match totalSize with
  | None => None
  | Some n =>
      Some {| task_sentry := persistSentry st;
              task_totalSize := n;
              task_final := final |}
  end.

(** The body run inside the critical section. *)
Definition persist_body (task : PersistTask) (st : t) : result unit * t :=
  if negb (task_sentry task =? persistSentry st)%nat then (Ok tt, st)
  else if task_final task then
    let '(r, f) := SimpleMutableFile.truncate (task_totalSize task) (file st)
    in (r, set_file f st)
  else
    let '(r, f) :=
      SimpleMutableFile.write (typedArrayToBuffer (persistenceData st))
        (task_totalSize task) (file st)
    in (r, set_file f st).

(** [reset()]: the truncate request is issued and not awaited. *)
Definition reset (st : t) : t :=
  {| file := snd (SimpleMutableFile.truncate 0 (file st));
     persistSentry := S (persistSentry st);
     persistenceData := [0];
     persistenceDataId := S (persistenceDataId st);
     warnings := warnings st |}.

Definition read (position size : Z) (st : t) : result (list byte) * t :=
  let '(r, f) := SimpleMutableFile.read size position (file st) in
  (r, set_file f st).

(** [Writer.doWrite] suspended at its [await]: the array captured by
    [const { persistenceData } = this.parent] and the completion of the
    write request. *)
Record PendingWrite := mkPending {
  captured : nat;
  written : result unit;
  data_length : Z
}.

(** [doWrite] up to the [await]; [None] when it returned at once on empty
    data. *)
Definition doWrite_begin (data : list byte) (w : Writer) (st : t)
  : option PendingWrite * t :=
  if (length data =? 0)%nat then (None, st)
  else
    let '(r, f) :=
      SimpleMutableFile.write data
        (Float64.add (startPosition w) (writtenSize w)) (file st) in
    (Some {| captured := persistenceDataId st;
             written := r;
             data_length := Z.of_nat (length data) |},
     set_file f st).

(** [doWrite] after the [await].  A store into a captured array that the
    storage no longer holds is not observable. *)
Definition doWrite_end (p : PendingWrite) (w : Writer) (st : t)
  : result unit * Writer * t :=
  match written p with
  | Throw e => (Throw e, w, st)
  | Ok _ =>
      let w' := {| startPosition := startPosition w;
                   writtenSize :=
                     Float64.add (writtenSize w) (data_length p);
                   writtenSizeIndex := writtenSizeIndex w |} in
      (Ok tt, w',
       if (captured p =? persistenceDataId st)%nat
       then store_persistenceData (writtenSizeIndex w) (writtenSize w') st
       else st)
  end.

(** [doWrite] run without interruption at its [await]. *)
Definition doWrite (data : list byte) (w : Writer) (st : t)
  : result unit * Writer * t :=
  match doWrite_begin data w st with
  | (None, st') => (Ok tt, w, st')
  | (Some p, st') => doWrite_end p w st'
  end.

(** The [(startPosition, currentSize)] pairs of a table. *)
Fixpoint pairs (cells : list Z) : list (Z * Z) :=
  match cells with
  | s :: n :: rest => (s, n) :: pairs rest
  | _ => []
  end.

Definition table_pairs (st : t) : list (Z * Z) :=
  pairs (tail (persistenceData st)).

Definition writer_pair (w : Writer) : Z * Z :=
  (startPosition w, writtenSize w).

End MutableFileChunkStorage.

(** ** The segment database *)

(** Modelled from the spec: [MultiStoreDatabase], [idbRequest] and
    [idbTransaction] (util/storage.js) are not part of the sources; the
    spec asks of the store keyed records under composite keys, range-scanned
    cursors in key order and atomic transactions.  A record is keyed by
    [(id, startPosition)]; adding under a key already present fails with a
    [ConstraintError] and stores nothing; [db_faults] schedules the
    transactions that the platform rejects. *)
Module SegmentsDatabase.

Definition key : Type := Z * Z.
Definition Blob : Type := list byte.

Record t := mk {
  data : gmap key Blob;
  recovery : gmap key Blob;
  db_faults : list (option Error)
}.

Definition transaction (db : t) : option Error * t :=
  match db_faults db with
  | [] => (None, db)
  | o :: rest =>
      (o, {| data := data db; recovery := recovery db; db_faults := rest |})
  end.

(** Keys are arrays [[id, startPosition]], compared element by element. *)
Definition key_le (a b : key * Blob) : Prop :=
  a.1.1 < b.1.1 \/ (a.1.1 = b.1.1 /\ a.1.2 <= b.1.2).

#[global] Instance key_le_dec (a b : key * Blob) : Decision (key_le a b).
Proof. unfold key_le. apply _. Defined.

(** The records met by a cursor over [IDBKeyRange.bound([id], [id, []])]:
    those whose key starts with [id], in key order. *)
Definition openCursor (id : Z) (store : gmap key Blob) : list (key * Blob) :=
  merge_sort key_le
    (filter (fun kv => kv.1.1 = id) (map_to_list store)).

(** A read-write transaction on [data] holding one [add]. *)
Definition add (k : key) (v : Blob) (db : t) : result unit * t :=
  match transaction db with
  | (Some e, db') => (Throw e, db')
  | (None, db') =>
      match data db' !! k with
      | Some _ => (Throw ConstraintError, db')
      | None =>
          (Ok tt, {| data := <[k := v]> (data db');
                     recovery := recovery db';
                     db_faults := db_faults db' |})
      end
  end.

(** A transaction deleting the key range of [id] from both stores. *)
Definition delete_range (id : Z) (db : t) : result unit * t :=
  match transaction db with
  | (Some e, db') => (Throw e, db')
  | (None, db') =>
      (Ok tt, {| data := filter (fun kv => kv.1.1 <> id) (data db');
                 recovery := filter (fun kv => kv.1.1 <> id) (recovery db');
                 db_faults := db_faults db' |})
  end.

End SegmentsDatabase.

(** ** Segmented backend *)

Module SegmentedFileChunkStorage.

Record t := mk {
  id : Z;
  database : SegmentsDatabase.t;
  flushSentry : nat
}.

Definition set_database (db : SegmentsDatabase.t) (st : t) : t :=
  {| id := id st; database := db; flushSentry := flushSentry st |}.

Definition needFlush : bool := true.

(** [static delete(database, id)]. *)
Definition static_delete (st : t) : result unit * t :=
  let '(r, db) := SegmentsDatabase.delete_range (id st) (database st) in
  (r, set_database db st).

Definition init (id0 : Z) (shared : SegmentsDatabase.t) (isLoaded : bool)
  : result unit * t :=
  let st := {| id := id0; database := shared; flushSentry := O |} in
  if isLoaded then (Ok tt, st) else static_delete st.

Definition load (totalSize : Z) (st : t) : result unit * t :=
  (Throw NotImplemented, st).

Definition persist (st : t) : result unit * t := (Ok tt, st).

Definition reset (st : t) : result unit * t := (Throw NotImplemented, st).

Definition read (position size : Z) (st : t) : result (list byte) * t :=
  (Throw NotImplemented, st).

(** The ['success'] listener of [getFile], record after record:
    [assert(startPosition === nextPosition)], then the blob is pushed,
    [nextPosition] advanced by its size and the cursor continued; past the
    last record the listener calls [resolve()].  The assertion throws
    inside the listener: the cursor is not continued, neither [resolve]
    nor [reject] is called, and the promise of [getFile] never settles. *)
Fixpoint cursor_loop (records : list (SegmentsDatabase.key * list byte))
    (blobs : list (list byte)) (nextPosition : Z)
  : completion (list (list byte)) :=
  match records with
  | [] => Settled (Ok blobs)
  | (k, value) :: rest =>
      match assert (k.2 =? nextPosition) with
      | Ok _ =>
          cursor_loop rest (blobs ++ [value])
            (nextPosition + Z.of_nat (length value))
      | Throw e => Unsettled e
      end
  end.

(** [getFile()]: the bytes of [new File(blobs, "file")].  A rejected
    cursor request rejects the call, through the ['error'] and ['abort']
    listeners. *)
Definition getFile (st : t) : completion (list byte) * t :=
  match SegmentsDatabase.transaction (database st) with
  | (Some e, db) => (Settled (Throw e), set_database db st)
  | (None, db) =>
      (match
         cursor_loop
           (SegmentsDatabase.openCursor (id st) (SegmentsDatabase.data db))
           [] 0
       with
       | Settled r => Settled (bind_result r (fun blobs => Ok (concat blobs)))
       | Unsettled e => Unsettled e
       end,
       set_database db st)
  end.

(** [delete()]: a fresh sentry, then the key range is deleted. *)
Definition delete (st : t) : result unit * t :=
  static_delete
    {| id := id st; database := database st;
       flushSentry := S (flushSentry st) |}.

Record Writer := mkWriter {
  startPosition : Z;
  writtenSize : Z;
  bufferPosition : Z;
  bufferData : list (list byte);
  w_flushSentry : nat
}.

(** [writer(startPosition)]. *)
Definition writer (startPosition0 : Z) (st : t) : Writer :=
  {| startPosition := startPosition0;
     writtenSize := 0;
     bufferPosition := startPosition0;
     bufferData := [];
     w_flushSentry := flushSentry st |}.

Definition doWrite (data : list byte) (w : Writer) : result unit * Writer :=
  if (length data =? 0)%nat then (Ok tt, w)
  else
    (Ok tt,
     {| startPosition := startPosition w;
        writtenSize := writtenSize w + Z.of_nat (length data);
        bufferPosition := bufferPosition w;
        bufferData := bufferData w ++ [data];
        w_flushSentry := w_flushSentry w |}).

Definition doFlush (w : Writer) (st : t) : result unit * Writer * t :=
  if negb (w_flushSentry w =? flushSentry st)%nat then (Ok tt, w, st)
  else if (length (bufferData w) =? 0)%nat then (Ok tt, w, st)
  else
    let data := concatTypedArray (bufferData w) in
    let '(r, db) :=
      SegmentsDatabase.add (id st, bufferPosition w) data (database st) in
    match r with
    | Throw e => (Throw e, w, set_database db st)
    | Ok _ =>
        (Ok tt,
         {| startPosition := startPosition w;
            writtenSize := writtenSize w;
            bufferPosition := bufferPosition w + Z.of_nat (length data);
            bufferData := [];
            w_flushSentry := w_flushSentry w |},
         set_database db st)
    end.

(** The segments stored for this storage, in key order. *)
Definition segments (st : t) : list (Z * list byte) :=
  (fun kv => (kv.1.2, kv.2))
    <$> SegmentsDatabase.openCursor (id st)
          (SegmentsDatabase.data (database st)).

End SegmentedFileChunkStorage.

(** ** The writer's task queue *)

(** [ChunkStorageWriter.sync] chains promises; its behaviour rests on the
    host's promise machinery, embedded here as a heap of promises and a
    queue of reaction jobs.  Every promise of the writer carries [undefined]
    or an error.  The closures of the class are the handlers [Fn] (the
    argument of [sync]), [CatchHandler] (the argument of [catch]) and [Noop]
    ([() => { }]).  A promise resolved with another promise follows it
    ([Follow]).  [doWrite] and [doFlush] are overridden by the backends:
    the queue starts them, and their promise is settled by [Complete] when
    the backend's work ends, at a time the queue does not control. *)
Module ChunkStorageWriter.

Inductive Op :=
  | Write (data : list byte)
  | Flush.

(** The bodies of the base class, which the backends override. *)
Definition doWrite (data : list byte) : result unit := unreachable.

Definition doFlush : result unit := Ok tt.

Inductive settlement :=
  | Fulfilled
  | Rejected (e : Error).

Inductive handler :=
  | Fn (k : nat) (op : Op)
  | CatchHandler
  | Noop.

Inductive reaction :=
  | Then (onFulfilled onRejected : option handler) (derived : nat)
  | Follow (target : nat).

Record promise := mkPromise {
  settled : option settlement;
  reactions : list reaction
}.

Definition job : Type := reaction * settlement.

Inductive event :=
  | Started (k : nat) (op : Op)
  | Finished (k : nat) (s : settlement).

(** [this_promise] is the private field [promise]; [submitted] lists the
    calls of [write] and [flush] with the promise each returned;
    [running] the started operations whose promise is pending; [trace]
    what the backend saw; [dispatched] the events of [parent.onError]. *)
Record state := mkState {
  heap : list promise;
  jobs : list job;
  this_promise : nat;
  parent : bool;
  submitted : list (Op * nat);
  running : list (nat * nat);
  trace : list event;
  dispatched : list Error
}.

Definition set_heap (h : list promise) (st : state) : state :=
  {| heap := h; jobs := jobs st; this_promise := this_promise st;
     parent := parent st; submitted := submitted st;
     running := running st; trace := trace st;
     dispatched := dispatched st |}.

Definition set_jobs (js : list job) (st : state) : state :=
  {| heap := heap st; jobs := js; this_promise := this_promise st;
     parent := parent st; submitted := submitted st;
     running := running st; trace := trace st;
     dispatched := dispatched st |}.

Definition set_this_promise (p : nat) (st : state) : state :=
  {| heap := heap st; jobs := jobs st; this_promise := p;
     parent := parent st; submitted := submitted st;
     running := running st; trace := trace st;
     dispatched := dispatched st |}.

(** [new ChunkStorageWriter(parent, ...)]: [promise = Promise.resolve()]. *)
Definition create (has_parent : bool) : state :=
  {| heap := [{| settled := Some Fulfilled; reactions := [] |}];
     jobs := [];
     this_promise := O;
     parent := has_parent;
     submitted := [];
     running := [];
     trace := [];
     dispatched := [] |}.

(** A new pending promise. *)
Definition alloc (st : state) : nat * state :=
  (length (heap st),
   set_heap (heap st ++ [{| settled := None; reactions := [] |}]) st).

(** [p.then(onFulfilled, onRejected)]: the reaction waits on a pending
    [p] and is queued at once on a settled one. *)
Definition promise_then (p : nat) (onFulfilled onRejected : option handler)
    (st : state) : nat * state :=
  let '(d, st1) := alloc st in
  let r := Then onFulfilled onRejected d in
  match heap st1 !! p with
  | Some {| settled := None; reactions := rs |} =>
      (d, set_heap
            (<[p := {| settled := None; reactions := rs ++ [r] |}]>
               (heap st1)) st1)
  | Some {| settled := Some s; reactions := _ |} =>
      (d, set_jobs (jobs st1 ++ [(r, s)]) st1)
  | None => (d, st1)
  end.

(** Settling a pending promise queues its reactions; a settled promise
    stays as it is. *)
Definition settle (p : nat) (s : settlement) (st : state) : state :=
  match heap st !! p with
  | Some {| settled := None; reactions := rs |} =>
      set_jobs (jobs st ++ map (fun r => (r, s)) rs)
        (set_heap (<[p := {| settled := Some s; reactions := [] |}]>
                     (heap st)) st)
  | _ => st
  end.

(** [sync(fn)]. *)
Definition sync (fn : handler) (st : state) : nat * state :=
  let '(result, st1) := promise_then (this_promise st) (Some fn) None st in
  let '(c, st2) := promise_then result None (Some CatchHandler) st1 in
  (result, set_this_promise c st2).

(** [write(data)] and [flush()]: the call is numbered by its rank among
    the calls on this writer. *)
Definition call (op : Op) (st : state) : nat * state :=
  let k := length (submitted st) in
  let '(result, st1) := sync (Fn k op) st in
  (result,
   {| heap := heap st1; jobs := jobs st1;
      this_promise := this_promise st1; parent := parent st1;
      submitted := submitted st1 ++ [(op, result)];
      running := running st1; trace := trace st1;
      dispatched := dispatched st1 |}).

(** The body of a handler called with [arg]; [derived] is the promise of
    the [then] that registered it. *)
Definition run_handler (h : handler) (arg : settlement) (derived : nat)
    (st : state) : state :=
  match h with
  | Fn k op =>
      (* [this.doWrite(data)] or [this.doFlush()] starts and returns its
         promise, which [derived] follows *)
      let '(r, st1) := alloc st in
      let st2 :=
        {| heap := <[r := {| settled := None;
                             reactions := [Follow derived] |}]> (heap st1);
           jobs := jobs st1; this_promise := this_promise st1;
           parent := parent st1; submitted := submitted st1;
           running := running st1 ++ [(k, r)];
           trace := trace st1 ++ [Started k op];
           dispatched := dispatched st1 |} in
      st2
  | CatchHandler =>
      let '(h', st1) :=
        promise_then (this_promise st) (Some Noop) (Some Noop) st in
      let st2 := set_this_promise h' st1 in
      let st3 :=
        {| heap := heap st2; jobs := jobs st2;
           this_promise := this_promise st2; parent := parent st2;
           submitted := submitted st2; running := running st2;
           trace := trace st2;
           dispatched :=
             match arg with
             | Rejected e =>
                 if parent st2 then dispatched st2 ++ [e]
                 else dispatched st2
             | Fulfilled => dispatched st2
             end |} in
      settle derived Fulfilled st3
  | Noop => settle derived Fulfilled st
  end.

(** One reaction job. *)
Definition run_job (j : job) (st : state) : state :=
  match j with
  | (Follow target, s) => settle target s st
  | (Then onFulfilled onRejected derived, s) =>
      match s, onFulfilled, onRejected with
      | Fulfilled, Some h, _ => run_handler h s derived st
      | Rejected _, _, Some h => run_handler h s derived st
      | _, _, _ => settle derived s st
      end
  end.

(** What the host may do next: a call of [write] or [flush]; the [i]-th
    queued job (the host's own order is [i = 0]; jobs of other code may
    come in between); the end, as [s], of the [i]-th running operation. *)
Inductive action :=
  | Call (op : Op)
  | RunJob (i : nat)
  | Complete (i : nat) (s : settlement).

(** One step of the host.  [None]: the action is not enabled. *)
Definition step (a : action) (st : state) : option state :=
  match a with
  | Call op => Some (snd (call op st))
  | RunJob i =>
      match jobs st !! i with
      | Some j => Some (run_job j (set_jobs (delete i (jobs st)) st))
      | None => None
      end
  | Complete i s =>
      match running st !! i with
      | Some (k, r) =>
          Some (settle r s
                  {| heap := heap st; jobs := jobs st;
                     this_promise := this_promise st; parent := parent st;
                     submitted := submitted st;
                     running := delete i (running st);
                     trace := trace st ++ [Finished k s];
                     dispatched := dispatched st |})
      | None => None
      end
  end.

Fixpoint exec (acts : list action) (st : state) : option state :=
  match acts with
  | [] => Some st
  | a :: rest =>
      match step a st with
      | Some st' => exec rest st'
      | None => None
      end
  end.

(** Nothing left to do for the host. *)
Definition quiescent (st : state) : Prop :=
  jobs st = [] /\ running st = [].

(** The host's own scheduling: queued jobs first, in order; then the
    oldest running operation ends as [outcome] says. *)
Fixpoint drain (fuel : nat) (outcome : nat -> settlement) (st : state)
  : state :=
  match fuel with
  | O => st
  | S fuel' =>
      match jobs st, running st with
      | j :: _, _ =>
          match step (RunJob O) st with
          | Some st' => drain fuel' outcome st'
          | None => st
          end
      | [], (k, _) :: _ =>
          match step (Complete O (outcome k)) st with
          | Some st' => drain fuel' outcome st'
          | None => st
          end
      | [], [] => st
      end
  end.

End ChunkStorageWriter.

(** ** Notions used by the statements *)

Module TableSpec.
Import MutableFileChunkStorage.

(** The table of a storage with [k] writers: [1 + 2k] entries, the first
    of which is the number of entries minus one. *)
Definition table_ok (k : nat) (st : t) : Prop :=
  length (persistenceData st) = (1 + 2 * k)%nat /\
  persistenceData st !! O
    = Some (Z.of_nat (length (persistenceData st)) - 1).

(** Successive [writer(startPosition)] calls. *)
Fixpoint writers (sps : list Z) (st : t) : list (option Writer) * t :=
  match sps with
  | [] => ([], st)
  | sp :: rest =>
      let '(w, st1) := writer sp st in
      let '(ws, st2) := writers rest st1 in
      (w :: ws, st2)
  end.

(** The states a storage goes through: every method takes it to a later
    one. *)
Inductive later : t -> t -> Prop :=
  | later_now st : later st st
  | later_writer st st' sp :
      later st st' -> later st (snd (writer sp st'))
  | later_doWrite st st' data w :
      later st st' -> later st (snd (doWrite data w st'))
  | later_persist st st' task :
      later st st' -> later st (snd (persist_body task st'))
  | later_reset st st' : later st st' -> later st (reset st')
  | later_read st st' position size :
      later st st' -> later st (snd (read position size st'))
  | later_load st st' totalSize r st'' :
      later st st' -> load totalSize st' = Some (r, st'') -> later st st''.

(** A read that failed or returned fewer than [expected] bytes. *)
Definition short_or_failed (r : result (list byte)) (expected : Z) : Prop :=
  match r with
  | Throw _ => True
  | Ok bs => Z.of_nat (length bs) < expected
  end.

(** What [load] computes from a header that is no safe integer: the
    announced number of entries and the bytes it asks of the file. *)
Definition announced (w : Z) : SpecFloat.spec_float :=
  Float64.fadd (Float64.decode w) (Float64.of_Z 1).

Definition announced_bytes (w : Z) : SpecFloat.spec_float :=
  Float64.fmul (Float64.of_Z 8) (announced w).

(** A read that failed, or returned no whole number of entries, or
    another number of entries than [count]. *)
Definition other_length (r : result (list byte))
    (count : SpecFloat.spec_float) : Prop :=
  match bind_result r Float64Array_of_buffer with
  | Throw _ => True
  | Ok ws =>
      SpecFloat.SFeqb (Float64.of_Z (Z.of_nat (length ws))) count = false
  end.

(** Missing or malformed metadata at [totalSize]: the header read fails
    or is short (absent header); the header is zero or NaN; the header
    announces [size] entries and the read of the table fails or is
    short; or the header is no safe integer (an infinity, a fraction, a
    magnitude from 2^53 on) and the read of the table fails or has not
    the announced length. *)
Inductive malformed_metadata (totalSize : Z) (st : t) : Prop :=
  | header_absent :
      short_or_failed
        (fst (SimpleMutableFile.read 8 totalSize (file st))) 8 ->
      malformed_metadata totalSize st
  | header_zero bs :
      fst (SimpleMutableFile.read 8 totalSize (file st)) = Ok bs ->
      length bs = 8%nat ->
      Float64.value (Float64.le_word bs) = Some 0 ->
      malformed_metadata totalSize st
  | table_short bs size :
      fst (SimpleMutableFile.read 8 totalSize (file st)) = Ok bs ->
      length bs = 8%nat ->
      Float64.value (Float64.le_word bs) = Some size ->
      short_or_failed
        (fst (SimpleMutableFile.read (8 * (size + 1)) totalSize
                (snd (SimpleMutableFile.read 8 totalSize (file st)))))
        (8 * (size + 1)) ->
      malformed_metadata totalSize st
  | header_nan bs :
      fst (SimpleMutableFile.read 8 totalSize (file st)) = Ok bs ->
      length bs = 8%nat ->
      Float64.is_nan (Float64.le_word bs) = true ->
      malformed_metadata totalSize st
  | table_other bs :
      fst (SimpleMutableFile.read 8 totalSize (file st)) = Ok bs ->
      length bs = 8%nat ->
      Float64.value (Float64.le_word bs) = None ->
      other_length
        (fst (SimpleMutableFile.read
                (read_size (announced_bytes (Float64.le_word bs))
                   (snd (SimpleMutableFile.read 8 totalSize (file st))))
                totalSize
                (snd (SimpleMutableFile.read 8 totalSize (file st)))))
        (announced (Float64.le_word bs)) ->
      malformed_metadata totalSize st.

(** A new storage over a file that holds the double [w] and nothing
    else. *)
Definition lone_header (w : Z) : t :=
  init true (Some {| SimpleMutableFile.content := Float64.le_bytes 8 w;
                     SimpleMutableFile.faults := [] |}).

(** The bit patterns of [Infinity], [2 ** 53], [1e300] and [0.5]. *)
Definition odd_headers : list Z :=
  [9218868437227405312; 4845873199050653696; 9094988921128908188;
   4602678819172646912].

(** The table holds the pairs of [ws], the writers of the storage in
    the order of their creation: the slot of each holds its size. *)
Definition holds_writers (st : t) (ws : list Writer) : Prop :=
  table_ok (length ws) st /\
  forall i w, ws !! i = Some w ->
    writtenSizeIndex w = (2 * i + 2)%nat /\
    persistenceData st !! (2 * i + 1)%nat = Some (startPosition w) /\
    persistenceData st !! (2 * i + 2)%nat = Some (writtenSize w).

(** A write of one byte by a first writer at 40 that is waiting for the
    file while a second writer, at 50, is created: the two writers and
    the storage once the write has ended. *)
Definition raced : list Writer * t :=
  let '(w1, st1) := writer 40 (init false None) in
  match w1 with
  | None => ([], st1)
  | Some w =>
      match doWrite_begin ["A"%byte] w st1 with
      | (None, st2) => ([w], st2)
      | (Some p, st2) =>
          let '(w2, st3) := writer 50 st2 in
          let '(_, w', st4) := doWrite_end p w st3 in
          (w' :: match w2 with Some w2 => [w2] | None => [] end, st4)
      end
  end.

(** A storage with two writers at 0 and 4, three bytes written by the
    first. *)
Definition two_writers : t :=
  {| file := {| SimpleMutableFile.content := ["A"; "A"; "A"]%byte;
                SimpleMutableFile.faults := [] |};
     persistSentry := O;
     persistenceData := [4; 0; 3; 4; 0];
     persistenceDataId := 2%nat;
     warnings := [] |}.

(** A storage with one writer whose file rejects the next request. *)
Definition one_writer_failing : t :=
  set_file {| SimpleMutableFile.content := [];
              SimpleMutableFile.faults := [Some (IOError 1)] |}
    (snd (writer 0 (init false None))).

End TableSpec.

Module SegmentSpec.
Import SegmentedFileChunkStorage.

(** Total length of a run of segments. *)
Definition total_size (segs : list (Z * list byte)) : Z :=
  Z.of_nat (length (concat (snd <$> segs))).

(** Segments tile from [start]: the start of each equals [start] plus
    the sum of the lengths of all those before it. *)
Definition tiles_at (start : Z) (segs : list (Z * list byte)) : Prop :=
  forall i seg,
    segs !! i = Some seg -> seg.1 = start + total_size (take i segs).

Definition tiles (segs : list (Z * list byte)) : Prop := tiles_at 0 segs.

(** The states a storage goes through. *)
Inductive later : t -> t -> Prop :=
  | later_now st : later st st
  | later_doFlush st st' w :
      later st st' -> later st (snd (doFlush w st'))
  | later_getFile st st' : later st st' -> later st (snd (getFile st'))
  | later_persist st st' : later st st' -> later st (snd (persist st'))
  | later_delete st st' : later st st' -> later st (snd (delete st')).

(** An empty database and a storage on it. *)
Definition empty_database : SegmentsDatabase.t :=
  {| SegmentsDatabase.data := ∅; SegmentsDatabase.recovery := ∅;
     SegmentsDatabase.db_faults := [] |}.

Definition fresh_storage : t :=
  {| id := 7; database := empty_database; flushSentry := O |}.

(** A database whose only segment for storage 7 starts at 100. *)
Definition gapped_storage : t :=
  {| id := 7;
     database :=
       {| SegmentsDatabase.data := {[ (7, 100) := ["z"%byte] ]};
          SegmentsDatabase.recovery := ∅;
          SegmentsDatabase.db_faults := [] |};
     flushSentry := O |}.

Definition settlement_of (r : result unit) : ChunkStorageWriter.settlement :=
  match r with
  | Ok _ => ChunkStorageWriter.Fulfilled
  | Throw e => ChunkStorageWriter.Rejected e
  end.

End SegmentSpec.

(** The shape of the promise heap of a writer, call by call. *)
Module QueueSpec.
Import ChunkStorageWriter.

(** How far a call, or the healing [then] of the catch handler, has got:
    waiting on its predecessor, its job queued, its operation running,
    the operation finished, its result settled and the catch job queued. *)
Inductive phase :=
  | Waiting
  | Queued
  | Running (r : nat)
  | Finishing (r : nat) (s : settlement)
  | Catching (r : nat) (s : settlement).

(** A link of the chain that has not settled its last promise: a call
    with its [result] and [catch] promises, or a healing [then]. *)
Inductive pnode :=
  | PCall (k : nat) (op : Op) (rho c : nat) (ph : phase)
  | PHeal (h : nat) (queued : bool).

(** A link that has. *)
Inductive dnode :=
  | DCall (k : nat) (op : Op) (rho c r : nat) (s : settlement)
  | DHeal (h : nat).

Record shadow := mkShadow {
  dones : list dnode;
  pend : list pnode
}.

Definition pending (rs : list reaction) : promise :=
  {| settled := None; reactions := rs |}.

Definition settled_with (s : settlement) : promise :=
  {| settled := Some s; reactions := [] |}.

Definition p_out (n : pnode) : nat :=
  match n with
  | PCall _ _ _ c _ => c
  | PHeal h _ => h
  end.

Definition d_out (d : dnode) : nat :=
  match d with
  | DCall _ _ _ c _ _ => c
  | DHeal h => h
  end.

Definition catch_reaction (c : nat) : reaction :=
  Then None (Some CatchHandler) c.

(** The reaction by which a link waits on its predecessor. *)
Definition trigger (n : pnode) : reaction :=
  match n with
  | PCall k op rho _ _ => Then (Some (Fn k op)) None rho
  | PHeal h _ => Then (Some Noop) (Some Noop) h
  end.

Definition is_waiting (n : pnode) : bool :=
  match n with
  | PCall _ _ _ _ Waiting => true
  | PHeal _ false => true
  | _ => false
  end.

Definition wake (n : pnode) : pnode :=
  match n with
  | PCall k op rho c Waiting => PCall k op rho c Queued
  | PHeal h _ => PHeal h true
  | _ => n
  end.

Definition wake_head (l : list pnode) : list pnode :=
  match l with
  | [] => []
  | w :: ws => wake w :: ws
  end.

(** The settled link that a link at its last job becomes. *)
Definition retire (n : pnode) : option dnode :=
  match n with
  | PCall k op rho c (Catching r s) => Some (DCall k op rho c r s)
  | PHeal h true => Some (DHeal h)
  | _ => None
  end.

(** The promises of a link other than its last. *)
Definition own_cells (n : pnode) : list (nat * promise) :=
  match n with
  | PCall _ _ rho c Waiting | PCall _ _ rho c Queued =>
      [(rho, pending [catch_reaction c])]
  | PCall _ _ rho c (Running r) =>
      [(rho, pending [catch_reaction c]); (r, pending [Follow rho])]
  | PCall _ _ rho c (Finishing r s) =>
      [(rho, pending [catch_reaction c]); (r, settled_with s)]
  | PCall _ _ rho c (Catching r s) =>
      [(rho, settled_with s); (r, settled_with s)]
  | PHeal _ _ => []
  end.

(** The last promise of each link holds the trigger of the next one. *)
Fixpoint chain (l : list pnode) (after : list reaction)
  : list (nat * promise) :=
  match l with
  | [] => []
  | n :: rest =>
      (p_out n,
       pending (match rest with [] => after | n' :: _ => [trigger n'] end))
      :: chain rest after
  end.

Definition d_cells (d : dnode) : list (nat * promise) :=
  match d with
  | DCall _ _ rho c r s =>
      [(rho, settled_with s); (c, settled_with Fulfilled);
       (r, settled_with s)]
  | DHeal h => [(h, settled_with Fulfilled)]
  end.

Definition cells (a : shadow) : list (nat * promise) :=
  (O, settled_with Fulfilled)
  :: (dones a ≫= d_cells) ++ (pend a ≫= own_cells) ++ chain (pend a) [].

Definition node_jobs (n : pnode) : list job :=
  match n with
  | PCall _ _ _ _ Waiting | PCall _ _ _ _ (Running _) => []
  | PCall _ _ _ _ Queued => [(trigger n, Fulfilled)]
  | PCall _ _ rho _ (Finishing _ s) => [(Follow rho, s)]
  | PCall _ _ _ c (Catching _ s) => [(catch_reaction c, s)]
  | PHeal _ true => [(trigger n, Fulfilled)]
  | PHeal _ false => []
  end.

Definition node_running (n : pnode) : list (nat * nat) :=
  match n with
  | PCall k _ _ _ (Running r) => [(k, r)]
  | _ => []
  end.

Definition node_events (n : pnode) : list event :=
  match n with
  | PCall k op _ _ (Running _) => [Started k op]
  | PCall k op _ _ (Finishing _ s) | PCall k op _ _ (Catching _ s) =>
      [Started k op; Finished k s]
  | _ => []
  end.

Definition d_events (d : dnode) : list event :=
  match d with
  | DCall k op _ _ _ s => [Started k op; Finished k s]
  | DHeal _ => []
  end.

Definition d_errors (d : dnode) : list Error :=
  match d with
  | DCall _ _ _ _ _ (Rejected e) => [e]
  | _ => []
  end.

Definition d_sub (d : dnode) : list (nat * (Op * nat)) :=
  match d with
  | DCall k op rho _ _ _ => [(k, (op, rho))]
  | DHeal _ => []
  end.

Definition p_sub (n : pnode) : list (nat * (Op * nat)) :=
  match n with
  | PCall k op rho _ _ => [(k, (op, rho))]
  | PHeal _ _ => []
  end.

Definition head_of {A B : Type} (f : A -> list B) (l : list A) : list B :=
  match l with
  | [] => []
  | n :: _ => f n
  end.

(** The reactions held by the last promise of a link followed by [ws]. *)
Definition trig (ws : list pnode) : list reaction :=
  head_of (fun w => [trigger w]) ws.

Definition a_subs (a : shadow) : list (nat * (Op * nat)) :=
  (dones a ≫= d_sub) ++ (pend a ≫= p_sub).

Definition a_tail (a : shadow) : nat :=
  match last (pend a) with
  | Some n => p_out n
  | None =>
      match last (dones a) with
      | Some d => d_out d
      | None => O
      end
  end.

Definition shape (a : shadow) : Prop :=
  match pend a with
  | [] => True
  | n :: ws => is_waiting n = false /\ Forall (fun w => is_waiting w = true) ws
  end.

(** The heap holds every cell of [cs]. *)
Definition models (h : list promise) (cs : list (nat * promise)) : Prop :=
  forall i p, (i, p) ∈ cs -> h !! i = Some p.

(** A heap that holds the cells [cs], no two of them at one address. *)
Definition good (h : list promise) (cs : list (nat * promise)) : Prop :=
  models h cs /\ NoDup (fst <$> cs).

(** The state of a writer is the one its chain of links describes. *)
Record Inv (st : state) (a : shadow) : Prop := mkInv {
  inv_cells : models (heap st) (cells a);
  inv_nodup : NoDup (fst <$> cells a);
  inv_shape : shape a;
  inv_jobs : jobs st = head_of node_jobs (pend a);
  inv_running : running st = head_of node_running (pend a);
  inv_trace :
    trace st = (dones a ≫= d_events) ++ head_of node_events (pend a);
  inv_dispatched :
    dispatched st = if parent st then dones a ≫= d_errors else [];
  inv_submitted : submitted st = snd <$> a_subs a;
  inv_indices : fst <$> a_subs a = seq 0 (length (a_subs a));
  inv_tail : this_promise st = a_tail a
}.

(** What is still to do: jobs to run and operations to complete, counting
    the healing [then] that a failing call will add. *)
Definition node_weight (n : pnode) : nat :=
  match n with
  | PCall _ _ _ _ Waiting | PCall _ _ _ _ Queued => 5
  | PCall _ _ _ _ (Running _) => 4
  | PCall _ _ _ _ (Finishing _ _) => 3
  | PCall _ _ _ _ (Catching _ _) => 2
  | PHeal _ _ => 1
  end.

Definition weight (a : shadow) : nat :=
  list_sum (node_weight <$> pend a).

(** The trace of a writer that runs its operations one at a time in call
    order: [Started k] then [Finished k] for [k = next, next + 1, ...],
    the last one possibly still running. *)
Fixpoint in_order (ops : list Op) (next : nat) (tr : list event) : Prop :=
  match tr with
  | [] => True
  | Started k op :: rest =>
      k = next /\ ops !! k = Some op /\
      match rest with
      | [] => True
      | Finished k' _ :: rest' => k' = k /\ in_order ops (S next) rest'
      | Started _ _ :: _ => False
      end
  | Finished _ _ :: _ => False
  end.

(** The errors of the operations that failed, in the order of the trace. *)
Fixpoint rejections (tr : list event) : list Error :=
  match tr with
  | [] => []
  | Finished _ (Rejected e) :: rest => e :: rejections rest
  | _ :: rest => rejections rest
  end.

(** Two writes and a flush submitted at once; the first write has been
    started and has failed, its catch job has not run yet. *)
Definition busy_run : list action :=
  [Call (Write ["a"%byte]); Call (Write ["b"%byte]); RunJob 0; Call Flush;
   Complete 0 (Rejected (IOError 5)); RunJob 0].

Definition busy_writer : state :=
  match exec busy_run (create true) with
  | Some st => st
  | None => create true
  end.

End QueueSpec.

(** ** Notions used by the further properties *)

Module WriterSpec.
Import MutableFileChunkStorage.

(** The table slot of a writer holds what the writer holds. *)
Definition in_sync (w : Writer) (st : t) : Prop :=
  persistenceData st !! (writtenSizeIndex w - 1)%nat
    = Some (startPosition w) /\
  persistenceData st !! writtenSizeIndex w = Some (writtenSize w).

(** A writer at a non-negative position with [n] bytes to go below
    2^53. *)
Definition within (w : Writer) (n : Z) : Prop :=
  0 <= startPosition w /\ 0 <= writtenSize w /\
  startPosition w + writtenSize w + n < 2 ^ 53.

(** Successive [write(data)] of one writer, each run to its end. *)
Fixpoint write_all (chunks : list (list byte)) (w : Writer) (st : t)
  : Writer * t :=
  match chunks with
  | [] => (w, st)
  | data :: rest =>
      let '(_, w', st') := doWrite data w st in
      write_all rest w' st'
  end.

(** Where the next byte of a writer goes. *)
Definition position (w : Writer) : Z := startPosition w + writtenSize w.

(** The numbers of a write of [n] bytes by [w] are safe integers, on
    which the sums of the code are exact. *)
Definition in_range (w : Writer) (n : Z) : Prop :=
  Float64.safe (startPosition w) /\
  Float64.safe (writtenSize w) /\
  Float64.safe (startPosition w + writtenSize w) /\
  Float64.safe n /\
  Float64.safe (writtenSize w + n).

(** A storage whose file rejects the next request. *)
Definition rejecting (e : Error) (st : t) : t :=
  set_file {| SimpleMutableFile.content :=
                SimpleMutableFile.content (file st);
              SimpleMutableFile.faults :=
                Some e :: SimpleMutableFile.faults (file st) |} st.

End WriterSpec.

Module BufferSpec.
Import SegmentedFileChunkStorage.

(** The operations of one writer, each run to its end, in order. *)
Fixpoint run (ops : list ChunkStorageWriter.Op) (w : Writer) (st : t)
  : Writer * t :=
  match ops with
  | [] => (w, st)
  | ChunkStorageWriter.Write data :: rest =>
      run rest (snd (doWrite data w)) st
  | ChunkStorageWriter.Flush :: rest =>
      let '(_, w', st') := doFlush w st in
      run rest w' st'
  end.

(** The operations of one writer, each run to its end, in order, each
    flush on the storage it meets: deletes, flushes of other writers and
    failures of the store may lie between the steps. *)
Fixpoint run_on (steps : list (ChunkStorageWriter.Op * t)) (w : Writer)
  : Writer :=
  match steps with
  | [] => w
  | (ChunkStorageWriter.Write data, _) :: rest =>
      run_on rest (snd (doWrite data w))
  | (ChunkStorageWriter.Flush, st) :: rest =>
      run_on rest (snd (fst (doFlush w st)))
  end.

(** The bytes handed to [write], in order. *)
Fixpoint written (ops : list ChunkStorageWriter.Op) : list byte :=
  match ops with
  | [] => []
  | ChunkStorageWriter.Write data :: rest => data ++ written rest
  | ChunkStorageWriter.Flush :: rest => written rest
  end.

(** What the counters of a writer say about its buffer. *)
Definition accounted (w : Writer) : Prop :=
  bufferPosition w + Z.of_nat (length (concat (bufferData w)))
  = startPosition w + writtenSize w /\
  Forall (fun c => c <> []) (bufferData w).

(** A writer that appends to what its storage holds: the stored segments
    tile from 0 without empty ones and the writer's buffer starts where
    they end. *)
Definition appending (w : Writer) (st : t) : Prop :=
  w_flushSentry w = flushSentry st /\
  SegmentsDatabase.db_faults (database st) = [] /\
  SegmentSpec.tiles (segments st) /\
  Forall (fun seg => seg.2 <> []) (segments st) /\
  bufferPosition w = SegmentSpec.total_size (segments st) /\
  Forall (fun c => c <> []) (bufferData w).

(** Another storage on the same database. *)
Definition sibling (other : Z) (st : t) : t :=
  {| id := other; database := database st; flushSentry := O |}.

End BufferSpec.

Module LoneSpec.
Import ChunkStorageWriter QueueSpec.

(** The run of [busy_run] on a writer that has no parent. *)
Definition lone_writer : state :=
  match exec busy_run (create false) with
  | Some st => st
  | None => create false
  end.

End LoneSpec.

(** * Properties *)

(** ** The raw bytes of a table *)

Section Codec.
Import Float64.

Lemma log2_safe a : 1 <= a < 2 ^ 53 ->
  0 <= Z.log2 a <= 52 /\ 2 ^ Z.log2 a <= a < 2 ^ (Z.log2 a + 1).
Proof.
  intros Ha. pose proof (Z.log2_spec a ltac:(lia)) as Hs.
  pose proof (Z.log2_nonneg a).
  split; [|rewrite <- Z.add_1_r in Hs; lia].
  split; [lia|].
  destruct (Z.le_gt_cases (Z.log2 a) 52) as [|Hgt]; [lia|].
  assert (2 ^ 53 <= 2 ^ Z.log2 a) by (apply Z.pow_le_mono_r; lia). lia.
Qed.

(** The three fields of the pattern of a non-zero safe integer. *)
Lemma bits_fields z : safe z -> z <> 0 ->
  exists e m, 0 <= e <= 52 /\ 0 <= m < 2 ^ 52 /\
  2 ^ 52 + m = Z.abs z * 2 ^ (52 - e) /\
  bits z = (if z <? 0 then 1 else 0) * 2 ^ 63 + (e + 1023) * 2 ^ 52 + m.
Proof.
  intros Hs Hz. unfold safe in Hs.
  destruct (log2_safe (Z.abs z) ltac:(lia)) as [He [Hlo Hhi]].
  set (e := Z.log2 (Z.abs z)) in *.
  exists e, (Z.abs z * 2 ^ (52 - e) - 2 ^ 52).
  assert (Hp : 2 ^ e * 2 ^ (52 - e) = 2 ^ 52).
  { rewrite <- Z.pow_add_r by lia. f_equal. lia. }
  assert (Hq : 0 < 2 ^ (52 - e)) by (apply Z.pow_pos_nonneg; lia).
  assert (Hhi' : 2 ^ (e + 1) = 2 * 2 ^ e).
  { rewrite Z.pow_add_r by lia. lia. }
  split; [lia|]. split; [nia|]. split; [lia|].
  unfold bits. destruct (z =? 0) eqn:E0; [lia|].
  fold e. destruct (z <? 0); lia.
Qed.

Lemma bits_range z : safe z -> 0 <= bits z < 2 ^ 64.
Proof.
  intros Hs. destruct (Z.eq_dec z 0) as [->|Hz]; [cbn; lia|].
  destruct (bits_fields z Hs Hz) as (e & m & He & Hm & _ & ->).
  destruct (z <? 0); lia.
Qed.

Lemma value_bits z : safe z -> value (bits z) = Some z.
Proof.
  intros Hs. destruct (Z.eq_dec z 0) as [->|Hz]; [reflexivity|].
  destruct (bits_fields z Hs Hz) as (e & m & He & Hm & Hsig & Hb).
  set (sg := if z <? 0 then 1 else 0) in *.
  assert (Hsg : sg = 0 \/ sg = 1) by (subst sg; destruct (z <? 0); lia).
  assert (Hmod : bits z mod 2 ^ 52 = m).
  { symmetry. apply (Z.mod_unique _ _ (sg * 2 ^ 11 + e + 1023)); lia. }
  assert (Hdiv : bits z / 2 ^ 52 = sg * 2 ^ 11 + e + 1023).
  { symmetry. apply (Z.div_unique _ _ _ m); lia. }
  assert (Hef : (bits z / 2 ^ 52) mod 2 ^ 11 = e + 1023).
  { rewrite Hdiv. symmetry. apply (Z.mod_unique _ _ sg); lia. }
  assert (Hs63 : bits z / 2 ^ 63 = sg).
  { symmetry. apply (Z.div_unique _ _ _ ((e + 1023) * 2 ^ 52 + m)); lia. }
  unfold value. rewrite Hef, Hmod, Hs63.
  destruct (e + 1023 =? 0) eqn:E1; [lia|].
  destruct (e + 1023 =? 2047) eqn:E2; [lia|].
  replace (1075 - (e + 1023)) with (52 - e) by lia.
  assert (Hq : 0 < 2 ^ (52 - e)) by (apply Z.pow_pos_nonneg; lia).
  rewrite Hsig, Z.mod_mul, Z.div_mul by lia.
  replace (0 <=? 52 - e) with true by (symmetry; apply Z.leb_le; lia).
  replace (52 - e <=? 52) with true by (symmetry; apply Z.leb_le; lia).
  cbn [andb Z.eqb]. f_equal. subst sg.
  destruct (z <? 0) eqn:En; cbn [Z.eqb];
    [apply Z.ltb_lt in En | apply Z.ltb_ge in En]; lia.
Qed.

Lemma is_nan_bits z : safe z -> is_nan (bits z) = false.
Proof.
  intros Hs. destruct (Z.eq_dec z 0) as [->|Hz]; [reflexivity|].
  destruct (bits_fields z Hs Hz) as (e & m & He & Hm & Hsig & Hb).
  set (sg := if z <? 0 then 1 else 0) in *.
  assert (Hsg : sg = 0 \/ sg = 1) by (subst sg; destruct (z <? 0); lia).
  assert (Hdiv : bits z / 2 ^ 52 = sg * 2 ^ 11 + e + 1023).
  { symmetry. apply (Z.div_unique _ _ _ m); lia. }
  assert (Hef : (bits z / 2 ^ 52) mod 2 ^ 11 = e + 1023).
  { rewrite Hdiv. symmetry. apply (Z.mod_unique _ _ sg); lia. }
  unfold is_nan. rewrite Hef.
  destruct (e + 1023 =? 2047) eqn:E2; [lia|]. reflexivity.
Qed.

(** From 2^53 on a sum is rounded as doubles are, ties to even. *)
Lemma add_rounds :
  add (2 ^ 53) 1 = 2 ^ 53 /\ add (2 ^ 53 + 2) 1 = 2 ^ 53 + 4 /\
  add (2 ^ 53 - 2) 1 = 2 ^ 53 - 1.
Proof. repeat split; vm_compute; reflexivity. Qed.

Lemma Z_of_byte_of_Z z : Z_of_byte (byte_of_Z z) = z mod 256.
Proof.
  unfold Z_of_byte, byte_of_Z.
  pose proof (Z.mod_pos_bound z 256 ltac:(lia)) as Hb.
  destruct (Byte.of_N (Z.to_N (z mod 256))) as [b|] eqn:E.
  - apply Byte.to_of_N in E. rewrite E. lia.
  - apply Byte.of_N_None_iff in E. lia.
Qed.

Lemma length_le_bytes n w : length (le_bytes n w) = n.
Proof. revert w; induction n; intros; simpl; [done|]. by rewrite IHn. Qed.

Lemma le_word_le_bytes n w :
  le_word (le_bytes n w) = w mod 2 ^ (8 * Z.of_nat n).
Proof.
  revert w. induction n as [|n IH]; intros w.
  - cbn. by rewrite Z.mod_1_r.
  - cbn [le_bytes le_word]. rewrite Z_of_byte_of_Z, IH.
    replace (8 * Z.of_nat (S n)) with (8 + 8 * Z.of_nat n) by lia.
    rewrite Z.pow_add_r by lia. change (2 ^ 8) with 256.
    rewrite Z.rem_mul_r by lia. reflexivity.
Qed.

Lemma le_word_bits z : safe z -> le_word (le_bytes 8 (bits z)) = bits z.
Proof.
  intros Hs. rewrite le_word_le_bytes.
  apply Z.mod_small. change (8 * Z.of_nat 8) with 64. by apply bits_range.
Qed.

End Codec.

Section Buffers.

Lemma length_typedArrayToBuffer a :
  length (typedArrayToBuffer a) = (8 * length a)%nat.
Proof.
  unfold typedArrayToBuffer. induction a as [|x a IH]; [done|].
  cbn [map concat length]. rewrite length_app, IH, length_le_bytes. lia.
Qed.

Lemma words_of_typedArrayToBuffer a fuel :
  (length a <= fuel)%nat ->
  Forall Float64.safe a ->
  words_of_buffer fuel (typedArrayToBuffer a) = map Float64.bits a.
Proof.
  revert fuel. induction a as [|x a IH]; intros fuel Hf Hs.
  - destruct fuel; reflexivity.
  - destruct fuel as [|fuel]; [simpl in Hf; lia|].
    inversion Hs as [|? ? Hx Ha]; subst.
    unfold typedArrayToBuffer in *. cbn [map concat words_of_buffer].
    pose proof (length_le_bytes 8 (Float64.bits x)) as Hl.
    destruct (Float64.le_bytes 8 (Float64.bits x) ++ _) eqn:E.
    { apply (f_equal length) in E. rewrite length_app, Hl in E.
      simpl in E. lia. }
    rewrite <- E.
    rewrite take_app_length' by done. rewrite drop_app_length' by done.
    rewrite IH by (simpl in Hf; lia || done).
    f_equal. by apply le_word_bits.
Qed.

Lemma Float64Array_of_typedArrayToBuffer a :
  Forall Float64.safe a ->
  Float64Array_of_buffer (typedArrayToBuffer a) = Ok (map Float64.bits a).
Proof.
  intros Hs. unfold Float64Array_of_buffer.
  rewrite length_typedArrayToBuffer.
  replace (Z.of_nat (8 * length a) mod Float64.BYTES_PER_ELEMENT =? 0)
    with true.
  - f_equal. apply words_of_typedArrayToBuffer; [lia|done].
  - symmetry. apply Z.eqb_eq. unfold Float64.BYTES_PER_ELEMENT.
    rewrite Nat2Z.inj_mul, Z.mul_comm. apply Z.mod_mul. lia.
Qed.

Lemma numbers_of_words_bits a :
  Forall Float64.safe a ->
  numbers_of_words (map Float64.bits a) = Some a.
Proof.
  intros Hs. unfold numbers_of_words. apply mapM_Some.
  induction Hs as [|x a Hx Ha IH]; constructor; [|done].
  by apply value_bits.
Qed.

End Buffers.


(** ** Random-access backend: the persistence table *)

Section Table.
Import MutableFileChunkStorage TableSpec.

Lemma init_table_ok isLoaded stored : table_ok 0 (init isLoaded stored).
Proof. split; reflexivity. Qed.

Lemma writer_spec k sp st :
  table_ok k st ->
  writer sp st =
  (Some {| startPosition := sp; writtenSize := 0;
             writtenSizeIndex := (2 * k + 2)%nat |},
     store_persistenceData O (2 * Z.of_nat (S k))
       (set_persistenceData (persistenceData st ++ [sp; 0]) st)).
Proof.
  intros [Hlen Hhd].
  destruct (persistenceData st) as [|h tl] eqn:E; [simpl in Hlen; lia|].
  simpl in Hhd, Hlen. injection Hhd as ->.
  assert (Hl : length tl = (2 * k)%nat) by lia.
  unfold writer, concatTypedArray, new_Writer. rewrite E. simpl.
  rewrite !lookup_app_r by lia.
  replace (length tl - length tl)%nat with O by lia.
  replace (length tl + 1 - length tl)%nat with 1%nat by lia.
  simpl. repeat f_equal; lia.
Qed.

Lemma writer_table_ok k sp st :
  table_ok k st -> table_ok (S k) (snd (writer sp st)).
Proof.
  intros H. rewrite (writer_spec k sp st H). destruct H as [Hlen Hhd].
  destruct (persistenceData st) as [|h tl] eqn:E; [simpl in Hlen; lia|].
  unfold table_ok. simpl in *.
  rewrite length_app. simpl. split; [lia|]. f_equal. lia.
Qed.

Lemma pairs_app_even (a b : list Z) :
  Nat.Even (length a) -> pairs (a ++ b) = pairs a ++ pairs b.
Proof.
  revert b. induction a as [a IH] using (induction_ltof1 _ (@length Z)).
  unfold ltof in IH. intros b Hev.
  destruct a as [|x [|y rest]]; simpl in *.
  - reflexivity.
  - destruct Hev as [n Hn]. lia.
  - f_equal. apply IH; [lia|].
    destruct Hev as [n Hn]. exists (n - 1)%nat. lia.
Qed.

Lemma writer_table_pairs k sp st :
  table_ok k st ->
  table_pairs (snd (writer sp st)) = table_pairs st ++ [(sp, 0)].
Proof.
  intros H. rewrite (writer_spec k sp st H). destruct H as [Hlen Hhd].
  unfold table_pairs. simpl.
  destruct (persistenceData st) as [|h tl] eqn:E; [simpl in Hlen; lia|].
  simpl in *.
  apply (pairs_app_even tl [sp; 0]). exists k. lia.
Qed.

Lemma writers_cons sp rest st :
  writers (sp :: rest) st
  = (fst (writer sp st) :: fst (writers rest (snd (writer sp st))),
     snd (writers rest (snd (writer sp st)))).
Proof.
  cbn [writers]. destruct (writer sp st) as [w st1]. cbn [fst snd].
  destruct (writers rest st1) as [ws st2]. reflexivity.
Qed.

Lemma writers_table_ok sps : forall k st,
  table_ok k st -> table_ok (k + length sps) (snd (writers sps st)).
Proof.
  induction sps as [|sp rest IH]; intros k st H.
  - cbn. replace (k + 0)%nat with k by lia. exact H.
  - rewrite writers_cons. cbn [snd length].
    replace (k + S (length rest))%nat with (S k + length rest)%nat by lia.
    apply IH, writer_table_ok, H.
Qed.

Lemma writers_table_pairs sps : forall k st,
  table_ok k st ->
  table_pairs (snd (writers sps st))
  = table_pairs st ++ map (fun sp => (sp, 0)) sps.
Proof.
  induction sps as [|sp rest IH]; intros k st H.
  - cbn. by rewrite app_nil_r.
  - rewrite writers_cons. cbn [snd map].
    rewrite (IH (S k)) by (apply writer_table_ok, H).
    rewrite (writer_table_pairs k sp st H), <- app_assoc. reflexivity.
Qed.

Lemma writers_returned sps : forall k st,
  table_ok k st ->
  fst (writers sps st)
  = imap (fun i sp =>
            Some {| startPosition := sp; writtenSize := 0;
                    writtenSizeIndex := (2 * (k + i) + 2)%nat |}) sps.
Proof.
  induction sps as [|sp rest IH]; intros k st H.
  - reflexivity.
  - rewrite writers_cons. cbn [fst imap].
    rewrite (IH (S k)) by (apply writer_table_ok, H).
    rewrite (writer_spec k sp st H). cbn [fst]. f_equal.
    + repeat f_equal. lia.
    + apply imap_ext. intros i x _. cbn. repeat f_equal. lia.
Qed.

(** C9.  From a table with [k] writers (after [init], [k = 0]), any
    sequence of [writer()] calls leaves a table of [1 + 2 * writers]
    entries whose first entry is the number of entries minus one; each
    call appends the pair [(startPosition, 0)] and returns a writer with
    that [startPosition], [writtenSize = 0], bound to the slot of the
    pair it appended. *)
Theorem writer_calls_keep_table (isLoaded : bool)
    (stored : option SimpleMutableFile.t) (k : nat) (st : t)
    (sps : list Z) :
  table_ok k st ->
  table_ok 0 (init isLoaded stored) /\
  table_ok (k + length sps) (snd (writers sps st)) /\
  table_pairs (snd (writers sps st))
  = table_pairs st ++ map (fun sp => (sp, 0)) sps /\
  fst (writers sps st)
  = imap (fun i sp =>
              Some {| startPosition := sp; writtenSize := 0;
                      writtenSizeIndex := (2 * (k + i) + 2)%nat |}) sps /\
  (forall sp,
      persistenceData (snd (writer sp st))
        = <[O := Z.of_nat (length (persistenceData st)) + 1]>
            (persistenceData st ++ [sp; 0])).
Proof.
  intros H. split; [apply init_table_ok|].
  split; [by apply writers_table_ok|].
  split; [by apply (writers_table_pairs sps k)|].
  split; [by apply writers_returned|].
  intros sp. rewrite (writer_spec k sp st H). simpl.
  destruct H as [Hlen _]. rewrite Hlen. f_equal. lia.
Qed.

Lemma writer_calls_keep_table_witness :
  table_ok 0 (init true None) /\
  table_ok 2 (snd (writers [0; 4] (init true None))).
Proof.
  split; [split; reflexivity|].
  exact (proj1 (proj2 (writer_calls_keep_table true None 0
                         (init true None) [0; 4] (conj eq_refl eq_refl)))).
Defined.

End Table.

(** ** Random-access backend: persist and load *)

Section RoundTrip.
Import MutableFileChunkStorage TableSpec.

Lemma slice_overwrite (n : nat) data position bs :
  0 <= position -> (n <= length data)%nat ->
  SimpleMutableFile.slice (Z.of_nat n) position
  (SimpleMutableFile.overwrite data position bs) = take n data.
Proof.
  intros Hp Hn. unfold SimpleMutableFile.slice, SimpleMutableFile.overwrite.
  rewrite Nat2Z.id. set (p := Z.to_nat position).
  rewrite app_assoc.
  rewrite drop_app_length'.
  - rewrite take_app_le by done. reflexivity.
  - rewrite length_app, length_take, length_replicate. lia.
Qed.

Lemma read_no_fault size position f :
  SimpleMutableFile.faults f = [] ->
  SimpleMutableFile.read size position f
  = (Ok (SimpleMutableFile.slice size position
           (SimpleMutableFile.content f)), f).
Proof.
  intros Hf. unfold SimpleMutableFile.read, SimpleMutableFile.request.
  by rewrite Hf.
Qed.

Lemma write_no_fault data position f :
  SimpleMutableFile.faults f = [] ->
  SimpleMutableFile.write data position f
  = (Ok tt,
     {| SimpleMutableFile.content :=
          SimpleMutableFile.overwrite data position
            (SimpleMutableFile.content f);
        SimpleMutableFile.faults := [] |}).
Proof.
  intros Hf. unfold SimpleMutableFile.write, SimpleMutableFile.request.
  rewrite Hf. cbn. by rewrite Hf.
Qed.

(** The loop of [load] rebuilds one writer per pair of the table. *)
Lemma load_loop_pairs st fuel : forall i,
  (length (persistenceData st) <= i + 2 * fuel)%nat ->
  Nat.Even (length (drop i (persistenceData st))) ->
  map writer_pair (load_loop fuel i st) = pairs (drop i (persistenceData st)).
Proof.
  induction fuel as [|fuel IH]; intros i Hlen Hev.
  - rewrite drop_ge by lia. reflexivity.
  - cbn [load_loop]. unfold new_Writer.
    destruct (persistenceData st !! i) as [sp|] eqn:Ei.
    + rewrite (drop_S _ _ _ Ei) in Hev |- *.
      destruct (persistenceData st !! (i + 1)%nat) as [ws|] eqn:Ej.
      * replace (i + 1)%nat with (S i) in Ej by lia.
        rewrite (drop_S _ _ _ Ej) in Hev |- *.
        cbn [map pairs]. f_equal.
        replace (S (S i)) with (i + 2)%nat by lia.
        apply IH; [lia|].
        replace (i + 2)%nat with (S (S i)) by lia.
        destruct Hev as [n Hn]. cbn [length] in Hn.
        exists (n - 1)%nat. lia.
      * apply lookup_ge_None in Ej. apply lookup_lt_Some in Ei.
        rewrite (drop_ge _ (S i)) in Hev by lia.
        destruct Hev as [n Hn]. cbn [length] in Hn. lia.
    + apply lookup_ge_None in Ei. rewrite drop_ge by lia. reflexivity.
Qed.

Lemma load_result_pairs k st :
  table_ok k st -> map writer_pair (load_result st) = table_pairs st.
Proof.
  intros [Hlen Hhd]. unfold load_result, table_pairs.
  destruct (persistenceData st) as [|h tl] eqn:E; [simpl in Hlen; lia|].
  rewrite <- E. rewrite load_loop_pairs.
  - rewrite E. reflexivity.
  - lia.
  - rewrite E. simpl in *. rewrite drop_0. exists k. lia.
Qed.

Lemma take_8_typedArrayToBuffer h tl :
  take 8 (typedArrayToBuffer (h :: tl)) = typedArrayToBuffer [h].
Proof.
  unfold typedArrayToBuffer. cbn [map concat]. rewrite app_nil_r.
  rewrite take_app_length'; [done|]. symmetry. apply length_le_bytes.
Qed.

(** What [persist(T, false)] writes, [load(T)] on a fresh storage over
    the same file reads back: one writer per pair of the table. *)
Lemma persist_then_load_table (T : Z) (k : nat) (st : t)
  (task : PersistTask) :
  0 <= T ->
  table_ok k st ->
  Forall Float64.safe (persistenceData st) ->
  SimpleMutableFile.faults (file st) = [] ->
  persist (Some T) false st = Some task ->
  exists loaded st',
    fst (persist_body task st) = Ok tt /\
    load T (init true (Some (file (snd (persist_body task st)))))
        = Some (Ok loaded, st') /\
    map writer_pair loaded = table_pairs st.
Proof.
  intros HT Hok Hsafe Hfaults Hp. injection Hp as <-.
  unfold persist_body. cbn [task_sentry task_final task_totalSize].
  rewrite Nat.eqb_refl. cbn [negb].
  rewrite (write_no_fault _ _ _ Hfaults). cbn [fst snd set_file file init].
  destruct Hok as [Hlen Hhd].
  destruct (persistenceData st) as [|h tl] eqn:Etab; [simpl in Hlen; lia|].
  set (f' := {| SimpleMutableFile.content := _ |}).
  simpl in Hhd, Hlen. injection Hhd as Hh.
  assert (Hsafe' := Hsafe). inversion Hsafe' as [|? ? Hsh Hstl]; subst.
  unfold load. cbn [file].
  rewrite (read_no_fault _ _ f') by reflexivity.
  cbn [SimpleMutableFile.content f'].
  change Float64.BYTES_PER_ELEMENT with (Z.of_nat 8).
  rewrite slice_overwrite
    by (try done; rewrite length_typedArrayToBuffer; simpl; lia).
  rewrite take_8_typedArrayToBuffer. cbn [bind_result].
  rewrite Float64Array_of_typedArrayToBuffer by (by constructor).
  cbn [map lookup list_lookup].
  rewrite is_nan_bits, value_bits by done.
  destruct (Z.of_nat (S (length tl)) - 1 =? 0) eqn:Ez.
  - apply Z.eqb_eq in Ez. exists [], (set_file f' (init true (Some f'))).
    split; [done|]. split; [done|].
    unfold table_pairs. rewrite Etab.
    assert (tl = []) as -> by (apply length_zero_iff_nil; lia). done.
  - cbn [set_file file].
    rewrite (read_no_fault _ _ f') by reflexivity.
    cbn [SimpleMutableFile.content f'].
    replace (Z.of_nat 8 * (Z.of_nat (S (length tl)) - 1 + 1))
      with (Z.of_nat (length (typedArrayToBuffer
               (Z.of_nat (S (length tl)) - 1 :: tl)))).
    2:{ rewrite length_typedArrayToBuffer. cbn [length]. lia. }
    rewrite slice_overwrite by (done || lia).
    rewrite firstn_all. cbn [bind_result].
    rewrite Float64Array_of_typedArrayToBuffer by done.
    rewrite length_map. cbn [length].
    replace (Z.of_nat (S (length tl)) =? Z.of_nat (S (length tl)) - 1 + 1)
      with true by (symmetry; apply Z.eqb_eq; lia).
    cbn [negb]. unfold install, assert.
    cbn [persistenceData set_file init Nat.eqb length].
    rewrite numbers_of_words_bits by done.
    eexists _, _. split; [done|]. split; [reflexivity|].
    rewrite (load_result_pairs k).
    + unfold table_pairs. cbn. by rewrite Etab.
    + split; cbn; [lia|]. done.
Qed.

Lemma pairs_lookup i : forall cells,
  pairs cells !! i
  = match cells !! (2 * i)%nat, cells !! (2 * i + 1)%nat with
    | Some s, Some n => Some (s, n)
    | _, _ => None
    end.
Proof.
  induction i as [|i IH]; intros [|s [|n rest]]; try done.
  cbn [pairs]. replace (2 * S i)%nat with (S (S (2 * i))) by lia.
  cbn [lookup list_lookup plus]. apply IH.
Qed.

Lemma holds_writers_pairs st ws :
  holds_writers st ws -> table_pairs st = map writer_pair ws.
Proof.
  intros [[Hlen _] Hw]. unfold table_pairs.
  change (map writer_pair ws) with (writer_pair <$> ws).
  apply list_eq. intros i. rewrite pairs_lookup, list_lookup_fmap.
  destruct (persistenceData st) as [|h tl] eqn:E; [simpl in Hlen; lia|].
  cbn [tail]. simpl in Hlen.
  destruct (ws !! i) as [w|] eqn:Ew.
  - destruct (Hw i w Ew) as (_ & H1 & H2).
    replace (2 * i + 1)%nat with (S (2 * i)) in H1 by lia.
    replace (2 * i + 2)%nat with (S (2 * i + 1)) in H2 by lia.
    change (tl !! (2 * i)%nat = Some (startPosition w)) in H1.
    change (tl !! (2 * i + 1)%nat = Some (writtenSize w)) in H2.
    by rewrite H1, H2.
  - apply lookup_ge_None in Ew.
    rewrite (proj2 (lookup_ge_None tl (2 * i)%nat)) by lia. done.
Qed.

(** X24.  When [persist(T, false)] runs, on a file that accepts the
    request, on a storage whose table of safe integers holds the pairs of
    its writers, each slot being up to date with its writer's size, a
    fresh storage on the same file answers [load(T)] with writers
    carrying the pairs of those writers in the same order. *)
Theorem persist_then_load (T : Z) (st : t) (ws : list Writer)
  (task : PersistTask) :
  0 <= T ->
  holds_writers st ws ->
  Forall Float64.safe (persistenceData st) ->
  SimpleMutableFile.faults (file st) = [] ->
  persist (Some T) false st = Some task ->
  exists loaded st',
    fst (persist_body task st) = Ok tt /\
    load T (init true (Some (file (snd (persist_body task st)))))
        = Some (Ok loaded, st') /\
    map writer_pair loaded = map writer_pair ws.
Proof.
  intros HT Hws Hsafe Hfaults Hp.
  destruct (persist_then_load_table T (length ws) st task HT (proj1 Hws)
              Hsafe Hfaults Hp) as (loaded & st' & H1 & H2 & H3).
  exists loaded, st'. split; [done|]. split; [done|].
  by rewrite H3, (holds_writers_pairs st ws).
Qed.

Lemma persist_then_load_witness :
  holds_writers two_writers [mkWriter 0 3 2; mkWriter 4 0 4] /\
  exists loaded st',
    load 8 (init true (Some (file (snd (persist_body
                {| task_sentry := O; task_totalSize := 8;
                   task_final := false |} two_writers)))))
        = Some (Ok loaded, st') /\
    map writer_pair loaded = [(0, 3); (4, 0)].
Proof.
  assert (Hw : holds_writers two_writers [mkWriter 0 3 2; mkWriter 4 0 4]).
  { split; [split; reflexivity|].
    intros [|[|i]] w Hi; cbn in Hi; simplify_eq; done. }
  split; [exact Hw|].
  destruct (persist_then_load 8 two_writers
              [mkWriter 0 3 2; mkWriter 4 0 4]
              {| task_sentry := O; task_totalSize := 8;
                 task_final := false |})
    as (loaded & st' & _ & Hload & Hpairs).
  - lia.
  - exact Hw.
  - repeat constructor; unfold Float64.safe; lia.
  - reflexivity.
  - reflexivity.
  - exists loaded, st'. split; [exact Hload | exact Hpairs].
Defined.

(** C2.  When a [writer()] call falls into the wait of a write, the
    write stores its new size in the table it captured and not in the
    table of the storage: [persist] writes the earlier size, and [load]
    on a fresh storage returns a writer with that size and not with the
    size the writer had. *)
Theorem persist_after_race_loses_size :
  let ws := fst raced in
  let st := snd raced in
  let task := {| task_sentry := O; task_totalSize := 41;
                 task_final := false |} in
  map writer_pair ws = [(40, 1); (50, 0)] /\
  persist (Some 41) false st = Some task /\
  exists loaded st',
    fst (persist_body task st) = Ok tt /\
    load 41 (init true (Some (file (snd (persist_body task st)))))
        = Some (Ok loaded, st') /\
    map writer_pair loaded = [(40, 0); (50, 0)] /\
    map writer_pair loaded <> map writer_pair ws.
Proof.
  cbn zeta. split; [vm_compute; reflexivity|].
  split; [vm_compute; reflexivity|].
  eexists _, _. split; [vm_compute; reflexivity|].
  split; [vm_compute; reflexivity|].
  split; [vm_compute; reflexivity|]. vm_compute. discriminate.
Qed.

End RoundTrip.

(** ** Random-access backend: load on missing or malformed metadata *)

Section LoadFallback.
Import MutableFileChunkStorage TableSpec.

Lemma length_words_of_buffer fuel : forall bs,
  (length bs <= fuel)%nat ->
  (length bs <= 8 * length (words_of_buffer fuel bs) < length bs + 8)%nat.
Proof.
  induction fuel as [|fuel IH]; intros bs Hf.
  - destruct bs; simpl in *; lia.
  - destruct bs as [|b bs]; [simpl; lia|].
    cbn [words_of_buffer]. set (l := b :: bs) in *. cbn [length].
    specialize (IH (drop 8 l)). rewrite length_drop in IH.
    assert (0 < length l)%nat by (subst l; simpl; lia).
    lia.
Qed.

Lemma Float64Array_of_buffer_length bs ws :
  Float64Array_of_buffer bs = Ok ws ->
  (8 * length ws = length bs)%nat.
Proof.
  unfold Float64Array_of_buffer, Float64.BYTES_PER_ELEMENT.
  destruct (Z.of_nat (length bs) mod 8 =? 0) eqn:E; [|done].
  intros [= <-]. apply Z.eqb_eq in E.
  pose proof (length_words_of_buffer (length bs) bs ltac:(lia)) as Hb.
  apply Z.mod_divide in E; [|lia]. destruct E as [q Hq]. lia.
Qed.

Lemma Float64Array_of_buffer_8 bs :
  length bs = 8%nat ->
  Float64Array_of_buffer bs = Ok [Float64.le_word bs].
Proof.
  intros H. unfold Float64Array_of_buffer. rewrite H. cbn.
  destruct bs as [|b bs]; [done|].
  rewrite firstn_all2 by (rewrite H; lia).
  rewrite drop_ge by (rewrite H; lia). reflexivity.
Qed.

Lemma load_result_header st :
  length (persistenceData st) = 1%nat -> load_result st = [].
Proof.
  intros H. unfold load_result. rewrite H. cbn. unfold new_Writer.
  rewrite lookup_ge_None_2 by lia. reflexivity.
Qed.

Lemma length_slice size position bs :
  Z.of_nat (length (SimpleMutableFile.slice size position bs)) <= Z.max 0 size.
Proof. unfold SimpleMutableFile.slice. rewrite length_take. lia. Qed.

Lemma read_length size position f bs :
  fst (SimpleMutableFile.read size position f) = Ok bs ->
  Z.of_nat (length bs) <= Z.max 0 size.
Proof.
  unfold SimpleMutableFile.read.
  destruct (SimpleMutableFile.request f) as [[e|] f']; [done|].
  intros [= <-]. apply length_slice.
Qed.

Lemma load_result_warn e st : load_result (warn e st) = load_result st.
Proof.
  unfold load_result. cbn [warn persistenceData].
  generalize (length (persistenceData st)) 1%nat.
  induction n as [|n IH]; intros i; [done|].
  cbn [load_loop]. unfold new_Writer. cbn [warn persistenceData].
  destruct (persistenceData st !! i); [|done]. by rewrite IH.
Qed.

(** C7 (as amended).  Called before any [writer()], when the table is
    still its one-entry header, [load(totalSize)] on missing or malformed
    metadata does not fail: it returns the empty list and keeps the
    table.  Malformed covers every header the file may hold: zero, NaN,
    a safe integer with a short table, and any other double (a fraction,
    an infinity, a magnitude from 2^53 on) with a table of another length
    than the one it announces. *)
Theorem load_malformed_is_empty (totalSize : Z) (st : t) :
  length (persistenceData st) = 1%nat ->
  malformed_metadata totalSize st ->
  exists st',
    load totalSize st = Some (Ok [], st') /\
    persistenceData st' = persistenceData st /\
    persistenceDataId st' = persistenceDataId st.
Proof.
  intros Hlen Hbad. unfold load, Float64.BYTES_PER_ELEMENT.
  destruct Hbad as [Hshort | bs Hr Hl Hv | bs size Hr Hl Hv Hshort
                    | bs Hr Hl Hn | bs Hr Hl Hv Hother];
    destruct (SimpleMutableFile.read 8 totalSize (file st)) as [r1 f1];
    cbn [fst snd] in *.
  - destruct r1 as [bs|e]; cbn [bind_result short_or_failed] in *.
    + destruct (Float64Array_of_buffer bs) as [hd|e] eqn:E.
      * apply Float64Array_of_buffer_length in E.
        destruct hd as [|w hd]; [|simpl in E; lia].
        cbn. eauto.
      * rewrite load_result_warn, load_result_header by done. eauto.
    + rewrite load_result_warn, load_result_header by done. eauto.
  - subst r1. cbn [bind_result]. rewrite Float64Array_of_buffer_8 by done.
    cbn [lookup list_lookup]. destruct (Float64.is_nan _); [eauto|].
    rewrite Hv. cbn. eauto.
  - subst r1. cbn [bind_result]. rewrite Float64Array_of_buffer_8 by done.
    cbn [lookup list_lookup]. destruct (Float64.is_nan _); [eauto|].
    rewrite Hv. destruct (size =? 0); [eauto|].
    destruct (SimpleMutableFile.read (8 * (size + 1)) totalSize f1)
      as [r2 f2]. cbn [fst] in Hshort.
    destruct r2 as [bs2|e]; cbn [bind_result short_or_failed] in *.
    + destruct (Float64Array_of_buffer bs2) as [ws|e] eqn:E.
      * apply Float64Array_of_buffer_length in E.
        replace (Z.of_nat (length ws) =? size + 1) with false
          by (symmetry; apply Z.eqb_neq; lia).
        cbn. eauto.
      * rewrite load_result_warn, load_result_header by done. eauto.
    + rewrite load_result_warn, load_result_header by done. eauto.
  - subst r1. cbn [bind_result]. rewrite Float64Array_of_buffer_8 by done.
    cbn [lookup list_lookup]. rewrite Hn. eauto.
  - subst r1. cbn [bind_result]. rewrite Float64Array_of_buffer_8 by done.
    cbn [lookup list_lookup]. destruct (Float64.is_nan _); [eauto|].
    rewrite Hv. unfold other_length, announced_bytes, announced in Hother.
    change (Float64.of_Z 8) with (Float64.of_Z Float64.BYTES_PER_ELEMENT)
      in Hother.
    destruct (SimpleMutableFile.read _ totalSize f1) as [r2 f2].
    cbn [fst] in Hother.
    destruct (bind_result r2 Float64Array_of_buffer) as [ws|e].
    + rewrite Hother. cbn. eauto.
    + rewrite load_result_warn, load_result_header by done. eauto.
Qed.

Lemma slice_whole size bs :
  Z.of_nat (length bs) <= size ->
  SimpleMutableFile.slice size 0 bs = bs.
Proof.
  intros H. unfold SimpleMutableFile.slice. cbn [Z.to_nat drop].
  apply take_ge. lia.
Qed.

(** A file that holds one double, no safe integer and not NaN, and
    nothing after it: the table it announces is not there. *)
Lemma lone_header_malformed w :
  let bs := Float64.le_bytes 8 w in
  Float64.value (Float64.le_word bs) = None ->
  8 <= read_size (announced_bytes (Float64.le_word bs))
         {| SimpleMutableFile.content := bs;
            SimpleMutableFile.faults := [] |} ->
  SpecFloat.SFeqb (Float64.of_Z 1) (announced (Float64.le_word bs))
  = false ->
  malformed_metadata 0 (lone_header w).
Proof.
  intros bs Hv Hsize Hcount.
  assert (Hl : length bs = 8%nat) by apply length_le_bytes.
  assert (Hr : SimpleMutableFile.read 8 0 (file (lone_header w))
               = (Ok bs, file (lone_header w))).
  { unfold lone_header, init. cbn [file]. rewrite read_no_fault by done.
    cbn [SimpleMutableFile.content]. rewrite slice_whole; [done|].
    fold bs. lia. }
  apply (table_other _ _ bs); rewrite ?Hr; cbn [fst snd]; try done.
  unfold lone_header, init. cbn [file]. rewrite read_no_fault by done.
  cbn [fst SimpleMutableFile.content]. fold bs.
  rewrite slice_whole by lia.
  unfold other_length. cbn [bind_result].
  rewrite Float64Array_of_buffer_8 by done. exact Hcount.
Qed.

Lemma odd_headers_malformed :
  Forall (fun w => malformed_metadata 0 (lone_header w)) odd_headers.
Proof.
  unfold odd_headers.
  repeat (apply Forall_cons; split); [.. | by apply Forall_nil];
    (apply lone_header_malformed;
     [vm_compute; reflexivity
     | apply Z.leb_le; vm_compute; reflexivity
     | vm_compute; reflexivity]).
Qed.

Lemma load_malformed_is_empty_witness :
  Forall (fun w =>
            malformed_metadata 0 (lone_header w) /\
            exists st', load 0 (lone_header w) = Some (Ok [], st'))
    odd_headers.
Proof.
  eapply Forall_impl; [exact odd_headers_malformed|].
  intros w Hm. split; [exact Hm|].
  destruct (load_malformed_is_empty 0 (lone_header w) eq_refl Hm)
    as (st' & H & _).
  exists st'. exact H.
Defined.

(** C7 as stated fails once a writer exists: a failing read falls
    through to the loop over the table in memory. *)
Lemma load_after_writer_returns_writer :
  malformed_metadata 8 one_writer_failing /\
  exists w st',
    load 8 one_writer_failing = Some (Ok [w], st') /\
    [w] <> @nil Writer.
Proof.
  split; [apply header_absent; exact I|].
  eexists _, _. split; [reflexivity|discriminate].
Qed.

End LoadFallback.

(** ** Random-access backend: reset *)

Section Reset.
Import MutableFileChunkStorage TableSpec.

Lemma truncate_0_no_fault f :
  SimpleMutableFile.faults f = [] ->
  SimpleMutableFile.content (snd (SimpleMutableFile.truncate 0 f)) = [].
Proof.
  intros Hf. unfold SimpleMutableFile.truncate, SimpleMutableFile.request.
  rewrite Hf. reflexivity.
Qed.

Lemma load_persistSentry totalSize st r st' :
  load totalSize st = Some (r, st') -> persistSentry st' = persistSentry st.
Proof.
  unfold load, install, assert. intros H.
  repeat case_match; simplify_eq; reflexivity.
Qed.

(** The sentry only moves forward. *)
Lemma later_persistSentry st st' :
  later st st' -> (persistSentry st <= persistSentry st')%nat.
Proof.
  induction 1 as [st|st st' sp _ IH|st st' data w _ IH|st st' task _ IH
                  |st st' _ IH|st st' position size _ IH
                  |st st' totalSize r st'' _ IH Hl].
  - lia.
  - unfold writer. cbn. by destruct (_ !! _).
  - unfold doWrite, doWrite_begin, doWrite_end.
    repeat case_match; simplify_eq; cbn; try done.
    all: repeat case_match; simplify_eq; cbn; done.
  - unfold persist_body. repeat case_match; cbn; done.
  - cbn. lia.
  - unfold read. by case_match.
  - by rewrite (load_persistSentry _ _ _ _ Hl).
Qed.

(** C4 (as amended).  [reset()] truncates the file to length 0 and
    restores the one-entry table; the body of a [persist] issued before
    the reset and run after it, whatever the storage has done since,
    touches neither the file nor anything else and completes normally. *)
Theorem reset_cancels_persist (st after : t) (totalSize : Z) (final : bool)
    (task : PersistTask) :
  SimpleMutableFile.faults (file st) = [] ->
  persist (Some totalSize) final st = Some task ->
  later (reset st) after ->
  persist_body task after = (Ok tt, after) /\
  SimpleMutableFile.content (file (reset st)) = [] /\
  persistenceData (reset st) = [0].
Proof.
  intros Hf [= <-] Hlater. apply later_persistSentry in Hlater.
  cbn [reset persistSentry] in Hlater.
  unfold persist_body. cbn [task_sentry reset persistSentry].
  replace (persistSentry st =? persistSentry after)%nat with false
    by (symmetry; apply Nat.eqb_neq; lia).
  cbn [negb file persistenceData].
  split; [done|]. split; [by apply truncate_0_no_fault|done].
Qed.

Lemma reset_cancels_persist_witness :
  SimpleMutableFile.faults (file two_writers) = [] /\
  persist_body {| task_sentry := O; task_totalSize := 8;
                  task_final := true |}
    (snd (writer 10 (reset two_writers)))
  = (Ok tt, snd (writer 10 (reset two_writers))).
Proof.
  split; [reflexivity|].
  apply (reset_cancels_persist two_writers
           (snd (writer 10 (reset two_writers))) 8 true);
    [reflexivity | reflexivity | apply later_writer, later_now].
Defined.

(** C4 as stated fails: a writer created before the reset still writes
    its bytes to the file, and its size lands in the slot of a writer
    created after the reset. *)
Lemma stale_writer_still_writes :
  let w := {| startPosition := 0; writtenSize := 3;
              writtenSizeIndex := 2 |} in
  let st := reset two_writers in
  SimpleMutableFile.content (file st) = [] /\
  SimpleMutableFile.content (file (snd (doWrite ["B"%byte] w st)))
  = [x00; x00; x00; "B"%byte] /\
  persistenceData (snd (writer 10 st)) = [2; 10; 0] /\
  persistenceData (snd (doWrite ["B"%byte] w (snd (writer 10 st))))
  = [2; 10; 4].
Proof. repeat split. Qed.

End Reset.

(** ** Both backends: empty writes *)

Section EmptyWrite.

(** C10.  [write(data)] with empty data succeeds and changes nothing:
    no request reaches the file, the writer and the table stay as they
    are (random-access); nothing is buffered (segmented). *)
Theorem empty_write_is_noop
  (w : MutableFileChunkStorage.Writer) (st : MutableFileChunkStorage.t)
  (w' : SegmentedFileChunkStorage.Writer) :
  MutableFileChunkStorage.doWrite_begin [] w st = (None, st) /\
  MutableFileChunkStorage.doWrite [] w st = (Ok tt, w, st) /\
  SegmentedFileChunkStorage.doWrite [] w' = (Ok tt, w').
Proof. repeat split. Qed.

End EmptyWrite.

(** ** Segmented backend: getFile *)

Section GetFile.
Import SegmentedFileChunkStorage SegmentSpec.

#[local] Instance key_le_total : Total SegmentsDatabase.key_le.
Proof.
  intros [[a1 a2] va] [[b1 b2] vb]. unfold SegmentsDatabase.key_le.
  cbn. lia.
Qed.

#[local] Instance key_le_trans : Transitive SegmentsDatabase.key_le.
Proof.
  intros [[a1 a2] va] [[b1 b2] vb] [[c1 c2] vc].
  unfold SegmentsDatabase.key_le. cbn. lia.
Qed.

(** The cursor meets exactly the records stored under the id ... *)
Lemma elem_of_openCursor id0 store k v :
  (k, v) ∈ SegmentsDatabase.openCursor id0 store
  <-> k.1 = id0 /\ store !! k = Some v.
Proof.
  unfold SegmentsDatabase.openCursor.
  rewrite (merge_sort_Permutation _ _), list_elem_of_filter.
  rewrite elem_of_map_to_list. reflexivity.
Qed.

(** ... in the order of their start positions. *)
Lemma openCursor_sorted id0 store :
  StronglySorted (fun a b => a.1.2 <= b.1.2)
  (SegmentsDatabase.openCursor id0 store).
Proof.
  pose proof (StronglySorted_merge_sort SegmentsDatabase.key_le
    (filter (fun kv => kv.1.1 = id0) (map_to_list store))) as Hs.
  fold (SegmentsDatabase.openCursor id0 store) in Hs.
  assert (Hid : Forall (fun kv => kv.1.1 = id0)
                  (SegmentsDatabase.openCursor id0 store)).
  { apply Forall_forall. intros [k v] Hin.
  by apply elem_of_openCursor in Hin as [? _]. }
  induction Hs as [|a l Hs IH Hall]; constructor.
  - apply IH. by inversion Hid.
  - inversion Hid as [|? ? Ha Hl]; subst.
    rewrite Forall_forall in Hall, Hl |- *. intros b Hb.
    specialize (Hall b Hb). specialize (Hl b Hb).
    unfold SegmentsDatabase.key_le in Hall. cbv beta in *.
    destruct a as [[a1 a2] va], b as [[b1 b2] vb]. cbn in *. lia.
Qed.

Lemma segments_sorted st :
  StronglySorted (fun a b => a.1 <= b.1) (segments st).
Proof.
  unfold segments.
  apply (StronglySorted_fmap _ (fun a b => a.1.2 <= b.1.2)).
  - intros a b H. exact H.
  - apply openCursor_sorted.
Qed.

Lemma elem_of_segments st position blob :
  (position, blob) ∈ segments st
  <-> SegmentsDatabase.data (database st) !! (id st, position) = Some blob.
Proof.
  unfold segments. rewrite list_elem_of_fmap. split.
  - intros ([k v] & [= -> ->] & Hin).
    apply elem_of_openCursor in Hin as [<- Hl]. by destruct k.
  - intros H. exists ((id st, position), blob). split; [done|].
    by apply elem_of_openCursor.
Qed.

Lemma total_size_cons p v rest :
  total_size ((p, v) :: rest) = Z.of_nat (length v) + total_size rest.
Proof. unfold total_size. cbn. rewrite length_app. lia. Qed.

Lemma tiles_at_cons n p v rest :
  tiles_at n ((p, v) :: rest)
  <-> p = n /\ tiles_at (n + Z.of_nat (length v)) rest.
Proof.
  unfold tiles_at. split.
  - intros H. split.
    + specialize (H O (p, v) eq_refl). cbn in H. unfold total_size in H.
      cbn in H. lia.
    + intros i seg Hi. specialize (H (S i) seg Hi).
      cbn [take] in H. rewrite total_size_cons in H. lia.
  - intros [-> H] [|i] seg Hi.
    + injection Hi as <-. cbn. unfold total_size. cbn. lia.
    + cbn [take]. rewrite total_size_cons.
      specialize (H i seg Hi). lia.
Qed.

(** The cursor loop ends normally exactly on tiling records, with their
    blobs in order; otherwise its assertion fails. *)
Lemma cursor_loop_spec recs : forall blobs n,
  let segs := (fun kv => (kv.1.2, kv.2)) <$> recs in
  (tiles_at n segs /\
     cursor_loop recs blobs n = Settled (Ok (blobs ++ (snd <$> segs))))
  \/ (~ tiles_at n segs /\
      cursor_loop recs blobs n = Unsettled AssertionError).
Proof.
  induction recs as [|[k v] recs IH]; intros blobs n; cbn zeta.
  - left. split; [intros i seg Hi; done|]. cbn. by rewrite app_nil_r.
  - cbn [fmap list_fmap cursor_loop fst snd].
    destruct (k.2 =? n) eqn:E.
    + apply Z.eqb_eq in E.
      destruct (IH (blobs ++ [v]) (n + Z.of_nat (length v)))
        as [[Ht Hr] | [Ht Hr]]; [left | right]; rewrite Hr.
      * split; [by apply tiles_at_cons|]. by rewrite <- app_assoc.
      * split; [|done]. intros Hc. apply tiles_at_cons in Hc as [_ Hc].
        by apply Ht.
    + apply Z.eqb_neq in E. right. split; [|done].
      intros Hc. apply tiles_at_cons in Hc as [Hc _]. done.
Qed.

(** X23.  The segments of a storage are those stored under its id,
    ordered by start position; when the cursor request is not rejected,
    the promise of [getFile()] settles exactly when they tile from 0, and
    then with their concatenation; when they do not tile, the assertion
    is thrown inside the cursor's listener and the promise never
    settles. *)
Theorem getFile_settles_iff_tiles (st : t) :
  SegmentsDatabase.db_faults (database st) = [] ->
  ((exists r, fst (getFile st) = Settled r) <-> tiles (segments st)) /\
  (tiles (segments st) ->
     fst (getFile st) = Settled (Ok (concat (snd <$> segments st)))) /\
  (~ tiles (segments st) -> fst (getFile st) = Unsettled AssertionError) /\
  StronglySorted (fun a b => a.1 <= b.1) (segments st) /\
  (forall position blob,
      (position, blob) ∈ segments st
      <-> SegmentsDatabase.data (database st) !! (id st, position)
          = Some blob).
Proof.
  intros Hf.
  assert (Hg : fst (getFile st)
               = match
                   cursor_loop
                     (SegmentsDatabase.openCursor (id st)
                        (SegmentsDatabase.data (database st))) [] 0
                 with
                 | Settled r =>
                     Settled (bind_result r (fun blobs => Ok (concat blobs)))
                 | Unsettled e => Unsettled e
                 end).
  { unfold getFile, SegmentsDatabase.transaction. by rewrite Hf. }
  rewrite Hg. unfold tiles, segments.
  destruct (cursor_loop_spec
              (SegmentsDatabase.openCursor (id st)
                 (SegmentsDatabase.data (database st))) [] 0)
    as [[Ht Hr] | [Ht Hr]]; rewrite Hr; cbn [bind_result app].
  - split; [split; eauto|]. split; [done|]. split; [done|].
    split; [apply segments_sorted | apply elem_of_segments].
  - split; [split; [by intros [? ?] | done]|].
    split; [done|]. split; [done|].
    split; [apply segments_sorted | apply elem_of_segments].
Qed.

Lemma getFile_settles_iff_tiles_witness :
  SegmentsDatabase.db_faults (database fresh_storage) = [] /\
  fst (getFile fresh_storage) = Settled (Ok []).
Proof.
  split; [reflexivity|].
  apply (getFile_settles_iff_tiles fresh_storage); [reflexivity|].
  intros i seg H. discriminate H.
Defined.

(** C6.  On a storage whose only segment starts at 100 the segments do
    not tile, and [getFile()] does not fail: its assertion is thrown
    inside the cursor's ['success'] listener, where nothing rejects the
    promise, which never settles. *)
Theorem getFile_gap_never_settles :
  segments gapped_storage = [(100, ["z"%byte])] /\
  ~ tiles (segments gapped_storage) /\
  fst (getFile gapped_storage) = Unsettled AssertionError /\
  (forall e, fst (getFile gapped_storage) <> Settled (Throw e)).
Proof.
  assert (Hs : segments gapped_storage = [(100, ["z"%byte])])
    by (vm_compute; reflexivity).
  split; [exact Hs|]. split.
  - rewrite Hs. intros H. specialize (H O (100, ["z"%byte]) eq_refl).
    discriminate H.
  - assert (Hg : fst (getFile gapped_storage) = Unsettled AssertionError)
      by (vm_compute; reflexivity).
    split; [exact Hg|]. intros e. by rewrite Hg.
Qed.

End GetFile.

(** ** Segmented backend: write and flush *)

Section Flush.
Import SegmentedFileChunkStorage SegmentSpec.

Lemma add_fresh k v db :
  SegmentsDatabase.db_faults db = [] ->
  SegmentsDatabase.data db !! k = None ->
  SegmentsDatabase.add k v db
  = (Ok tt,
     {| SegmentsDatabase.data := <[k := v]> (SegmentsDatabase.data db);
        SegmentsDatabase.recovery := SegmentsDatabase.recovery db;
        SegmentsDatabase.db_faults := [] |}).
Proof.
  intros Hf Hk. unfold SegmentsDatabase.add, SegmentsDatabase.transaction.
  rewrite Hf, Hk. by rewrite Hf.
Qed.

(** What a write leaves in the buffer. *)
Lemma concat_doWrite d w :
  concat (bufferData (doWrite d w).2) = concat (bufferData w) ++ d.
Proof.
  unfold doWrite. destruct (length d =? 0)%nat eqn:E.
  - apply Nat.eqb_eq, nil_length_inv in E. subst d.
    by rewrite app_nil_r.
  - cbn. by rewrite concat_app, (app_nil_r d : concat [d] = d).
Qed.

Lemma fields_doWrite d w :
  startPosition (doWrite d w).2 = startPosition w /\
  w_flushSentry (doWrite d w).2 = w_flushSentry w /\
  writtenSize (doWrite d w).2 = writtenSize w + Z.of_nat (length d) /\
  bufferPosition (doWrite d w).2 = bufferPosition w.
Proof.
  unfold doWrite. destruct (length d =? 0)%nat eqn:E; [|done].
  apply Nat.eqb_eq in E. cbn [snd]. rewrite E. repeat split. lia.
Qed.


Lemma concat_nonempty (cs : list (list byte)) :
  cs <> [] -> Forall (fun c => c <> []) cs -> concat cs <> [].
Proof.
  destruct cs as [|c cs]; [done|]. intros _ H.
  apply Forall_cons in H as [H _]. destruct c; [done|]. done.
Qed.





End Flush.

(** ** Segmented backend: flush after delete *)

Section FlushAfterDelete.
Import SegmentedFileChunkStorage SegmentSpec.

Lemma flushSentry_delete st :
  flushSentry (snd (delete st)) = S (flushSentry st).
Proof.
  unfold delete, static_delete. cbn [id database].
  destruct (SegmentsDatabase.delete_range _ _). reflexivity.
Qed.

Lemma database_doFlush_stale w st :
  w_flushSentry w <> flushSentry st -> doFlush w st = (Ok tt, w, st).
Proof.
  intros H. unfold doFlush.
  by replace (w_flushSentry w =? flushSentry st)%nat with false
    by (symmetry; by apply Nat.eqb_neq).
Qed.

(** The sentry only moves forward. *)
Lemma later_flushSentry st st' :
  later st st' -> (flushSentry st <= flushSentry st')%nat.
Proof.
  induction 1 as [st|st st' w _ IH|st st' _ IH|st st' _ IH|st st' _ IH].
  - lia.
  - unfold doFlush. repeat case_match; simplify_eq; cbn; done.
  - unfold getFile. repeat case_match; simplify_eq; cbn; done.
  - done.
  - rewrite flushSentry_delete. lia.
Qed.

(** C8.  A writer created before [delete()] holds the sentry of its
    creation; its [flush()] run after the delete stores nothing, raises
    nothing and leaves writer and storage as they are; queued on the
    writer, the flush fulfils the promise it returned and dispatches no
    error. *)
Theorem flush_after_delete (created st : t) (w : Writer) :
  w_flushSentry w = flushSentry created ->
  later created st ->
  let st' := snd (delete st) in
  doFlush w st' = (Ok tt, w, st') /\
  segments (snd (doFlush w st')) = segments st' /\
  let q := ChunkStorageWriter.call ChunkStorageWriter.Flush
             (ChunkStorageWriter.create true) in
  let q' := ChunkStorageWriter.drain 4
              (fun _ => settlement_of (fst (fst (doFlush w st'))))
              (snd q) in
  ChunkStorageWriter.quiescent q' /\
  ChunkStorageWriter.trace q'
    = [ChunkStorageWriter.Started 0 ChunkStorageWriter.Flush;
       ChunkStorageWriter.Finished 0 ChunkStorageWriter.Fulfilled] /\
  ChunkStorageWriter.settled <$> ChunkStorageWriter.heap q' !! fst q
    = Some (Some ChunkStorageWriter.Fulfilled) /\
  ChunkStorageWriter.dispatched q' = [].
Proof.
  intros Hw Hlater st'. apply later_flushSentry in Hlater.
  assert (Hno : doFlush w st' = (Ok tt, w, st')).
  { apply database_doFlush_stale. subst st'. rewrite flushSentry_delete.
    lia. }
  rewrite Hno. cbn [fst snd settlement_of].
  split; [done|]. split; [done|]. repeat split.
Qed.

Lemma flush_after_delete_witness :
  w_flushSentry (snd (doWrite ["a"%byte] (writer 0 fresh_storage)))
    = flushSentry fresh_storage
  /\ doFlush (snd (doWrite ["a"%byte] (writer 0 fresh_storage)))
       (snd (delete fresh_storage))
     = (Ok tt, snd (doWrite ["a"%byte] (writer 0 fresh_storage)),
        snd (delete fresh_storage)).
Proof.
  split; [reflexivity|].
  apply (flush_after_delete fresh_storage fresh_storage
           (snd (doWrite ["a"%byte] (writer 0 fresh_storage))));
    [reflexivity | apply later_now].
Defined.

End FlushAfterDelete.


(** ** The writer's task queue *)

Section Queue.
Import ChunkStorageWriter QueueSpec.
Local Open Scope nat_scope.

Ltac inv_fields :=
  constructor;
  cbn [heap jobs this_promise parent submitted running trace dispatched
       dones pend set_jobs set_heap set_this_promise].

Ltac wsimpl :=
  cbn [pend fmap list_fmap node_weight]; unfold list_sum; cbn [foldr].

Lemma models_nil h : models h [].
Proof. intros i p Hin. by apply elem_of_nil in Hin. Qed.

Lemma models_cons h i p cs :
  models h ((i, p) :: cs) <-> h !! i = Some p /\ models h cs.
Proof.
  unfold models. split.
  - intros H. split; [apply H; left|]. intros j q Hj. apply H. by right.
  - intros [H1 H2] j q Hj. apply elem_of_cons in Hj as [[= -> ->]|Hj]; auto.
Qed.

Lemma models_app h cs1 cs2 :
  models h (cs1 ++ cs2) <-> models h cs1 /\ models h cs2.
Proof.
  unfold models. split.
  - intros H. split; intros j q Hj; apply H, elem_of_app; auto.
  - intros [H1 H2] j q Hj. apply elem_of_app in Hj as [Hj|Hj]; auto.
Qed.

Lemma models_alloc h x cs : models h cs -> models (h ++ [x]) cs.
Proof. intros H i p Hin. apply lookup_app_l_Some. by apply H. Qed.

Lemma models_insert h i p cs :
  models h cs -> i ∉ fst <$> cs -> models (<[i := p]> h) cs.
Proof.
  intros H Hni j q Hin. rewrite list_lookup_insert_ne; [by apply H|].
  intros ->. apply Hni. apply list_elem_of_fmap. by exists (j, q).
Qed.

Lemma models_lt h cs i : models h cs -> i ∈ fst <$> cs -> i < length h.
Proof.
  intros H Hin. apply list_elem_of_fmap in Hin as ([j q] & -> & Hin).
  by apply lookup_lt_Some with q, H.
Qed.

Lemma models_fresh h cs : models h cs -> length h ∉ fst <$> cs.
Proof. intros H Hin. apply (models_lt h cs) in Hin; [lia|done]. Qed.

Lemma then_pending p f g st rs :
  heap st !! p = Some (pending rs) ->
  promise_then p f g st
  = (length (heap st),
     set_heap (<[p := pending (rs ++ [Then f g (length (heap st))])]>
                 (heap st ++ [pending []])) st).
Proof.
  intros H. unfold promise_then, alloc. cbn [set_heap heap].
  rewrite (lookup_app_l_Some _ _ _ _ H). reflexivity.
Qed.

Lemma then_settled p f g st s :
  heap st !! p = Some (settled_with s) ->
  promise_then p f g st
  = (length (heap st),
     set_jobs (jobs st ++ [(Then f g (length (heap st)), s)])
       (set_heap (heap st ++ [pending []]) st)).
Proof.
  intros H. unfold promise_then, alloc. cbn [set_heap heap].
  rewrite (lookup_app_l_Some _ _ _ _ H). reflexivity.
Qed.

Lemma settle_pending p s st rs :
  heap st !! p = Some (pending rs) ->
  settle p s st
  = set_jobs (jobs st ++ map (fun r => (r, s)) rs)
      (set_heap (<[p := settled_with s]> (heap st)) st).
Proof. intros H. unfold settle. rewrite H. reflexivity. Qed.

Lemma Inv_create has_parent :
  Inv (create has_parent) {| dones := []; pend := [] |}.
Proof.
  constructor; try done.
  - intros i p Hin. apply list_elem_of_singleton in Hin as [= -> ->]. done.
  - cbn. apply NoDup_singleton.
  - cbn. by destruct has_parent.
Qed.

Lemma good_perm h cs cs' : cs ≡ₚ cs' -> good h cs -> good h cs'.
Proof.
  intros Hp [Hm Hn]. split.
  - intros i p Hin. apply Hm. by rewrite Hp.
  - by rewrite <- Hp.
Qed.

Lemma good_alloc h cs x :
  good h cs -> good (h ++ [x]) ((length h, x) :: cs).
Proof.
  intros [Hm Hn]. split.
  - apply models_cons. split; [|by apply models_alloc].
    rewrite lookup_app_r by lia. by rewrite Nat.sub_diag.
  - cbn. apply NoDup_cons. split; [by apply models_fresh|done].
Qed.

Lemma good_replace h cs i p q :
  good h ((i, p) :: cs) -> good (<[i := q]> h) ((i, q) :: cs).
Proof.
  intros [Hm Hn]. cbn in Hn. apply NoDup_cons in Hn as [Hni Hn].
  apply models_cons in Hm as [Hi Hm]. split.
  - apply models_cons. split; [|by apply models_insert].
    apply list_lookup_insert_eq. by apply lookup_lt_Some with p.
  - cbn. by apply NoDup_cons.
Qed.

Lemma good_lookup h cs i p : good h cs -> (i, p) ∈ cs -> h !! i = Some p.
Proof. intros [Hm _]. apply Hm. Qed.

Lemma chain_snoc l n after :
  chain (l ++ [n]) after
  = chain l [trigger n] ++ [(p_out n, pending after)].
Proof.
  induction l as [|m l IH]; [done|].
  cbn [app chain]. rewrite IH. by destruct l.
Qed.

Lemma head_of_snoc {A B} (f : A -> list B) l x :
  l <> [] -> head_of f (l ++ [x]) = head_of f l.
Proof. by destruct l. Qed.

Lemma a_tail_snoc ds l n :
  a_tail {| dones := ds; pend := l ++ [n] |} = p_out n.
Proof. unfold a_tail. cbn. by rewrite last_snoc. Qed.

Lemma seq_indices (subs : list (nat * (Op * nat))) x :
  fst <$> subs = seq 0 (length subs) ->
  fst <$> (subs ++ [(length subs, x)])
  = seq 0 (length (subs ++ [(length subs, x)])).
Proof.
  intros H. rewrite fmap_app, length_app, H. cbn [length].
  rewrite Nat.add_1_r, seq_S. reflexivity.
Qed.

Lemma Inv_good st a : Inv st a -> good (heap st) (cells a).
Proof.
  intros H. split; [apply (inv_cells _ _ H) | apply (inv_nodup _ _ H)].
Qed.

Lemma length_subs st a : Inv st a -> length (submitted st) = length (a_subs a).
Proof. intros H. by rewrite (inv_submitted _ _ H), length_fmap. Qed.

Lemma d_out_cell d : (d_out d, settled_with Fulfilled) ∈ d_cells d.
Proof. destruct d; cbn; set_solver. Qed.

Lemma tail_cell_done a :
  pend a = [] -> (a_tail a, settled_with Fulfilled) ∈ cells a.
Proof.
  intros Hp. unfold a_tail, cells. rewrite Hp. cbn [last].
  destruct (last (dones a)) as [d|] eqn:El; [|by left].
  right. apply elem_of_app. left. apply list_elem_of_bind.
  exists d. split; [apply d_out_cell|]. by apply last_Some_elem_of.
Qed.

Lemma tail_cell_pending a l m :
  pend a = l ++ [m] ->
  a_tail a = p_out m /\
  cells a ≡ₚ (p_out m, pending [])
             :: (O, settled_with Fulfilled)
             :: (dones a ≫= d_cells) ++ (pend a ≫= own_cells)
                ++ chain l [trigger m].
Proof.
  intros Hp. split.
  - unfold a_tail. by rewrite Hp, last_snoc.
  - unfold cells. rewrite Hp at 2. rewrite chain_snoc. solve_Permutation.
Qed.

Lemma call_settled op st :
  heap st !! this_promise st = Some (settled_with Fulfilled) ->
  let rho := length (heap st) in
  call op st
  = (rho,
     {| heap := <[rho := pending [catch_reaction (S rho)]]>
                  ((heap st ++ [pending []]) ++ [pending []]);
        jobs := jobs st
                ++ [(Then (Some (Fn (length (submitted st)) op)) None rho,
                     Fulfilled)];
        this_promise := S rho;
        parent := parent st;
        submitted := submitted st ++ [(op, rho)];
        running := running st;
        trace := trace st;
        dispatched := dispatched st |}).
Proof.
  intros Ht rho. unfold call, sync. rewrite (then_settled _ _ _ _ _ Ht).
  erewrite then_pending; cycle 1.
  { cbn [heap set_jobs set_heap]. rewrite lookup_app_r by lia.
    by rewrite Nat.sub_diag. }
  cbn [heap set_jobs set_heap set_this_promise fst snd jobs this_promise
       parent submitted running trace dispatched app].
  rewrite length_app. cbn [length]. fold rho.
  replace (rho + 1) with (S rho) by lia. reflexivity.
Qed.

Lemma call_pending op st :
  heap st !! this_promise st = Some (pending []) ->
  let rho := length (heap st) in
  call op st
  = (rho,
     {| heap := <[rho := pending [catch_reaction (S rho)]]>
                  (<[this_promise st :=
                       pending [Then (Some (Fn (length (submitted st)) op))
                                  None rho]]>
                     (heap st ++ [pending []]) ++ [pending []]);
        jobs := jobs st;
        this_promise := S rho;
        parent := parent st;
        submitted := submitted st ++ [(op, rho)];
        running := running st;
        trace := trace st;
        dispatched := dispatched st |}).
Proof.
  intros Ht rho. unfold call, sync. rewrite (then_pending _ _ _ _ _ Ht).
  assert (Hlt : this_promise st < rho) by (by apply lookup_lt_Some in Ht).
  erewrite then_pending; cycle 1.
  { cbn [heap set_heap]. rewrite list_lookup_insert_ne by (fold rho; lia).
    rewrite lookup_app_r by lia. by rewrite Nat.sub_diag. }
  cbn [heap set_jobs set_heap set_this_promise fst snd jobs this_promise
       parent submitted running trace dispatched app].
  rewrite length_insert, length_app. cbn [length]. fold rho.
  replace (rho + 1) with (S rho) by lia. reflexivity.
Qed.

(** A call adds a link at the end of the chain. *)
Lemma step_call op st a :
  Inv st a ->
  exists n,
    Inv (snd (call op st)) {| dones := dones a; pend := pend a ++ [n] |} /\
    node_weight n = 5 /\
    fst (call op st) = length (heap st) /\
    p_sub n = [(length (submitted st), (op, length (heap st)))].
Proof.
  intros HI. pose proof (Inv_good _ _ HI) as Hg.
  pose proof (length_subs _ _ HI) as Hk.
  destruct (pend a) as [|m0 l0] eqn:Ep using rev_ind.
  - (* the chain has settled: the job of the call is queued at once *)
    exists (PCall (length (submitted st)) op (length (heap st))
              (S (length (heap st))) Queued).
    assert (Ht : heap st !! this_promise st = Some (settled_with Fulfilled)).
    { rewrite (inv_tail _ _ HI). eapply good_lookup; [done|].
      by apply tail_cell_done. }
    rewrite (call_settled _ _ Ht). cbn zeta. cbn [fst snd].
    set (k := length (submitted st)) in *.
    set (rho := length (heap st)).
    split; [|done].
    assert (Hgood :
      good (<[rho := pending [catch_reaction (S rho)]]>
              ((heap st ++ [pending []]) ++ [pending []]))
           (cells {| dones := dones a;
                     pend := [] ++ [PCall k op rho (S rho) Queued] |})).
    { apply (good_perm _ ((rho, pending [catch_reaction (S rho)])
                            :: (S rho, pending []) :: cells a)).
      { unfold cells. rewrite Ep. cbn. solve_Permutation. }
      apply good_replace with (pending []).
      eapply good_perm; [apply Permutation_swap|].
      replace (S rho) with (length (heap st ++ [pending []]))
        by (rewrite length_app; cbn; subst rho; lia).
      apply good_alloc. by apply good_alloc. }
    inv_fields.
    + apply Hgood.
    + apply Hgood.
    + cbn. done.
    + rewrite (inv_jobs _ _ HI), Ep. reflexivity.
    + rewrite (inv_running _ _ HI), Ep. reflexivity.
    + rewrite (inv_trace _ _ HI), Ep. reflexivity.
    + apply (inv_dispatched _ _ HI).
    + rewrite (inv_submitted _ _ HI). unfold a_subs. cbn [dones pend].
      rewrite Ep. cbn. rewrite !fmap_app. cbn. by rewrite app_nil_r.
    + pose proof (inv_indices _ _ HI) as Hi. unfold a_subs in *.
      cbn [dones pend]. rewrite Ep in *. cbn in *.
      rewrite app_nil_r in Hi, Hk. rewrite Hk. by apply seq_indices.
    + reflexivity.
  - clear IHl0.
    exists (PCall (length (submitted st)) op (length (heap st))
              (S (length (heap st))) Waiting).
    destruct (tail_cell_pending a l0 m0 Ep) as [Het Hperm].
    assert (Ht : heap st !! this_promise st = Some (pending [])).
    { rewrite (inv_tail _ _ HI), Het. eapply good_lookup; [done|].
      rewrite Hperm. by left. }
    rewrite (call_pending _ _ Ht). cbn zeta. cbn [fst snd].
    set (k := length (submitted st)) in *.
    set (rho := length (heap st)).
    split; [|done].
    assert (Hgood :
      good (<[rho := pending [catch_reaction (S rho)]]>
              (<[this_promise st :=
                   pending [Then (Some (Fn k op)) None rho]]>
                 (heap st ++ [pending []]) ++ [pending []]))
           (cells {| dones := dones a;
                     pend := (l0 ++ [m0])
                             ++ [PCall k op rho (S rho) Waiting] |})).
    { apply (good_perm _
        ((rho, pending [catch_reaction (S rho)])
         :: (S rho, pending [])
         :: (p_out m0, pending [trigger (PCall k op rho (S rho) Waiting)])
         :: (O, settled_with Fulfilled)
         :: (dones a ≫= d_cells) ++ (pend a ≫= own_cells)
            ++ chain l0 [trigger m0])).
      { unfold cells. cbn [dones pend]. rewrite !chain_snoc, Ep, !bind_app.
        cbn. solve_Permutation. }
      apply good_replace with (pending []).
      eapply good_perm; [apply Permutation_swap|].
      replace (S rho) with
        (length (<[this_promise st :=
                     pending [Then (Some (Fn k op)) None rho]]>
                   (heap st ++ [pending []])))
        by (rewrite length_insert, length_app; cbn; subst rho; lia).
      apply good_alloc.
      eapply good_perm; [apply Permutation_swap|].
      rewrite (inv_tail _ _ HI), Het.
      apply good_replace with (pending []).
      eapply good_perm; [apply Permutation_swap|].
      apply good_alloc. eapply good_perm; [exact Hperm|done]. }
    pose proof (inv_shape _ _ HI) as Hsh. unfold shape in Hsh.
    rewrite Ep in Hsh.
    assert (Hne : l0 ++ [m0] <> []) by (by destruct l0).
    inv_fields.
    + apply Hgood.
    + apply Hgood.
    + unfold shape. cbn [pend].
      destruct (l0 ++ [m0]) as [|n ws] eqn:E; [done|].
      cbn [app]. destruct Hsh as [Hn Hws]. split; [done|].
      apply Forall_app_2; [done|]. by repeat constructor.
    + rewrite (inv_jobs _ _ HI), Ep.
      by rewrite (head_of_snoc _ (l0 ++ [m0])).
    + rewrite (inv_running _ _ HI), Ep.
      by rewrite (head_of_snoc _ (l0 ++ [m0])).
    + rewrite (inv_trace _ _ HI), Ep.
      by rewrite (head_of_snoc _ (l0 ++ [m0])).
    + apply (inv_dispatched _ _ HI).
    + rewrite (inv_submitted _ _ HI). unfold a_subs. cbn [dones pend].
      rewrite Ep, !bind_app. cbn. rewrite !fmap_app, <- !app_assoc.
      reflexivity.
    + pose proof (inv_indices _ _ HI) as Hi. unfold a_subs in *.
      cbn [dones pend]. rewrite Ep in *. rewrite bind_app. cbn.
      rewrite app_assoc. rewrite Hk. by apply seq_indices.
    + by rewrite a_tail_snoc.
Qed.

(** Under the invariant at most one job is queued. *)
Lemma jobs_head st a i j :
  Inv st a -> jobs st !! i = Some j ->
  exists n ws, pend a = n :: ws /\ node_jobs n = [j] /\ i = 0
               /\ delete i (jobs st) = [].
Proof.
  intros HI Hj. rewrite (inv_jobs _ _ HI) in Hj |- *.
  destruct (pend a) as [|n ws]; [done|]. exists n, ws. cbn in *.
  destruct n as [k op rho c [| |r|r s|r s]|h [|]]; cbn in *;
    destruct i; try done; injection Hj as <-; done.
Qed.

Lemma running_head st a i k r :
  Inv st a -> running st !! i = Some (k, r) ->
  exists op rho c ws,
    pend a = PCall k op rho c (Running r) :: ws /\ i = 0
    /\ delete i (running st) = [].
Proof.
  intros HI Hj. rewrite (inv_running _ _ HI) in Hj |- *.
  destruct (pend a) as [|n ws]; [done|]. cbn in *.
  destruct n as [k' op rho c [| |r'|r' s|r' s]|h [|]]; cbn in *;
    destruct i; try done; injection Hj as <- <-. by exists op, rho, c, ws.
Qed.

(** The job of a call starts its operation. *)
Lemma step_start st a k op rho c ws :
  Inv st a ->
  pend a = PCall k op rho c Queued :: ws ->
  Inv (run_job (Then (Some (Fn k op)) None rho, Fulfilled)
         (set_jobs [] st))
      {| dones := dones a;
         pend := PCall k op rho c (Running (length (heap st))) :: ws |}.
Proof.
  intros HI Ep. pose proof (Inv_good _ _ HI) as Hg.
  cbn [run_job run_handler alloc set_jobs set_heap heap jobs this_promise
       parent submitted running trace dispatched].
  set (r := length (heap st)).
  assert (Hgood :
    good (<[r := pending [Follow rho]]> (heap st ++ [pending []]))
         (cells {| dones := dones a;
                   pend := PCall k op rho c (Running r) :: ws |})).
  { apply (good_perm _ ((r, pending [Follow rho]) :: cells a)).
    { unfold cells. rewrite Ep. cbn. solve_Permutation. }
    apply good_replace with (pending []). by apply good_alloc. }
  pose proof (inv_shape _ _ HI) as Hsh. unfold shape in Hsh.
  rewrite Ep in Hsh.
  inv_fields.
  - apply Hgood.
  - apply Hgood.
  - unfold shape. cbn. by destruct Hsh.
  - reflexivity.
  - rewrite (inv_running _ _ HI), Ep. reflexivity.
  - rewrite (inv_trace _ _ HI), Ep. cbn. by rewrite app_nil_r.
  - apply (inv_dispatched _ _ HI).
  - rewrite (inv_submitted _ _ HI). unfold a_subs. by rewrite Ep.
  - pose proof (inv_indices _ _ HI) as Hi. unfold a_subs in *.
    by rewrite Ep in Hi.
  - rewrite (inv_tail _ _ HI). unfold a_tail. rewrite Ep. cbn [pend].
    by destruct ws.
Qed.

(** The end of the operation settles its promise. *)
Lemma step_complete st a k op rho c r ws s :
  Inv st a ->
  pend a = PCall k op rho c (Running r) :: ws ->
  Inv (settle r s
         {| heap := heap st; jobs := jobs st;
            this_promise := this_promise st; parent := parent st;
            submitted := submitted st; running := [];
            trace := trace st ++ [Finished k s];
            dispatched := dispatched st |})
      {| dones := dones a; pend := PCall k op rho c (Finishing r s) :: ws |}.
Proof.
  intros HI Ep. pose proof (Inv_good _ _ HI) as Hg.
  assert (Hr : heap st !! r = Some (pending [Follow rho])).
  { eapply good_lookup; [done|]. unfold cells. rewrite Ep. cbn. set_solver. }
  rewrite (settle_pending _ _ _ [Follow rho]) by done.
  cbn [set_jobs set_heap heap jobs this_promise parent submitted running
       trace dispatched map].
  assert (Hgood :
    good (<[r := settled_with s]> (heap st))
         (cells {| dones := dones a;
                   pend := PCall k op rho c (Finishing r s) :: ws |})).
  { apply (good_perm _
      ((r, settled_with s)
       :: (O, settled_with Fulfilled)
       :: (dones a ≫= d_cells)
          ++ ((rho, pending [catch_reaction c]) :: (ws ≫= own_cells))
          ++ chain (PCall k op rho c (Running r) :: ws) [])).
    { unfold cells. cbn. solve_Permutation. }
    apply good_replace with (pending [Follow rho]).
    eapply good_perm; [|exact Hg].
    unfold cells. rewrite Ep. cbn. solve_Permutation. }
  pose proof (inv_shape _ _ HI) as Hsh. unfold shape in Hsh.
  rewrite Ep in Hsh.
  inv_fields.
  - apply Hgood.
  - apply Hgood.
  - unfold shape. cbn. by destruct Hsh.
  - rewrite (inv_jobs _ _ HI), Ep. reflexivity.
  - reflexivity.
  - rewrite (inv_trace _ _ HI), Ep. cbn. by rewrite <- app_assoc.
  - apply (inv_dispatched _ _ HI).
  - rewrite (inv_submitted _ _ HI). unfold a_subs. by rewrite Ep.
  - pose proof (inv_indices _ _ HI) as Hi. unfold a_subs in *.
    by rewrite Ep in Hi.
  - rewrite (inv_tail _ _ HI). unfold a_tail. rewrite Ep. cbn [pend].
    by destruct ws.
Qed.

(** The promise returned by the call follows the operation's. *)
Lemma step_follow st a k op rho c r ws s :
  Inv st a ->
  pend a = PCall k op rho c (Finishing r s) :: ws ->
  Inv (run_job (Follow rho, s) (set_jobs [] st))
      {| dones := dones a; pend := PCall k op rho c (Catching r s) :: ws |}.
Proof.
  intros HI Ep. pose proof (Inv_good _ _ HI) as Hg.
  assert (Hr : heap st !! rho = Some (pending [catch_reaction c])).
  { eapply good_lookup; [done|]. unfold cells. rewrite Ep. cbn. set_solver. }
  cbn [run_job].
  rewrite (settle_pending _ _ _ [catch_reaction c]) by done.
  cbn [set_jobs set_heap heap jobs this_promise parent submitted running
       trace dispatched map app].
  assert (Hgood :
    good (<[rho := settled_with s]> (heap st))
         (cells {| dones := dones a;
                   pend := PCall k op rho c (Catching r s) :: ws |})).
  { apply (good_perm _
      ((rho, settled_with s)
       :: (O, settled_with Fulfilled)
       :: (dones a ≫= d_cells)
          ++ ((r, settled_with s) :: (ws ≫= own_cells))
          ++ chain (PCall k op rho c (Running r) :: ws) [])).
    { unfold cells. cbn. solve_Permutation. }
    apply good_replace with (pending [catch_reaction c]).
    eapply good_perm; [|exact Hg].
    unfold cells. rewrite Ep. cbn. solve_Permutation. }
  pose proof (inv_shape _ _ HI) as Hsh. unfold shape in Hsh.
  rewrite Ep in Hsh.
  inv_fields.
  - apply Hgood.
  - apply Hgood.
  - unfold shape. cbn. by destruct Hsh.
  - reflexivity.
  - rewrite (inv_running _ _ HI), Ep. reflexivity.
  - rewrite (inv_trace _ _ HI), Ep. reflexivity.
  - apply (inv_dispatched _ _ HI).
  - rewrite (inv_submitted _ _ HI). unfold a_subs. by rewrite Ep.
  - pose proof (inv_indices _ _ HI) as Hi. unfold a_subs in *.
    by rewrite Ep in Hi.
  - rewrite (inv_tail _ _ HI). unfold a_tail. rewrite Ep. cbn [pend].
    by destruct ws.
Qed.

Lemma wake_facts w :
  is_waiting w = true ->
  own_cells (wake w) = own_cells w /\ p_out (wake w) = p_out w /\
  trigger (wake w) = trigger w /\
  node_jobs (wake w) = [(trigger w, Fulfilled)] /\
  node_running (wake w) = [] /\ node_events (wake w) = [] /\
  p_sub (wake w) = p_sub w /\ is_waiting (wake w) = false /\
  node_weight (wake w) = node_weight w.
Proof.
  destruct w as [k op rho c [| |r|r s|r s]|h [|]]; cbn; try done.
Qed.

Lemma cells_wake_head ds ws :
  Forall (fun w => is_waiting w = true) ws ->
  cells {| dones := ds; pend := wake_head ws |}
  = cells {| dones := ds; pend := ws |}.
Proof.
  intros Hw. destruct ws as [|w ws]; [done|].
  inversion Hw as [|? ? Hw1 Hw2]; subst.
  destruct (wake_facts w Hw1) as (Ho & Hp & _).
  unfold cells. cbn. by rewrite Ho, Hp.
Qed.

(** Settling the last promise of the first link retires it and wakes the
    next one. *)
Lemma good_retire h ds n ws d :
  retire n = Some d ->
  Forall (fun w => is_waiting w = true) ws ->
  good h (cells {| dones := ds; pend := n :: ws |}) ->
  h !! p_out n = Some (pending (trig ws)) /\
  good (<[p_out n := settled_with Fulfilled]> h)
       (cells {| dones := ds ++ [d]; pend := wake_head ws |}).
Proof.
  intros Hr Hw Hg. split.
  - eapply good_lookup; [done|]. unfold cells. cbn.
    destruct ws; set_solver.
  - rewrite cells_wake_head by done.
    apply (good_perm _
      ((p_out n, settled_with Fulfilled)
       :: (O, settled_with Fulfilled)
       :: (ds ≫= d_cells) ++ own_cells n ++ (ws ≫= own_cells)
          ++ chain ws [])).
    { unfold cells. cbn [dones pend]. rewrite bind_app.
      destruct n as [k op rho c [| |r|r s|r s]|x [|]]; try done;
        injection Hr as <-; cbn; solve_Permutation. }
    apply good_replace with (pending (trig ws)).
    eapply good_perm; [|exact Hg].
    unfold cells. cbn. destruct ws; solve_Permutation.
Qed.

Lemma last_wake_head ws n :
  Forall (fun w => is_waiting w = true) ws ->
  last ws = Some n -> exists n', last (wake_head ws) = Some n'
                                 /\ p_out n' = p_out n.
Proof.
  intros Hw Hl. destruct ws as [|w ws]; [done|].
  inversion Hw as [|? ? Hw1 Hw2]; subst.
  destruct ws as [|w' ws]; cbn in *.
  - injection Hl as <-. exists (wake w). split; [done|].
    by apply wake_facts.
  - exists n. done.
Qed.

Lemma shadow_retire ds n ws d :
  retire n = Some d ->
  Forall (fun w => is_waiting w = true) ws ->
  let a := {| dones := ds; pend := n :: ws |} in
  let a' := {| dones := ds ++ [d]; pend := wake_head ws |} in
  head_of node_jobs (pend a') = map (fun r => (r, Fulfilled)) (trig ws) /\
  head_of node_running (pend a') = [] /\
  (dones a' ≫= d_events) ++ head_of node_events (pend a')
    = (ds ≫= d_events) ++ node_events n /\
  a_subs a' = a_subs a /\
  a_tail a' = a_tail a /\
  shape a' /\
  weight a' < weight a /\
  dones a' ≫= d_errors = (ds ≫= d_errors) ++ d_errors d.
Proof.
  intros Hr Hw a a'. subst a a'. cbn [dones pend].
  assert (Hd : d_events d = node_events n /\ d_sub d = p_sub n
               /\ d_out d = p_out n /\ 0 < node_weight n).
  { destruct n as [k op rho c [| |r|r s|r s]|x [|]]; try done;
      injection Hr as <-; cbn; repeat split; lia. }
  destruct Hd as (He & Hs & Ho & Hwt).
  rewrite !bind_app. cbn [mbind list_bind]. rewrite !app_nil_r.
  unfold a_subs, a_tail, shape, weight. cbn [dones pend].
  rewrite !bind_app. cbn [mbind list_bind]. rewrite !app_nil_r.
  rewrite He, Hs, last_snoc, Ho.
  destruct ws as [|w ws].
  - cbn. rewrite !app_nil_r. repeat split; try done. lia.
  - inversion Hw as [|? ? Hw1 Hw2]; subst.
    destruct (wake_facts w Hw1) as (_ & Hp & Ht & Hj & Hrun & Hev & Hsub
                                    & Hnw & Hwe).
    cbn [wake_head head_of trig map].
    rewrite Hj, Hrun, Hev, app_nil_r.
    repeat split; try done.
    + cbn. by rewrite Hsub, <- !app_assoc.
    + destruct ws as [|w' ws]; simpl; [by rewrite Hp|].
      destruct (last (w' :: ws)) eqn:El; [done|].
      by apply last_None in El.
    + cbn. rewrite Hwe. lia.
Qed.

Lemma step_retire st ds n ws d :
  retire n = Some d ->
  Forall (fun w => is_waiting w = true) ws ->
  let a := {| dones := ds; pend := n :: ws |} in
  good (heap st) (cells a) ->
  jobs st = [] ->
  running st = [] ->
  trace st = (ds ≫= d_events) ++ node_events n ->
  dispatched st
    = (if parent st then (ds ≫= d_errors) ++ d_errors d else []) ->
  submitted st = snd <$> a_subs a ->
  fst <$> a_subs a = seq 0 (length (a_subs a)) ->
  this_promise st = a_tail a ->
  Inv (settle (p_out n) Fulfilled st)
      {| dones := ds ++ [d]; pend := wake_head ws |}.
Proof.
  intros Hr Hw a Hg Hj Hrun Htr Hdis Hsub Hidx Htail.
  destruct (good_retire _ _ _ _ _ Hr Hw Hg) as [Hl Hgood].
  destruct (shadow_retire ds n ws d Hr Hw)
    as (Sj & Sr & St & Ss & Sta & Ssh & _ & Se).
  cbn [dones pend] in Sj, Sr, St, Se.
  rewrite (settle_pending _ _ _ _ Hl). inv_fields.
  - apply Hgood.
  - apply Hgood.
  - exact Ssh.
  - rewrite Hj. cbn [app]. by rewrite Sj.
  - by rewrite Sr.
  - by rewrite St.
  - by rewrite Se.
  - by rewrite Ss.
  - by rewrite Ss.
  - by rewrite Sta.
Qed.

(** The catch job of a call that succeeded passes the result on. *)
Lemma step_caught_fulfilled st a k op rho c r ws :
  Inv st a ->
  pend a = PCall k op rho c (Catching r Fulfilled) :: ws ->
  Inv (run_job (catch_reaction c, Fulfilled) (set_jobs [] st))
      {| dones := dones a ++ [DCall k op rho c r Fulfilled];
         pend := wake_head ws |}.
Proof.
  intros HI Ep. pose proof (inv_shape _ _ HI) as Hsh. unfold shape in Hsh.
  rewrite Ep in Hsh. destruct Hsh as [_ Hw].
  change (run_job (catch_reaction c, Fulfilled) (set_jobs [] st))
    with (settle (p_out (PCall k op rho c (Catching r Fulfilled))) Fulfilled
            (set_jobs [] st)).
  apply step_retire; cbn [set_jobs heap jobs running trace dispatched parent
                          submitted this_promise d_errors]; try done.
  - rewrite <- Ep. destruct a. by apply Inv_good.
  - rewrite (inv_running _ _ HI), Ep. reflexivity.
  - rewrite (inv_trace _ _ HI), Ep. reflexivity.
  - rewrite app_nil_r. apply (inv_dispatched _ _ HI).
  - rewrite (inv_submitted _ _ HI). unfold a_subs. by rewrite Ep.
  - pose proof (inv_indices _ _ HI) as Hi. unfold a_subs in *.
    by rewrite Ep in Hi.
  - rewrite (inv_tail _ _ HI). unfold a_tail. by rewrite Ep.
Qed.

(** The job of a healing [then] settles its promise. *)
Lemma step_heal st a h ws :
  Inv st a ->
  pend a = PHeal h true :: ws ->
  Inv (run_job (Then (Some Noop) (Some Noop) h, Fulfilled) (set_jobs [] st))
      {| dones := dones a ++ [DHeal h]; pend := wake_head ws |}.
Proof.
  intros HI Ep. pose proof (inv_shape _ _ HI) as Hsh. unfold shape in Hsh.
  rewrite Ep in Hsh. destruct Hsh as [_ Hw].
  change (run_job (Then (Some Noop) (Some Noop) h, Fulfilled)
            (set_jobs [] st))
    with (settle (p_out (PHeal h true)) Fulfilled (set_jobs [] st)).
  apply step_retire; cbn [set_jobs heap jobs running trace dispatched parent
                          submitted this_promise d_errors]; try done.
  - rewrite <- Ep. destruct a. by apply Inv_good.
  - rewrite (inv_running _ _ HI), Ep. reflexivity.
  - rewrite (inv_trace _ _ HI), Ep. reflexivity.
  - rewrite app_nil_r. apply (inv_dispatched _ _ HI).
  - rewrite (inv_submitted _ _ HI). unfold a_subs. by rewrite Ep.
  - pose proof (inv_indices _ _ HI) as Hi. unfold a_subs in *.
    by rewrite Ep in Hi.
  - rewrite (inv_tail _ _ HI). unfold a_tail. by rewrite Ep.
Qed.

(** The catch job of a call that failed: the handler chains a healing
    [then] to the end of the chain and dispatches the error. *)
Lemma step_caught_rejected st a k op rho c r ws e :
  Inv st a ->
  pend a = PCall k op rho c (Catching r (Rejected e)) :: ws ->
  Inv (run_job (catch_reaction c, Rejected e) (set_jobs [] st))
      {| dones := dones a ++ [DCall k op rho c r (Rejected e)];
         pend := wake_head (ws ++ [PHeal (length (heap st)) false]) |}.
Proof.
  intros HI Ep. pose proof (Inv_good _ _ HI) as Hg.
  pose proof (inv_shape _ _ HI) as Hsh. unfold shape in Hsh.
  rewrite Ep in Hsh. destruct Hsh as [_ Hw].
  set (n := PCall k op rho c (Catching r (Rejected e))) in *.
  set (h := length (heap st)).
  destruct (exists_last (l := n :: ws) ltac:(done)) as (l0 & m0 & El).
  rewrite El in Ep.
  destruct (tail_cell_pending a l0 m0 Ep) as [Het Hperm].
  assert (Ht : heap st !! this_promise st = Some (pending [])).
  { rewrite (inv_tail _ _ HI), Het. eapply good_lookup; [done|].
    rewrite Hperm. by left. }
  cbn [run_job catch_reaction run_handler].
  rewrite (then_pending _ _ _ (set_jobs [] st) []) by done.
  cbn [set_jobs set_heap set_this_promise heap jobs this_promise parent
       submitted running trace dispatched app].
  fold h.
  change c with (p_out n).
  apply step_retire; cbn [set_jobs heap jobs running trace dispatched parent
                          submitted this_promise d_errors]; try done.
  - apply Forall_app_2; [done|]. by repeat constructor.
  - apply (good_perm _
      ((p_out m0, pending [Then (Some Noop) (Some Noop) h])
       :: (h, pending [])
       :: (O, settled_with Fulfilled)
       :: (dones a ≫= d_cells) ++ (pend a ≫= own_cells)
          ++ chain l0 [trigger m0])).
    { unfold cells. cbn [dones pend].
      change (n :: ws ++ [PHeal h false])
        with ((n :: ws) ++ [PHeal h false]).
      rewrite El, !chain_snoc, Ep, !bind_app. cbn. solve_Permutation. }
    rewrite (inv_tail _ _ HI), Het.
    apply good_replace with (pending []).
    eapply good_perm; [apply Permutation_swap|].
    apply good_alloc. eapply good_perm; [exact Hperm|done].
  - rewrite (inv_running _ _ HI), Ep, <- El. reflexivity.
  - rewrite (inv_trace _ _ HI), Ep, <- El. reflexivity.
  - rewrite (inv_dispatched _ _ HI). by destruct (parent st).
  - rewrite (inv_submitted _ _ HI). unfold a_subs. cbn [dones pend].
    rewrite Ep, <- El.
    change (n :: ws ++ [PHeal h false])
      with ((n :: ws) ++ [PHeal h false]).
    rewrite (bind_app _ (n :: ws)). cbn. by rewrite app_nil_r.
  - pose proof (inv_indices _ _ HI) as Hi. unfold a_subs in *.
    cbn [dones pend]. rewrite Ep, <- El in Hi.
    change (n :: ws ++ [PHeal h false])
      with ((n :: ws) ++ [PHeal h false]).
    rewrite (bind_app _ (n :: ws)). cbn. by rewrite app_nil_r.
  - unfold a_tail. cbn [pend].
    change (n :: ws ++ [PHeal h false])
      with ((n :: ws) ++ [PHeal h false]).
    by rewrite last_snoc.
Qed.

Lemma weight_wake_head ws :
  Forall (fun w => is_waiting w = true) ws ->
  list_sum (node_weight <$> wake_head ws) = list_sum (node_weight <$> ws).
Proof.
  intros Hw. destruct ws as [|w ws]; [done|].
  inversion Hw as [|? ? Hw1 Hw2]; subst. cbn.
  destruct (wake_facts w Hw1) as (_ & _ & _ & _ & _ & _ & _ & _ & ->). done.
Qed.

(** Every step of the host keeps the invariant; a job or the end of an
    operation uses up some of the work left. *)
Lemma Inv_step act st st' a :
  Inv st a -> step act st = Some st' ->
  exists a',
    Inv st' a' /\
    match act with Call _ => True | _ => weight a' < weight a end.
Proof.
  intros HI Hstep. destruct act as [op|i|i s]; cbn [step] in Hstep.
  - injection Hstep as <-. destruct (step_call op st a HI) as (n & Hn & _).
    eauto.
  - destruct (jobs st !! i) as [j|] eqn:Ej; [|done]. injection Hstep as <-.
    destruct (jobs_head _ _ _ _ HI Ej) as (n & ws & Ep & Hj & -> & ->).
    pose proof (inv_shape _ _ HI) as Hsh. unfold shape in Hsh.
    rewrite Ep in Hsh. destruct Hsh as [_ Hw].
    unfold weight. rewrite Ep.
    destruct n as [k op rho c [| |r|r s|r [|e]]|h [|]]; try done;
      cbn in Hj; injection Hj as <-.
    + eexists. split; [by apply step_start|]. wsimpl. lia.
    + eexists. split; [by apply step_follow|]. wsimpl. lia.
    + eexists. split; [by apply step_caught_fulfilled|]. cbn [pend].
      rewrite weight_wake_head by done. wsimpl. lia.
    + eexists. split; [by apply step_caught_rejected|]. cbn [pend].
      rewrite weight_wake_head
        by (apply Forall_app_2; [done|by repeat constructor]).
      rewrite fmap_app, list_sum_app. wsimpl. lia.
    + eexists. split; [by apply step_heal|]. cbn [pend].
      rewrite weight_wake_head by done. wsimpl. lia.
  - destruct (running st !! i) as [[k r]|] eqn:Er; [|done].
    injection Hstep as <-.
    destruct (running_head _ _ _ _ _ HI Er)
      as (op & rho & c & ws & Ep & -> & ->).
    eexists. split; [by apply step_complete|].
    unfold weight. rewrite Ep. wsimpl. lia.
Qed.

Lemma Inv_exec acts : forall st st' a,
  Inv st a -> exec acts st = Some st' -> exists a', Inv st' a'.
Proof.
  induction acts as [|act acts IH]; intros st st' a HI He; cbn in He.
  - injection He as <-. eauto.
  - destruct (step act st) as [st1|] eqn:Es; [|done].
    destruct (Inv_step _ _ _ _ HI Es) as (a1 & HI1 & _). eauto.
Qed.

Lemma Inv_reachable has_parent acts st :
  exec acts (create has_parent) = Some st -> exists a, Inv st a.
Proof.
  apply Inv_exec with (a := {| dones := []; pend := [] |}), Inv_create.
Qed.

(** *** What the invariant says about the trace *)

Lemma subs_lookup (subs : list (nat * (Op * nat))) k x :
  fst <$> subs = seq 0 (length subs) ->
  (k, x) ∈ subs <-> subs !! k = Some (k, x).
Proof.
  intros Hi. split.
  - intros Hin. apply list_elem_of_lookup in Hin as [i Hl].
    assert (Hk : (fst <$> subs) !! i = Some k)
      by (by rewrite list_lookup_fmap, Hl).
    rewrite Hi in Hk. apply lookup_seq in Hk as [-> _]. done.
  - intros Hl. by apply list_elem_of_lookup_2 in Hl.
Qed.

Lemma in_order_dones ops ds : forall next tl,
  fst <$> (ds ≫= d_sub) = seq next (length (ds ≫= d_sub)) ->
  (forall k op rho, (k, (op, rho)) ∈ ds ≫= d_sub -> ops !! k = Some op) ->
  in_order ops (next + length (ds ≫= d_sub)) tl ->
  in_order ops next ((ds ≫= d_events) ++ tl).
Proof.
  induction ds as [|d ds IH]; intros next tl Hi Hops Htl.
  - cbn in *. by rewrite Nat.add_0_r in Htl.
  - destruct d as [k op rho c r s|h]; cbn in *.
    + injection Hi as -> Hi. split; [done|].
      split; [apply (Hops _ _ rho); by left|]. split; [done|].
      apply IH; [done| |].
      * intros k' op' rho' Hin. apply (Hops _ _ rho'). by right.
      * by replace (S next + length (ds ≫= d_sub))
          with (next + S (length (ds ≫= d_sub))) by lia.
    + by apply IH.
Qed.

Lemma Inv_ops_lookup st a k op rho :
  Inv st a -> (k, (op, rho)) ∈ a_subs a ->
  submitted st !! k = Some (op, rho)
  /\ (fst <$> submitted st) !! k = Some op.
Proof.
  intros HI Hin.
  apply (subs_lookup _ _ _ (inv_indices _ _ HI)) in Hin.
  rewrite (inv_submitted _ _ HI), !list_lookup_fmap, Hin. done.
Qed.

(** The operations start and finish one at a time, in call order. *)
Lemma Inv_in_order st a :
  Inv st a -> in_order (fst <$> submitted st) 0 (trace st).
Proof.
  intros HI. rewrite (inv_trace _ _ HI).
  pose proof (inv_indices _ _ HI) as Hi. unfold a_subs in Hi.
  rewrite fmap_app, length_app, seq_app in Hi.
  apply app_inj_1 in Hi as [Hi1 Hi2]; [|by rewrite length_fmap, length_seq].
  apply in_order_dones; [done| |].
  - intros k op rho Hin. eapply Inv_ops_lookup; [done|].
    unfold a_subs. apply elem_of_app. by left.
  - cbn [Nat.add] in *.
    destruct (pend a) as [|n ws] eqn:Ep; [done|].
    assert (Hn : forall k op rho, p_sub n = [(k, (op, rho))] ->
                 k = length (dones a ≫= d_sub)
                 /\ (fst <$> submitted st) !! k = Some op).
    { intros k op rho Hs. cbn in Hi2. rewrite Hs in Hi2. cbn in Hi2.
      injection Hi2 as -> _. split; [done|].
      eapply Inv_ops_lookup; [done|]. unfold a_subs. rewrite Ep.
      apply elem_of_app. right. cbn. rewrite Hs. by left. }
    destruct n as [k op rho c [| |r|r s|r s]|h [|]]; cbn; try done;
      destruct (Hn k op rho eq_refl) as [-> Hop]; done.
Qed.

Lemma Inv_subs_cases st a k op rho :
  Inv st a -> submitted st !! k = Some (op, rho) ->
  (exists c r s, DCall k op rho c r s ∈ dones a)
  \/ (exists c ph, PCall k op rho c ph ∈ pend a).
Proof.
  intros HI Hl. rewrite (inv_submitted _ _ HI), list_lookup_fmap in Hl.
  destruct (a_subs a !! k) as [[k' x]|] eqn:El; [|done].
  injection Hl as ->.
  assert (Hin : (k', (op, rho)) ∈ a_subs a)
    by (by apply list_elem_of_lookup_2 in El).
  apply (subs_lookup _ _ _ (inv_indices _ _ HI)) in Hin as Hl'.
  assert (k' = k) as ->.
  { apply lookup_lt_Some in El as Hlt.
    assert (Hk : (fst <$> a_subs a) !! k = Some k').
    { by rewrite list_lookup_fmap, El. }
    rewrite (inv_indices _ _ HI) in Hk. by apply lookup_seq in Hk as [-> _]. }
  unfold a_subs in Hin. apply elem_of_app in Hin as [Hin|Hin];
    apply list_elem_of_bind in Hin as (x & Hx & Hin).
  - left. destruct x as [k0 op0 rho0 c r s|h]; cbn in Hx; [|set_solver].
    apply list_elem_of_singleton in Hx as [= <- <- <-]. eauto.
  - right. destruct x as [k0 op0 rho0 c ph|h q]; cbn in Hx; [|set_solver].
    apply list_elem_of_singleton in Hx as [= <- <- <-]. eauto.
Qed.

Lemma done_call_facts st a k op rho c r s :
  Inv st a -> DCall k op rho c r s ∈ dones a ->
  heap st !! rho = Some (settled_with s)
  /\ Started k op ∈ trace st /\ Finished k s ∈ trace st.
Proof.
  intros HI Hin. split; [|split].
  - apply (inv_cells _ _ HI). unfold cells. right. apply elem_of_app. left.
    apply list_elem_of_bind. eexists. split; [|done]. by left.
  - rewrite (inv_trace _ _ HI). apply elem_of_app. left.
    apply list_elem_of_bind. eexists. split; [|done]. by left.
  - rewrite (inv_trace _ _ HI). apply elem_of_app. left.
    apply list_elem_of_bind. eexists. split; [|done]. right. by left.
Qed.


(** With nothing queued and nothing running, every link has settled. *)
Lemma Inv_quiescent st a : Inv st a -> quiescent st -> pend a = [].
Proof.
  intros HI [Hj Hr]. rewrite (inv_jobs _ _ HI) in Hj.
  rewrite (inv_running _ _ HI) in Hr.
  pose proof (inv_shape _ _ HI) as Hsh. unfold shape in Hsh.
  destruct (pend a) as [|n ws]; [done|]. destruct Hsh as [Hn _].
  by destruct n as [k op rho c [| |r|r s|r s]|h [|]].
Qed.

Lemma Inv_settled st a k op rho :
  Inv st a -> pend a = [] ->
  submitted st !! k = Some (op, rho) ->
  exists s, heap st !! rho = Some (settled_with s)
            /\ Started k op ∈ trace st /\ Finished k s ∈ trace st.
Proof.
  intros HI Ep Hl.
  destruct (Inv_subs_cases _ _ _ _ _ HI Hl)
    as [(c & r & s' & Hin)|(c & ph & Hin)].
  - exists s'. by eapply done_call_facts.
  - rewrite Ep in Hin. set_solver.
Qed.

Lemma rejections_app tr1 tr2 :
  rejections (tr1 ++ tr2) = rejections tr1 ++ rejections tr2.
Proof.
  induction tr1 as [|[k op|k [|e]] tr1 IH]; cbn; [done..|]. by rewrite IH.
Qed.

Lemma rejections_dones ds :
  rejections (ds ≫= d_events) = ds ≫= d_errors.
Proof.
  induction ds as [|[k op rho c r [|e]|h] ds IH]; cbn; [done..| |done].
  by rewrite IH.
Qed.

(** The errors dispatched are those of the failed operations, in order,
    but for one whose catch job has not run yet. *)
Lemma Inv_dispatched st a :
  Inv st a -> parent st = true ->
  exists late,
    rejections (trace st) = dispatched st ++ late /\ length late <= 1
    /\ (pend a = [] -> late = []).
Proof.
  intros HI Hp. rewrite (inv_trace _ _ HI), (inv_dispatched _ _ HI), Hp.
  rewrite rejections_app, rejections_dones.
  exists (rejections (head_of node_events (pend a))).
  split; [done|]. destruct (pend a) as [|n ws]; [cbn; split; [lia|done]|].
  split; [|done].
  destruct n as [k op rho c [| |r|r [|e]|r [|e]]|h [|]]; cbn; lia.
Qed.

(** *** What a step leaves alone *)

Lemma settle_frame p s st :
  parent (settle p s st) = parent st
  /\ submitted (settle p s st) = submitted st
  /\ trace (settle p s st) = trace st
  /\ dispatched (settle p s st) = dispatched st.
Proof.
  unfold settle. destruct (heap st !! p) as [[[s'|] rs]|]; done.
Qed.

Lemma then_frame p f g st :
  parent (snd (promise_then p f g st)) = parent st
  /\ submitted (snd (promise_then p f g st)) = submitted st
  /\ trace (snd (promise_then p f g st)) = trace st
  /\ dispatched (snd (promise_then p f g st)) = dispatched st.
Proof.
  unfold promise_then, alloc. cbn [heap set_heap].
  destruct ((heap st ++ _) !! p) as [[[s'|] rs]|]; done.
Qed.

Lemma call_frame op st :
  parent (snd (call op st)) = parent st
  /\ submitted (snd (call op st)) = submitted st ++ [(op, fst (call op st))]
  /\ trace (snd (call op st)) = trace st.
Proof.
  unfold call, sync.
  destruct (promise_then (this_promise st) _ None st) as [rho st1] eqn:E1.
  destruct (promise_then rho None _ st1) as [c st2] eqn:E2.
  cbn [fst snd parent submitted trace set_this_promise].
  destruct (then_frame (this_promise st)
              (Some (Fn (length (submitted st)) op)) None st)
    as (H1 & H2 & H3 & _).
  destruct (then_frame rho None (Some CatchHandler) st1) as (H4 & H5 & H6 & _).
  rewrite E1 in H1, H2, H3. rewrite E2 in H4, H5, H6. cbn [snd] in *.
  rewrite H4, H5, H6, H1, H2, H3. done.
Qed.

Lemma run_job_frame j st :
  parent (run_job j st) = parent st
  /\ submitted (run_job j st) = submitted st
  /\ exists new, trace (run_job j st) = trace st ++ new
                 /\ forall k s, Finished k s ∉ new.
Proof.
  assert (Hs : forall p s st0,
    parent (settle p s st0) = parent st0
    /\ submitted (settle p s st0) = submitted st0
    /\ exists new, trace (settle p s st0) = trace st0 ++ new
                   /\ forall k s', Finished k s' ∉ new).
  { intros p s st0. destruct (settle_frame p s st0) as (-> & -> & -> & _).
    repeat split. exists []. rewrite app_nil_r. split; [done|].
    intros k s'. apply not_elem_of_nil. }
  destruct j as [[f g d|t] s]; cbn [run_job]; [|apply Hs].
  assert (Hh : forall h,
    parent (run_handler h s d st) = parent st
    /\ submitted (run_handler h s d st) = submitted st
    /\ exists new, trace (run_handler h s d st) = trace st ++ new
                   /\ forall k s', Finished k s' ∉ new).
  { intros [k op| |]; cbn [run_handler].
    - cbn. repeat split. exists [Started k op]. split; [done|].
      intros k' s' Hin. apply list_elem_of_singleton in Hin. done.
    - destruct (promise_then (this_promise st) (Some Noop) (Some Noop) st)
        as [h' st1] eqn:E.
      destruct (then_frame (this_promise st) (Some Noop) (Some Noop) st)
        as (H1 & H2 & H3 & _).
      rewrite E in H1, H2, H3. cbn [snd] in *.
      match goal with |- context [settle d Fulfilled ?x] =>
        destruct (Hs d Fulfilled x) as (-> & -> & new & -> & Hnew)
      end.
      cbn [parent submitted trace set_this_promise].
      rewrite H1, H2, H3. repeat split. by exists new.
    - apply Hs. }
  destruct s as [|e], f as [hf|], g as [hg|]; try apply Hh; apply Hs.
Qed.

Lemma step_frame act st st' :
  step act st = Some st' ->
  parent st' = parent st /\
  exists new, trace st' = trace st ++ new /\
    match act with
    | Call op =>
        submitted st' = submitted st ++ [(op, fst (call op st))] /\ new = []
    | RunJob _ =>
        submitted st' = submitted st /\ forall k s, Finished k s ∉ new
    | Complete i s =>
        submitted st' = submitted st /\
        exists k r, running st !! i = Some (k, r) /\ new = [Finished k s]
    end.
Proof.
  destruct act as [op|i|i s]; cbn [step]; intros Hst.
  - injection Hst as <-. destruct (call_frame op st) as (-> & -> & ->).
    split; [done|]. exists []. by rewrite app_nil_r.
  - destruct (jobs st !! i) as [j|]; [|done]. injection Hst as <-.
    destruct (run_job_frame j (set_jobs (delete i (jobs st)) st))
      as (-> & -> & new & -> & Hnew).
    split; [done|]. by exists new.
  - destruct (running st !! i) as [[k r]|]; [|done]. injection Hst as <-.
    match goal with |- context [settle r s ?x] =>
      destruct (settle_frame r s x) as (-> & -> & -> & _)
    end.
    split; [done|]. exists [Finished k s]. split; [done|].
    split; [done|]. by exists k, r.
Qed.

(** *** Draining the queue *)

Lemma Inv_settled_quiescent st a : Inv st a -> pend a = [] -> quiescent st.
Proof.
  intros HI Ep. split.
  - by rewrite (inv_jobs _ _ HI), Ep.
  - by rewrite (inv_running _ _ HI), Ep.
Qed.

Lemma weight_0 a : weight a = 0 -> pend a = [].
Proof.
  unfold weight. destruct (pend a) as [|n ws]; [done|].
  unfold list_sum. cbn.
  destruct n as [k op rho c [| |r|r s|r s]|h q]; cbn; lia.
Qed.

(** With fuel for the work left, the host runs every submitted operation
    to its end, each ending as [outcome] says. *)
Lemma drain_quiesces outcome fuel : forall st a,
  Inv st a -> weight a <= fuel ->
  exists a',
    Inv (drain fuel outcome st) a' /\ pend a' = [] /\
    parent (drain fuel outcome st) = parent st /\
    submitted (drain fuel outcome st) = submitted st /\
    exists new,
      trace (drain fuel outcome st) = trace st ++ new /\
      forall k s, Finished k s ∈ new -> s = outcome k.
Proof.
  induction fuel as [|fuel IH]; intros st a HI Hw.
  - exists a. cbn [drain]. split; [done|]. split; [apply weight_0; lia|].
    do 2 (split; [done|]). exists []. rewrite app_nil_r. split; [done|].
    intros k s Hin. by apply elem_of_nil in Hin.
  - cbn [drain]. destruct (jobs st) as [|j js] eqn:Ej.
    + destruct (running st) as [|[k r] rs] eqn:Er.
      * exists a. split; [done|].
        split; [by apply (Inv_quiescent st)|].
        do 2 (split; [done|]). exists []. rewrite app_nil_r. split; [done|].
        intros k s Hin. by apply elem_of_nil in Hin.
      * destruct (step (Complete 0 (outcome k)) st) as [st1|] eqn:Es;
          [|by cbn in Es; rewrite Er in Es].
        destruct (Inv_step _ _ _ _ HI Es) as (a1 & HI1 & Hlt).
        destruct (step_frame _ _ _ Es)
          as (Hp & new1 & Ht & Hsub & k' & r' & Hr & ->).
        rewrite Er in Hr. injection Hr as <- <-.
        destruct (IH st1 a1 HI1 ltac:(lia))
          as (a' & HI' & Ep' & Hp' & Hs' & new & Ht' & Hnew).
        exists a'. rewrite Hp', Hs', Hp, Hsub, Ht', Ht, <- app_assoc.
        split; [exact HI'|]. do 3 (split; [done|]).
        eexists. split; [done|].
        intros k0 s Hin. apply elem_of_cons in Hin as [[= -> ->]|Hin]; auto.
    + destruct (step (RunJob 0) st) as [st1|] eqn:Es;
        [|by cbn in Es; rewrite Ej in Es].
      destruct (Inv_step _ _ _ _ HI Es) as (a1 & HI1 & Hlt).
      destruct (step_frame _ _ _ Es) as (Hp & new1 & Ht & Hsub & Hnew1).
      destruct (IH st1 a1 HI1 ltac:(lia))
        as (a' & HI' & Ep' & Hp' & Hs' & new & Ht' & Hnew).
      exists a'. rewrite Hp', Hs', Hp, Hsub, Ht', Ht, <- app_assoc.
      split; [exact HI'|]. do 3 (split; [done|]).
      eexists. split; [done|].
      intros k0 s Hin. apply elem_of_app in Hin as [Hin|Hin]; auto.
      by apply Hnew1 in Hin.
Qed.

(** *** Traces in call order *)

Lemma in_order_cases ops n tr :
  in_order ops n tr ->
  tr = []
  \/ (exists op, tr = [Started n op] /\ ops !! n = Some op)
  \/ (exists op s rest,
        tr = Started n op :: Finished n s :: rest /\ ops !! n = Some op
        /\ in_order ops (S n) rest).
Proof.
  destruct tr as [|[k op|k s] tr]; cbn; [by left| |done].
  intros (-> & Hop & Hrest). right.
  destruct tr as [|[k' op'|k' s'] tr]; [left; eauto|done|].
  destruct Hrest as [-> Hrest]. right. eauto 6.
Qed.

Lemma in_order_finished ops m : forall n tr k s,
  length tr <= m -> in_order ops n tr -> Finished k s ∈ tr ->
  n <= k < length ops
  /\ forall s', Finished k s' ∈ tr -> s' = s.
Proof.
  induction m as [|m IH]; intros n tr k s Hlen Hio Hin.
  - destruct tr; [by apply elem_of_nil in Hin|cbn in Hlen; lia].
  - destruct (in_order_cases _ _ _ Hio)
      as [->|[(op & -> & Hop)|(op & s0 & rest & -> & Hop & Hrest)]].
    + by apply elem_of_nil in Hin.
    + apply list_elem_of_singleton in Hin. done.
    + cbn in Hlen.
      assert (Hr : forall k1 s1, Finished k1 s1 ∈ rest ->
                S n <= k1 < length ops
                /\ forall s', Finished k1 s' ∈ rest -> s' = s1).
      { intros k1 s1 H1. apply (IH (S n) rest); [lia|done..]. }
      apply lookup_lt_Some in Hop as Hlt.
      apply elem_of_cons in Hin as [|Hin]; [done|].
      apply elem_of_cons in Hin as [[= -> ->]|Hin].
      * split; [lia|]. intros s' Hs'.
        apply elem_of_cons in Hs' as [|Hs']; [done|].
        apply elem_of_cons in Hs' as [[= ->]|Hs']; [done|].
        apply Hr in Hs'. lia.
      * destruct (Hr _ _ Hin) as [Hb Hu]. split; [lia|]. intros s' Hs'.
        apply elem_of_cons in Hs' as [|Hs']; [done|].
        apply elem_of_cons in Hs' as [[= -> ->]|Hs']; [lia|]. by apply Hu.
Qed.

Lemma in_order_bound ops tr k s :
  in_order ops 0 tr -> Finished k s ∈ tr -> k < length ops.
Proof.
  intros Hio Hin.
  by destruct (in_order_finished ops (length tr) 0 tr k s
                 ltac:(lia) Hio Hin) as [[_ ?] _].
Qed.

Lemma in_order_once ops tr k s s' :
  in_order ops 0 tr -> Finished k s ∈ tr -> Finished k s' ∈ tr -> s' = s.
Proof.
  intros Hio Hin Hin'.
  destruct (in_order_finished ops (length tr) 0 tr k s
              ltac:(lia) Hio Hin) as [_ Hu]. by apply Hu.
Qed.

Lemma exec_parent acts : forall st st',
  exec acts st = Some st' -> parent st' = parent st.
Proof.
  induction acts as [|act acts IH]; intros st st' He; cbn in He.
  - by injection He as <-.
  - destruct (step act st) as [st1|] eqn:Es; [|done].
    rewrite (IH _ _ He). by destruct (step_frame _ _ _ Es) as [-> _].
Qed.

(** *** Call order and failures *)



(** C3.  On a writer with a parent, the errors dispatched on [onError]
    are those of the operations that failed, one each and in order, the
    latest failure being dispatched when its catch job runs; an operation
    is never started twice; and after any failures an operation submitted
    next is run to its end like any other: once the host has run what is
    queued, it has started and finished, its promise has settled as it
    ended, the promise of every failed operation is rejected with its
    error, every failure has been dispatched once, and the writer's
    [promise] field holds a fulfilled promise. *)
Theorem failure_is_dispatched_once_and_queue_goes_on
    (acts : list action) (st : state) (op : Op)
    (outcome : nat -> settlement) :
  exec acts (create true) = Some st ->
  (exists late,
      rejections (trace st) = dispatched st ++ late /\ length late <= 1) /\
  exists fuel,
    let k := length (submitted st) in
    let st' := drain fuel outcome (snd (call op st)) in
    quiescent st' /\
    in_order (fst <$> submitted st') 0 (trace st') /\
    dispatched st' = rejections (trace st') /\
    (forall j opj rho e,
        submitted st' !! j = Some (opj, rho) ->
        Finished j (Rejected e) ∈ trace st' ->
        heap st' !! rho = Some (settled_with (Rejected e))) /\
    Started k op ∈ trace st' /\
    Finished k (outcome k) ∈ trace st' /\
    heap st' !! fst (call op st) = Some (settled_with (outcome k)) /\
    heap st' !! this_promise st' = Some (settled_with Fulfilled).
Proof.
  intros He. destruct (Inv_reachable _ _ _ He) as [a HI].
  assert (Hp : parent st = true) by apply (exec_parent _ _ _ He).
  split.
  { destruct (Inv_dispatched _ _ HI Hp) as (late & H1 & H2 & _). eauto. }
  destruct (step_call op st a HI) as (n & HI1 & _ & Hrho & _).
  destruct (call_frame op st) as (Hp1 & Hs1 & Ht1).
  set (st1 := snd (call op st)) in *.
  set (a1 := {| dones := dones a; pend := pend a ++ [n] |}) in *.
  exists (weight a1). cbn zeta.
  destruct (drain_quiesces outcome (weight a1) st1 a1 HI1 ltac:(lia))
    as (a' & HI' & Ep' & Hp' & Hs' & new & Ht' & Hnew).
  set (st' := drain (weight a1) outcome st1) in *.
  pose proof (Inv_in_order _ _ HI') as Hio'.
  split; [by apply (Inv_settled_quiescent _ a')|].
  split; [done|].
  split.
  { destruct (Inv_dispatched _ _ HI' ltac:(by rewrite Hp', Hp1))
      as (late & H1 & _ & H3). rewrite H1, (H3 Ep'). by rewrite app_nil_r. }
  split.
  { intros j opj rho e Hl Hf.
    destruct (Inv_settled _ _ j opj rho HI' Ep' Hl) as (s & Hc & _ & Hf').
    by rewrite Hc, (in_order_once _ _ _ _ _ Hio' Hf' Hf). }
  assert (Hl : submitted st' !! length (submitted st)
               = Some (op, fst (call op st))).
  { rewrite Hs', Hs1. rewrite lookup_app_r by lia.
    by rewrite Nat.sub_diag. }
  destruct (Inv_settled _ _ _ _ _ HI' Ep' Hl) as (s & Hc & Hst & Hf).
  assert (s = outcome (length (submitted st))) as ->.
  { rewrite Ht', Ht1 in Hf. apply elem_of_app in Hf as [Hf|Hf]; [|auto].
    apply (in_order_bound _ _ _ _ (Inv_in_order _ _ HI)) in Hf.
    rewrite length_fmap in Hf. lia. }
  do 3 (split; [done|]).
  rewrite (inv_tail _ _ HI'). apply (inv_cells _ _ HI').
  by apply tail_cell_done.
Qed.

Lemma failure_is_dispatched_once_and_queue_goes_on_witness :
  exec busy_run (create true) = Some busy_writer /\
  exists late,
    rejections (trace busy_writer) = dispatched busy_writer ++ late
    /\ length late <= 1.
Proof.
  assert (H : exec busy_run (create true) = Some busy_writer)
    by (vm_compute; reflexivity).
  split; [exact H|].
  exact (proj1 (failure_is_dispatched_once_and_queue_goes_on
                  busy_run busy_writer Flush (fun _ => Fulfilled) H)).
Defined.

End Queue.

(** * Further properties of the random-access storage *)

Section RandomAccessWrites.
Import MutableFileChunkStorage WriterSpec.

Lemma safeb_safe z : Float64.safe z -> Float64.safeb z = true.
Proof.
  unfold Float64.safe, Float64.safeb. intros [H1 H2].
  apply andb_true_intro. split; by apply Z.ltb_lt.
Qed.

Lemma add_safe a b :
  Float64.safe a -> Float64.safe b -> Float64.safe (a + b) ->
  Float64.add a b = a + b.
Proof.
  intros Ha Hb Hab. unfold Float64.add.
  by rewrite !safeb_safe.
Qed.

Lemma slice_overwrite_exact data position bs :
  0 <= position ->
  SimpleMutableFile.slice (Z.of_nat (length data)) position
    (SimpleMutableFile.overwrite data position bs) = data.
Proof.
  intros Hp. rewrite slice_overwrite by lia. apply firstn_all.
Qed.

Lemma length_overwrite data position bs :
  length (SimpleMutableFile.overwrite data position bs)
  = ((Z.to_nat position + length data) `max` length bs)%nat.
Proof.
  unfold SimpleMutableFile.overwrite.
  rewrite !length_app, length_take, length_replicate, length_drop. lia.
Qed.

(** Bytes after the written range keep their place; bytes before it do
    when the file already reached them. *)
Lemma slice_overwrite_frame n q data position bs :
  0 <= position -> 0 <= q -> 0 <= n ->
  (q + n <= position /\ q + n <= Z.of_nat (length bs)) \/
  position + Z.of_nat (length data) <= q ->
  SimpleMutableFile.slice n q (SimpleMutableFile.overwrite data position bs)
  = SimpleMutableFile.slice n q bs.
Proof.
  intros Hp Hq Hn H.
  unfold SimpleMutableFile.slice, SimpleMutableFile.overwrite.
  set (p := Z.to_nat position). set (k := Z.to_nat q).
  set (m := Z.to_nat n).
  destruct H as [[H1 H2]|H].
  - assert (Hk : (k + m <= p)%nat) by lia.
    assert (Hl : (k + m <= length bs)%nat) by lia.
    transitivity (take m (drop k (take p bs ++ drop p bs)));
      [|by rewrite take_drop].
    rewrite !drop_app_le by (rewrite length_take; lia).
    rewrite !take_app_le by (rewrite length_drop, length_take; lia).
    done.
  - assert (Hk : (p + length data <= k)%nat) by lia.
    rewrite !app_assoc.
    destruct (decide (p <= length bs)%nat) as [Hle|Hgt].
    + rewrite drop_app_ge
        by (rewrite !length_app, length_take, length_replicate; lia).
      rewrite !length_app, length_take, length_replicate, drop_drop.
      do 2 f_equal. lia.
    + rewrite (drop_ge bs (p + _)) by lia. rewrite app_nil_r.
      rewrite (drop_ge bs k) by lia.
      rewrite drop_ge; [done|].
      rewrite !length_app, length_take, length_replicate. lia.
Qed.

Lemma doWrite_no_fault data w st :
  data <> [] ->
  in_range w (Z.of_nat (length data)) ->
  SimpleMutableFile.faults (file st) = [] ->
  doWrite data w st
  = (Ok tt,
     {| startPosition := startPosition w;
        writtenSize := writtenSize w + Z.of_nat (length data);
        writtenSizeIndex := writtenSizeIndex w |},
     store_persistenceData (writtenSizeIndex w)
       (writtenSize w + Z.of_nat (length data))
       (set_file
          {| SimpleMutableFile.content :=
               SimpleMutableFile.overwrite data (position w)
                 (SimpleMutableFile.content (file st));
             SimpleMutableFile.faults := [] |} st)).
Proof.
  intros Hd (Hsp & Hws & Hpos & Hn & Hsum) Hf. unfold doWrite, doWrite_begin.
  destruct (length data =? 0)%nat eqn:E.
  { apply Nat.eqb_eq, nil_length_inv in E. done. }
  rewrite write_no_fault by done.
  cbn [set_file doWrite_end written captured persistenceDataId data_length].
  rewrite Nat.eqb_refl, !add_safe by done. done.
Qed.

(** X1.  Within the safe integers, a write of a non-empty block that the
    file accepts lands at the writer's position: reading that range back
    gives the block, the writer's size grows by its length and the
    writer's slot of the table takes the new size. *)
Theorem doWrite_then_read (data : list byte) (w : Writer) (st : t) :
  data <> [] ->
  0 <= position w ->
  in_range w (Z.of_nat (length data)) ->
  SimpleMutableFile.faults (file st) = [] ->
  exists w' st',
    doWrite data w st = (Ok tt, w', st') /\
    startPosition w' = startPosition w /\
    writtenSize w' = writtenSize w + Z.of_nat (length data) /\
    fst (read (position w) (Z.of_nat (length data)) st') = Ok data /\
    persistenceData st'
    = <[writtenSizeIndex w := writtenSize w']> (persistenceData st).
Proof.
  intros Hd Hp Hr Hf. rewrite doWrite_no_fault by done.
  eexists _, _. split; [reflexivity|].
  cbn [startPosition writtenSize writtenSizeIndex persistenceData
       store_persistenceData set_file].
  split; [done|]. split; [done|]. split; [|done].
  unfold read. cbn [file store_persistenceData set_file].
  rewrite read_no_fault by done. cbn [fst SimpleMutableFile.content].
  f_equal. by apply slice_overwrite_exact.
Qed.

Lemma doWrite_then_read_witness :
  exists w' st',
    doWrite [x01; x02] (mkWriter 0 0 2) (snd (writer 0 (init false None)))
    = (Ok tt, w', st') /\
    fst (read 0 2 st') = Ok [x01; x02].
Proof.
  destruct (doWrite_then_read [x01; x02] (mkWriter 0 0 2)
              (snd (writer 0 (init false None))))
    as (w' & st' & H & _ & _ & Hr & _);
    [done | vm_compute; congruence
    | repeat split; vm_compute; reflexivity | reflexivity |].
  exists w', st'. split; [exact H | exact Hr].
Defined.

Lemma doWrite_empty w st : doWrite [] w st = (Ok tt, w, st).
Proof. reflexivity. Qed.

(** X2.  Within the safe integers, a write changes nothing outside its
    own range: a range that ends before the writer's position and inside
    the file, or starts after the written block, reads as it did before
    the write. *)
Theorem doWrite_frame (data : list byte) (w : Writer) (st : t) (q n : Z) :
  0 <= position w -> 0 <= q -> 0 <= n ->
  in_range w (Z.of_nat (length data)) ->
  SimpleMutableFile.faults (file st) = [] ->
  (q + n <= position w /\
   q + n <= Z.of_nat (length (SimpleMutableFile.content (file st)))) \/
  position w + Z.of_nat (length data) <= q ->
  fst (read q n (doWrite data w st).2) = fst (read q n st).
Proof.
  intros Hp Hq Hn Hr Hf H.
  destruct data as [|b data]; [done|].
  rewrite doWrite_no_fault by done.
  unfold read. cbn [snd file store_persistenceData set_file].
  rewrite !read_no_fault by done.
  cbn [fst SimpleMutableFile.content].
  f_equal. by apply slice_overwrite_frame.
Qed.

Lemma doWrite_frame_witness :
  fst (read 0 1 (doWrite [x02] (mkWriter 1 0 4)
         (doWrite [x01] (mkWriter 0 0 2) (init false None)).2).2)
  = Ok [x01].
Proof.
  rewrite (doWrite_frame [x02] (mkWriter 1 0 4) _ 0 1);
    [reflexivity | vm_compute; congruence | lia | lia
    | repeat split; vm_compute; reflexivity | reflexivity |].
  left. vm_compute. split; congruence.
Defined.

(** X3.  A write the file rejects changes neither the writer nor the
    storage: size, table and content stay, only the rejection is
    consumed, so a second attempt behaves as the first one would have. *)
Theorem doWrite_rejected (data : list byte) (w : Writer) (st : t)
  (e : Error) :
  data <> [] ->
  doWrite data w (rejecting e st) = (Throw e, w, st).
Proof.
  intros Hd. destruct data as [|b data]; [done|].
  destruct st as [[bs fs] ? ? ? ?]. reflexivity.
Qed.

Lemma doWrite_rejected_witness :
  doWrite [x01] (mkWriter 0 0 2) (rejecting (IOError 5) (init false None))
  = (Throw (IOError 5), mkWriter 0 0 2, init false None).
Proof. apply doWrite_rejected. done. Defined.

Lemma slice_add a b q bs :
  0 <= a -> 0 <= b -> 0 <= q ->
  SimpleMutableFile.slice (a + b) q bs
  = SimpleMutableFile.slice a q bs ++ SimpleMutableFile.slice b (q + a) bs.
Proof.
  intros Ha Hb Hq. unfold SimpleMutableFile.slice.
  rewrite !Z2Nat.inj_add by lia.
  rewrite <- drop_drop.
  generalize (drop (Z.to_nat q) bs). intros l.
  rewrite <- (take_drop (Z.to_nat a) l) at 1.
  destruct (decide (Z.to_nat a <= length l)%nat).
  - rewrite take_app_ge by (rewrite length_take; lia).
    rewrite length_take. do 2 f_equal. lia.
  - rewrite drop_ge by lia. rewrite app_nil_r, take_nil.
    rewrite app_nil_r. rewrite take_take. f_equal. lia.
Qed.

Lemma in_range_within w n m :
  within w n -> 0 <= m <= n -> in_range w m.
Proof.
  unfold within, in_range, Float64.safe. intros (H1 & H2 & H3) H.
  repeat split; lia.
Qed.

Lemma within_doWrite w n (d : list byte) :
  within w (Z.of_nat (length d) + n) -> 0 <= n ->
  within
    {| startPosition := startPosition w;
       writtenSize := writtenSize w + Z.of_nat (length d);
       writtenSizeIndex := writtenSizeIndex w |} n.
Proof.
  unfold within. cbn [startPosition writtenSize]. lia.
Qed.

Lemma write_all_frame chunks : forall w st q n,
  within w (Z.of_nat (length (concat chunks))) -> 0 <= q -> 0 <= n ->
  SimpleMutableFile.faults (file st) = [] ->
  q + n <= position w ->
  q + n <= Z.of_nat (length (SimpleMutableFile.content (file st))) ->
  SimpleMutableFile.slice n q
    (SimpleMutableFile.content (file (write_all chunks w st).2))
  = SimpleMutableFile.slice n q (SimpleMutableFile.content (file st)).
Proof.
  induction chunks as [|d rest IH]; intros w st q n Hw Hq Hn Hf H1 H2;
    [done|].
  cbn [write_all]. cbn [concat] in Hw. rewrite length_app, Nat2Z.inj_add in Hw.
  destruct d as [|b d].
  - rewrite doWrite_empty. by apply IH.
  - rewrite doWrite_no_fault;
      [|done|by apply (in_range_within _ _ _ Hw); lia|done].
    rewrite IH; try done.
    + cbn [file store_persistenceData set_file SimpleMutableFile.content].
      apply slice_overwrite_frame; try done; [|by left].
      destruct Hw as (? & ? & _). unfold position. lia.
    + apply within_doWrite; [done|lia].
    + unfold position in *. cbn [startPosition writtenSize]. lia.
    + cbn [file store_persistenceData set_file SimpleMutableFile.content].
      rewrite length_overwrite. lia.
Qed.

Lemma write_all_faults chunks : forall w st,
  within w (Z.of_nat (length (concat chunks))) ->
  SimpleMutableFile.faults (file st) = [] ->
  SimpleMutableFile.faults (file (write_all chunks w st).2) = [].
Proof.
  induction chunks as [|d rest IH]; intros w st Hw Hf; [done|].
  cbn [write_all]. cbn [concat] in Hw. rewrite length_app, Nat2Z.inj_add in Hw.
  destruct d as [|b d].
  - rewrite doWrite_empty. by apply IH.
  - rewrite doWrite_no_fault;
      [|done|by apply (in_range_within _ _ _ Hw); lia|done].
    apply IH; [|done]. apply within_doWrite; [done|lia].
Qed.

(** X4.  Within the safe integers, successive writes of one writer are
    laid out one after the other: after any number of blocks, empty ones
    included, the writer's size has grown by their total length and the
    range from its first position holds their concatenation. *)
Theorem write_all_contiguous (chunks : list (list byte)) (w : Writer)
  (st : t) :
  within w (Z.of_nat (length (concat chunks))) ->
  SimpleMutableFile.faults (file st) = [] ->
  let w' := (write_all chunks w st).1 in
  let st' := (write_all chunks w st).2 in
  startPosition w' = startPosition w /\
  writtenSize w' = writtenSize w + Z.of_nat (length (concat chunks)) /\
  fst (read (position w) (Z.of_nat (length (concat chunks))) st')
  = Ok (concat chunks).
Proof.
  revert w st. induction chunks as [|d rest IH]; intros w st Hw Hf.
  - cbn. split; [done|]. split; [lia|].
    unfold read. by rewrite read_no_fault.
  - assert (Hp : 0 <= position w)
      by (destruct Hw as (? & ? & _); unfold position; lia).
    pose proof (write_all_faults (d :: rest) w st Hw Hf) as Hfs.
    cbn [write_all concat] in *.
    rewrite length_app, Nat2Z.inj_add in Hw.
    destruct d as [|b d].
    + rewrite doWrite_empty in *. by apply IH.
    + rewrite doWrite_no_fault in *;
        [|done|by apply (in_range_within _ _ _ Hw); lia|done
         |done|by apply (in_range_within _ _ _ Hw); lia|done].
      set (w1 := mkWriter _ _ _) in *.
      set (st1 := store_persistenceData _ _ _) in *.
      assert (Hw1 : within w1 (Z.of_nat (length (concat rest))))
        by (apply within_doWrite; [done|lia]).
      assert (Hf1 : SimpleMutableFile.faults (file st1) = []) by done.
      destruct (IH w1 st1 Hw1 Hf1) as (Hs & Hws & Hr).
      split; [done|]. split.
      { rewrite Hws, length_app. unfold w1. cbn [writtenSize].
        by rewrite Nat2Z.inj_add, Z.add_assoc. }
      unfold read in *. rewrite read_no_fault in * by done.
      cbn [fst] in *. f_equal. injection Hr as Hr.
      rewrite length_app, Nat2Z.inj_add.
      rewrite slice_add by lia.
      f_equal.
      * rewrite write_all_frame; try done; try lia.
        -- unfold st1.
           cbn [file store_persistenceData set_file
                SimpleMutableFile.content].
           by apply (slice_overwrite_exact (b :: d)).
        -- unfold position in *. unfold w1. cbn [startPosition writtenSize].
           lia.
        -- unfold st1.
           cbn [file store_persistenceData set_file
                SimpleMutableFile.content].
           rewrite length_overwrite. lia.
      * etransitivity; [|exact Hr]. f_equal. unfold position, w1.
        cbn [startPosition writtenSize]. lia.
Qed.

Lemma write_all_contiguous_witness :
  fst (read 0 3 (write_all [[x01]; []; [x02; x03]] (mkWriter 0 0 2)
                   (init false None)).2)
  = Ok [x01; x02; x03].
Proof.
  apply (write_all_contiguous [[x01]; []; [x02; x03]] (mkWriter 0 0 2)
           (init false None));
    [repeat split; vm_compute; congruence | reflexivity].
Defined.

End RandomAccessWrites.

Section TableSlots.
Import MutableFileChunkStorage WriterSpec.

Lemma in_sync_length w st :
  in_sync w st -> (writtenSizeIndex w < length (persistenceData st))%nat.
Proof. intros [_ H]. by apply lookup_lt_Some in H. Qed.

Lemma load_table_kept totalSize st r st' :
  length (persistenceData st) <> 1%nat ->
  load totalSize st = Some (r, st') ->
  persistenceData st' = persistenceData st /\
  persistenceDataId st' = persistenceDataId st.
Proof.
  unfold load, install, assert. intros Hl H.
  repeat case_match; simplify_eq; try done.
  all: match goal with
       | H : (_ =? 1)%nat = true |- _ => by apply Nat.eqb_eq in H
       end.
Qed.

Lemma load_answers totalSize st :
  length (persistenceData st) <> 1%nat ->
  exists r st', load totalSize st = Some (r, st').
Proof.
  unfold load, install, assert. intros Hl.
  repeat case_match; simplify_eq; eauto.
  all: match goal with
       | H : (_ =? 1)%nat = true |- _ => by apply Nat.eqb_eq in H
       end.
Qed.

Lemma load_cases totalSize st ws st' :
  load totalSize st = Some (Ok ws, st') ->
  ws = [] \/ ws = load_result st'.
Proof.
  unfold load, install, assert. intros H.
  repeat case_match; simplify_eq; auto.
Qed.

Lemma load_never_throws totalSize st r st' :
  load totalSize st = Some (r, st') -> exists ws, r = Ok ws.
Proof.
  unfold load, install, assert. intros H.
  repeat case_match; simplify_eq; eauto.
Qed.

(** X5.  The writer returned by [writer()] is bound to the last pair of
    the new table: its slot exists and holds the writer's start position
    and size. *)
Theorem writer_in_sync (sp : Z) (st : t) :
  persistenceData st <> [] ->
  exists w,
    (writer sp st).1 = Some w /\
    startPosition w = sp /\ writtenSize w = 0 /\
    writtenSizeIndex w = S (length (persistenceData st)) /\
    in_sync w (writer sp st).2.
Proof.
  intros Hne. unfold writer, new_Writer, concatTypedArray, in_sync.
  destruct (persistenceData st) as [|h tl] eqn:E; [done|].
  assert (H1 : (tl ++ [sp; 0]) !! length tl = Some sp)
    by (rewrite lookup_app_r, Nat.sub_diag by lia; done).
  assert (H2 : (tl ++ [sp; 0]) !! (length tl + 1)%nat = Some 0).
  { rewrite lookup_app_r by lia.
    by replace (length tl + 1 - length tl)%nat with 1%nat by lia. }
  simpl. rewrite H1, H2.
  eexists. split; [reflexivity|].
  cbn [startPosition writtenSize writtenSizeIndex].
  split; [done|]. split; [done|]. split; [lia|].
  replace (S (length tl + 1) - 1)%nat with (S (length tl)) by lia.
  simpl. by rewrite H1, H2.
Qed.

Lemma writer_in_sync_witness :
  exists w, (writer 40 (init false None)).1 = Some w /\
            in_sync w (writer 40 (init false None)).2.
Proof.
  destruct (writer_in_sync 40 (init false None)) as (w & H & _ & _ & _ & Hs);
    [done|].
  exists w. split; [exact H | exact Hs].
Defined.

(** X6.  A writer bound to its slot stays bound through each of these
    steps: a write of its own that runs without interruption, accepted or
    rejected; the start of a write of its own; the end of a write of its
    own when the table it captured is still the table of the storage; a
    write of a writer on another slot; a [writer()] call; [persist];
    [load].  The one step left out is the end of a write during whose
    wait [writer()] replaced the table. *)
Theorem in_sync_kept (w : Writer) (st : t) :
  in_sync w st ->
  (2 <= writtenSizeIndex w)%nat ->
  (forall data, in_sync (doWrite data w st).1.2 (doWrite data w st).2) /\
  (forall data, in_sync w (doWrite_begin data w st).2) /\
  (forall p,
     captured p = persistenceDataId st ->
     in_sync (doWrite_end p w st).1.2 (doWrite_end p w st).2) /\
  (forall data w2,
     writtenSizeIndex w2 <> writtenSizeIndex w ->
     writtenSizeIndex w2 <> (writtenSizeIndex w - 1)%nat ->
     in_sync w (doWrite data w2 st).2) /\
  (forall sp, in_sync w (writer sp st).2) /\
  (forall task, in_sync w (persist_body task st).2) /\
  (forall totalSize r st',
     load totalSize st = Some (r, st') -> in_sync w st').
Proof.
  intros Hs Hi. pose proof (in_sync_length _ _ Hs) as Hlen.
  destruct Hs as [Hs1 Hs2]. repeat apply conj.
  - intros data. unfold doWrite, doWrite_begin.
    destruct (length data =? 0)%nat; [done|].
    destruct (SimpleMutableFile.write _ _ _) as [[[]|e] f]; [|done].
    cbn. rewrite Nat.eqb_refl. split; cbn.
    + rewrite list_lookup_insert_ne by lia. done.
    + by rewrite list_lookup_insert_eq.
  - intros data. unfold doWrite_begin.
    destruct (length data =? 0)%nat; [done|].
    by destruct (SimpleMutableFile.write _ _ _).
  - intros p Hp. unfold doWrite_end.
    destruct (written p); [|done].
    rewrite Hp, Nat.eqb_refl. split; cbn.
    + rewrite list_lookup_insert_ne by lia. done.
    + by rewrite list_lookup_insert_eq.
  - intros data w2 H1 H2. unfold doWrite, doWrite_begin.
    destruct (length data =? 0)%nat; [done|].
    destruct (SimpleMutableFile.write _ _ _) as [[[]|e] f]; [|done].
    cbn. rewrite Nat.eqb_refl. split; cbn.
    + rewrite list_lookup_insert_ne by lia. done.
    + rewrite list_lookup_insert_ne by lia. done.
  - intros sp. unfold writer, concatTypedArray.
    destruct (persistenceData st) as [|h tl] eqn:E; [cbn in Hlen; lia|].
    cbn [set_persistenceData persistenceData concat lookup list_lookup
         app].
    cbn [snd]. split;
      cbn [store_persistenceData set_persistenceData persistenceData];
      rewrite list_lookup_insert_ne by lia;
      change (h :: tl ++ [sp; 0]) with ((h :: tl) ++ [sp; 0]);
      rewrite (lookup_app_l (h :: tl)) by (cbn [length] in *; lia); done.
  - intros task. unfold persist_body.
    destruct (negb _); [done|]. destruct (task_final task).
    + by destruct (SimpleMutableFile.truncate _ _).
    + by destruct (SimpleMutableFile.write _ _ _).
  - intros totalSize r st' H.
    apply load_table_kept in H as [H _]; [|lia].
    unfold in_sync. by rewrite H.
Qed.

Lemma in_sync_kept_witness :
  in_sync (mkWriter 40 0 2) (writer 7 (writer 40 (init false None)).2).2.
Proof.
  apply (in_sync_kept (mkWriter 40 0 2) (writer 40 (init false None)).2);
    [split; reflexivity | cbn; lia].
Defined.

End TableSlots.

Section Resume.
Import MutableFileChunkStorage TableSpec WriterSpec.

Lemma new_Writer_ext st st' i :
  persistenceData st = persistenceData st' ->
  new_Writer st i = new_Writer st' i.
Proof. unfold new_Writer. by intros ->. Qed.

Lemma load_loop_ext st st' fuel : forall i,
  persistenceData st = persistenceData st' ->
  load_loop fuel i st = load_loop fuel i st'.
Proof.
  induction fuel as [|fuel IH]; intros i H; [done|].
  cbn [load_loop]. rewrite (new_Writer_ext st st') by done.
  destruct (new_Writer st' i); [|done]. f_equal. by apply IH.
Qed.

Lemma load_result_ext st st' :
  persistenceData st = persistenceData st' ->
  load_result st = load_result st'.
Proof.
  intros H. unfold load_result. rewrite H. by apply load_loop_ext.
Qed.

(** X7.  On a storage that already gave out writers, [load] answers,
    neither throws nor replaces the table, whatever the file holds and
    whether or not its reads fail: the table in memory stays as it is and
    the call returns no writer or the writers of exactly that table. *)
Theorem load_with_writers (totalSize : Z) (st : t) :
  length (persistenceData st) <> 1%nat ->
  exists r st',
    load totalSize st = Some (r, st') /\
    persistenceData st' = persistenceData st /\
    persistenceDataId st' = persistenceDataId st /\
    (r = Ok [] \/ r = Ok (load_result st)).
Proof.
  intros Hl. destruct (load_answers totalSize st Hl) as (r & st' & H).
  exists r, st'. split; [done|].
  destruct (load_table_kept _ _ _ _ Hl H) as [H1 H2].
  split; [done|]. split; [done|].
  destruct (load_never_throws _ _ _ _ H) as [ws ->].
  destruct (load_cases _ _ _ _ H) as [->| ->]; [by left|right].
  f_equal. by apply load_result_ext.
Qed.

Lemma load_with_writers_witness :
  Forall (fun w =>
            exists r st',
              load 0 (writer 40 (lone_header w)).2 = Some (r, st') /\
              persistenceData st' = [2; 40; 0])
    odd_headers.
Proof.
  apply Forall_forall. intros w _.
  destruct (load_with_writers 0 (writer 40 (lone_header w)).2)
    as (r & st' & H1 & H2 & _); [cbn; lia|].
  exists r, st'. split; [exact H1 | exact H2].
Defined.

Lemma load_loop_bound st fuel : forall i w,
  w ∈ load_loop fuel i st ->
  exists m, new_Writer st (i + 2 * m)%nat = Some w.
Proof.
  induction fuel as [|fuel IH]; intros i w Hw; [by apply elem_of_nil in Hw|].
  cbn [load_loop] in Hw.
  destruct (new_Writer st i) as [w0|] eqn:E; [|by apply elem_of_nil in Hw].
  apply elem_of_cons in Hw as [->|Hw].
  - exists O. by rewrite Nat.add_0_r.
  - apply IH in Hw as [m Hm]. exists (S m).
    by replace (i + 2 * S m)%nat with (i + 2 + 2 * m)%nat by lia.
Qed.

Lemma load_loop_slots st fuel : forall i,
  Forall (fun w => (i < writtenSizeIndex w)%nat) (load_loop fuel i st) /\
  NoDup (writtenSizeIndex <$> load_loop fuel i st).
Proof.
  induction fuel as [|fuel IH]; intros i; [split; constructor|].
  cbn [load_loop].
  destruct (new_Writer st i) as [w0|] eqn:E; [|split; constructor].
  destruct (IH (i + 2)%nat) as [IH1 IH2].
  assert (Hw0 : writtenSizeIndex w0 = (i + 1)%nat).
  { unfold new_Writer in E. destruct (_ !! i); by simplify_eq. }
  split.
  - constructor; [lia|].
    eapply Forall_impl; [exact IH1|]. cbn. intros; lia.
  - rewrite fmap_cons. constructor; [|done].
    intros Hin. apply list_elem_of_fmap in Hin as (w & Hw & Hin).
    rewrite Forall_forall in IH1. apply IH1 in Hin. lia.
Qed.

(** X8.  The writers [load] returns are bound to the table in memory:
    each one's start position is the cell before its slot and its size is
    what the slot holds, or 0 where the table ends before the slot; no two
    of them share a slot.  With a table of odd length every returned
    writer has its slot. *)
Theorem loaded_writers_bound (totalSize : Z) (st st' : t)
  (ws : list Writer) :
  load totalSize st = Some (Ok ws, st') ->
  NoDup (writtenSizeIndex <$> ws) /\
  forall w, w ∈ ws ->
    Nat.Even (writtenSizeIndex w) /\
    persistenceData st' !! (writtenSizeIndex w - 1)%nat
      = Some (startPosition w) /\
    writtenSize w
      = default 0 (persistenceData st' !! writtenSizeIndex w) /\
    (Nat.Odd (length (persistenceData st')) -> in_sync w st').
Proof.
  intros H. destruct (load_cases _ _ _ _ H) as [->| ->].
  { split; [constructor|]. intros w Hw. by apply elem_of_nil in Hw. }
  split; [apply load_loop_slots|].
  intros w Hw. apply load_loop_bound in Hw as [m Hm].
  unfold new_Writer in Hm.
  destruct (persistenceData st' !! (1 + 2 * m)%nat) as [sp|] eqn:E;
    [|done].
  injection Hm as <-. cbn [writtenSizeIndex startPosition writtenSize].
  split; [exists (S m); lia|].
  split; [rewrite <- E; f_equal; lia|].
  split; [by destruct (_ !! _)|].
  intros [k Hk]. unfold in_sync.
  cbn [writtenSizeIndex startPosition writtenSize].
  split; [rewrite <- E; f_equal; lia|].
  apply lookup_lt_Some in E.
  destruct (lookup_lt_is_Some_2 (persistenceData st') (1 + 2 * m + 1)%nat)
    as [x Hx]; [lia|].
  match goal with
  | |- context [persistenceData st' !! ?i] =>
      replace (persistenceData st' !! i) with (Some x)
        by (rewrite <- Hx; f_equal; lia)
  end.
  done.
Qed.

Lemma loaded_writers_bound_witness :
  exists ws st',
    load 0 (rejecting (IOError 1) (writer 40 (init false None)).2)
    = Some (Ok ws, st') /\
    NoDup (writtenSizeIndex <$> ws).
Proof.
  destruct (load 0 (rejecting (IOError 1) (writer 40 (init false None)).2))
    as [[[ws|e] st']|] eqn:E;
    [|vm_compute in E; discriminate..].
  exists ws, st'. split; [reflexivity|].
  exact (proj1 (loaded_writers_bound 0 _ _ _ E)).
Defined.

End Resume.

Section WriteAcrossWriterCall.
Import MutableFileChunkStorage WriterSpec.

Lemma writer_lookup sp st i :
  (1 <= i < length (persistenceData st))%nat ->
  persistenceData (writer sp st).2 !! i = persistenceData st !! i.
Proof.
  intros Hi. unfold writer, concatTypedArray.
  destruct (persistenceData st) as [|h tl] eqn:E; [cbn in Hi; lia|].
  cbn [set_persistenceData persistenceData concat lookup list_lookup app
       snd store_persistenceData].
  rewrite list_lookup_insert_ne by lia.
  change (h :: tl ++ [sp; 0]) with ((h :: tl) ++ [sp; 0]).
  by rewrite (lookup_app_l (h :: tl)) by (cbn [length] in *; lia).
Qed.

Lemma writer_length sp st :
  (length (persistenceData st)
   <= length (persistenceData (writer sp st).2))%nat.
Proof.
  unfold writer, concatTypedArray.
  cbn [set_persistenceData persistenceData concat].
  destruct (_ !! O); cbn [snd store_persistenceData set_persistenceData
    persistenceData]; rewrite ?length_insert, !length_app; lia.
Qed.

Lemma writer_file sp st : file (writer sp st).2 = file st.
Proof.
  unfold writer. cbn [snd]. by destruct (_ !! O).
Qed.

Lemma writer_persistenceDataId sp st :
  persistenceDataId (writer sp st).2 = S (persistenceDataId st).
Proof.
  unfold writer. cbn [snd]. by destruct (_ !! O).
Qed.

(** An accepted write brings the slot of its writer up to date, whatever
    the slot held. *)
Lemma doWrite_syncs data w st :
  data <> [] ->
  SimpleMutableFile.faults (file st) = [] ->
  (2 <= writtenSizeIndex w < length (persistenceData st))%nat ->
  persistenceData st !! (writtenSizeIndex w - 1)%nat
    = Some (startPosition w) ->
  in_sync (doWrite data w st).1.2 (doWrite data w st).2.
Proof.
  intros Hd Hf Hi Hsp. unfold doWrite, doWrite_begin.
  destruct (length data =? 0)%nat eqn:E.
  { apply Nat.eqb_eq, nil_length_inv in E. done. }
  rewrite write_no_fault by done.
  cbn [set_file doWrite_end written captured persistenceDataId data_length].
  rewrite Nat.eqb_refl. split; cbn.
  - rewrite list_lookup_insert_ne by lia. done.
  - apply list_lookup_insert_eq. lia.
Qed.

(** X9.  Within the safe integers, a write that is waiting for the file
    while [writer()] replaces the table stores its new size into the
    array it captured, which the storage no longer holds: the bytes are
    in the file and the writer counts them, but the writer's slot of the
    current table keeps the earlier size.  The writer's next accepted
    write brings the slot up to date. *)
Theorem write_across_writer_call (data : list byte) (w : Writer) (st : t)
  (sp : Z) :
  in_sync w st ->
  (2 <= writtenSizeIndex w)%nat ->
  data <> [] ->
  0 <= position w ->
  in_range w (Z.of_nat (length data)) ->
  SimpleMutableFile.faults (file st) = [] ->
  exists p st1 w' st3,
    doWrite_begin data w st = (Some p, st1) /\
    doWrite_end p w (writer sp st1).2 = (Ok tt, w', st3) /\
    writtenSize w' = writtenSize w + Z.of_nat (length data) /\
    fst (read (position w) (Z.of_nat (length data)) st3) = Ok data /\
    persistenceData st3 !! writtenSizeIndex w = Some (writtenSize w) /\
    forall data2, data2 <> [] ->
      in_sync (doWrite data2 w' st3).1.2 (doWrite data2 w' st3).2.
Proof.
  intros Hs Hi Hd Hp (Hsp & Hws & Hpos & Hn & Hsum) Hf.
  pose proof (in_sync_length _ _ Hs) as Hlen.
  destruct Hs as [Hs1 Hs2].
  unfold doWrite_begin.
  destruct (length data =? 0)%nat eqn:E.
  { apply Nat.eqb_eq, nil_length_inv in E. done. }
  rewrite write_no_fault, add_safe by done. fold (position w).
  eexists _, _, _, _. split; [reflexivity|].
  set (st1 := set_file _ st).
  unfold doWrite_end. cbn [written captured data_length].
  rewrite writer_persistenceDataId, add_safe by done.
  replace (persistenceDataId st =? S (persistenceDataId st1))%nat
    with false by (symmetry; apply Nat.eqb_neq; cbn; lia).
  split; [reflexivity|]. cbn [writtenSize].
  split; [done|].
  split.
  { unfold read. rewrite writer_file. unfold st1. cbn [file set_file].
    rewrite read_no_fault by done. cbn [fst SimpleMutableFile.content].
    f_equal. by apply slice_overwrite_exact. }
  split.
  { rewrite writer_lookup by (unfold st1; cbn; lia). done. }
  intros data2 Hd2. apply doWrite_syncs; try done.
  - by rewrite writer_file.
  - cbn [writtenSizeIndex]. pose proof (writer_length sp st1).
    unfold st1 in *. cbn in *. lia.
  - cbn [writtenSizeIndex startPosition].
    rewrite writer_lookup by (unfold st1; cbn; lia). done.
Qed.

Lemma write_across_writer_call_witness :
  exists p st1 w' st3,
    doWrite_begin [x01] (mkWriter 40 0 2) (writer 40 (init false None)).2
    = (Some p, st1) /\
    doWrite_end p (mkWriter 40 0 2) (writer 50 st1).2 = (Ok tt, w', st3) /\
    writtenSize w' = 1 /\
    persistenceData st3 !! 2%nat = Some 0.
Proof.
  destruct (write_across_writer_call [x01] (mkWriter 40 0 2)
              (writer 40 (init false None)).2 50)
    as (p & st1 & w' & st3 & H1 & H2 & H3 & _ & H4 & _);
    [split; reflexivity | cbn; lia | done | vm_compute; congruence
    | repeat split; vm_compute; reflexivity | reflexivity |].
  exists p, st1, w', st3. split; [exact H1|]. split; [exact H2|].
  split; [exact H3 | exact H4].
Defined.

End WriteAcrossWriterCall.

Section PersistAndReset.
Import MutableFileChunkStorage WriterSpec.

Lemma resize_overwrite data position bs :
  0 <= position ->
  SimpleMutableFile.resize position
    (SimpleMutableFile.overwrite data position bs)
  = SimpleMutableFile.resize position bs.
Proof.
  intros Hp. unfold SimpleMutableFile.resize, SimpleMutableFile.overwrite.
  set (p := Z.to_nat position).
  rewrite app_assoc.
  assert (Hl : length (take p bs ++ replicate (p - length bs) x00) = p)
    by (rewrite length_app, length_take, length_replicate; lia).
  rewrite take_app_length' by done.
  rewrite (length_app (_ ++ _)), Hl.
  replace (p - (p + _))%nat with O by lia. by rewrite app_nil_r.
Qed.

Lemma length_resize n bs :
  length (SimpleMutableFile.resize n bs) = Z.to_nat n.
Proof.
  unfold SimpleMutableFile.resize.
  rewrite length_app, length_take, length_replicate. lia.
Qed.

Lemma resize_length bs :
  SimpleMutableFile.resize (Z.of_nat (length bs)) bs = bs.
Proof.
  unfold SimpleMutableFile.resize. rewrite Nat2Z.id, firstn_all.
  by rewrite Nat.sub_diag, app_nil_r.
Qed.

(** X10.  Saving the table after the data and then finalising at the
    same total size leaves the file with exactly that many bytes and
    without the table: its content is the first [totalSize] bytes it had
    before the two calls, zero-filled where it was shorter, so a file
    that held just the data is back to just the data. *)
Theorem persist_then_final (totalSize : Z) (st : t)
  (save final : PersistTask) :
  0 <= totalSize ->
  SimpleMutableFile.faults (file st) = [] ->
  persist (Some totalSize) false st = Some save ->
  persist (Some totalSize) true (persist_body save st).2 = Some final ->
  let st' := (persist_body final (persist_body save st).2).2 in
  let before := SimpleMutableFile.content (file st) in
  let after := SimpleMutableFile.content (file st') in
  after = SimpleMutableFile.resize totalSize before /\
  Z.of_nat (length after) = totalSize /\
  (Z.of_nat (length before) = totalSize -> after = before) /\
  persistenceData st' = persistenceData st.
Proof.
  intros HT Hf Hsave Hfinal. cbn zeta.
  assert (E1 : persist_body save st
    = (Ok tt,
       set_file
         {| SimpleMutableFile.content :=
              SimpleMutableFile.overwrite
                (typedArrayToBuffer (persistenceData st)) totalSize
                (SimpleMutableFile.content (file st));
            SimpleMutableFile.faults := [] |} st)).
  { injection Hsave as <-. unfold persist_body.
    cbn [task_sentry task_totalSize task_final]. rewrite Nat.eqb_refl.
    cbn [negb]. by rewrite write_no_fault. }
  rewrite E1 in *. cbn [snd] in *. injection Hfinal as <-.
  unfold persist_body.
  cbn [task_sentry task_totalSize task_final set_file persistSentry].
  rewrite Nat.eqb_refl. cbn [negb].
  unfold SimpleMutableFile.truncate, SimpleMutableFile.request.
  cbn [file set_file SimpleMutableFile.faults SimpleMutableFile.content
       snd persistenceData].
  rewrite resize_overwrite by done.
  split; [done|]. split; [rewrite length_resize; lia|].
  split; [|done]. intros <-. apply resize_length.
Qed.

Lemma persist_then_final_witness :
  SimpleMutableFile.content
    (file (persist_body (mkTask 0 2 true)
             (persist_body (mkTask 0 2 false)
                (doWrite [x01; x02] (mkWriter 0 0 2)
                   (writer 0 (init false None)).2).2).2).2)
  = [x01; x02].
Proof.
  apply (persist_then_final 2
           (doWrite [x01; x02] (mkWriter 0 0 2)
              (writer 0 (init false None)).2).2
           (mkTask 0 2 false) (mkTask 0 2 true));
    [lia | reflexivity | reflexivity | reflexivity | reflexivity].
Defined.

(** X11.  After [reset()] whose truncation the file carries out, [load]
    finds nothing to resume, for every total size and whether or not its
    own read fails: it returns no writer and the table is the empty one. *)
Theorem load_after_reset (totalSize : Z) (st : t) :
  fst (SimpleMutableFile.truncate 0 (file st)) = Ok tt ->
  exists st',
    load totalSize (reset st) = Some (Ok [], st') /\
    persistenceData st' = [0] /\
    SimpleMutableFile.content (file st') = [].
Proof.
  intros Ht. unfold load, reset, Float64.BYTES_PER_ELEMENT.
  unfold SimpleMutableFile.truncate, SimpleMutableFile.request in *.
  cbn [file]. destruct (file st) as [bs fs].
  cbn [SimpleMutableFile.faults SimpleMutableFile.content] in *.
  change (SimpleMutableFile.resize 0 bs) with (@nil byte).
  assert (Hs : forall n q, SimpleMutableFile.slice n q [] = [])
    by (intros; unfold SimpleMutableFile.slice;
        by rewrite drop_nil, take_nil).
  destruct fs as [|[e|] rest]; cbn [fst snd] in *; [|done|].
  - unfold SimpleMutableFile.read, SimpleMutableFile.request.
    cbn [SimpleMutableFile.faults SimpleMutableFile.content].
    rewrite Hs. cbn. eauto.
  - unfold SimpleMutableFile.read, SimpleMutableFile.request.
    cbn [SimpleMutableFile.faults SimpleMutableFile.content].
    destruct rest as [|[e|] rest'];
      cbn [SimpleMutableFile.faults SimpleMutableFile.content];
      rewrite ?Hs; cbn; eauto.
Qed.

Lemma load_after_reset_witness :
  exists st',
    load 2 (reset (doWrite [x01; x02] (mkWriter 0 0 2)
                     (writer 0 (init false None)).2).2)
    = Some (Ok [], st') /\
    persistenceData st' = [0].
Proof.
  destruct (load_after_reset 2
              (doWrite [x01; x02] (mkWriter 0 0 2)
                 (writer 0 (init false None)).2).2)
    as (st' & H1 & H2 & _); [reflexivity|].
  exists st'. split; [exact H1 | exact H2].
Defined.

End PersistAndReset.

Section PersistKeepsData.
Import MutableFileChunkStorage WriterSpec.
Local Open Scope Z_scope.

Lemma slice_resize_frame n q size bs :
  0 <= q -> 0 <= n ->
  q + n <= size -> q + n <= Z.of_nat (length bs) ->
  SimpleMutableFile.slice n q (SimpleMutableFile.resize size bs)
  = SimpleMutableFile.slice n q bs.
Proof.
  intros Hq Hn H1 H2.
  unfold SimpleMutableFile.slice, SimpleMutableFile.resize.
  set (p := Z.to_nat size). set (k := Z.to_nat q). set (m := Z.to_nat n).
  assert (Hk : (k + m <= p)%nat) by lia.
  assert (Hl : (k + m <= length bs)%nat) by lia.
  transitivity (take m (drop k (take p bs ++ drop p bs)));
    [|by rewrite take_drop].
  rewrite !drop_app_le by (rewrite length_take; lia).
  rewrite !take_app_le by (rewrite length_drop, length_take; lia).
  done.
Qed.

(** X22.  [persist] never touches the downloaded data: whether it saves
    the table or finalises, whether the file carries the request out or
    rejects it, every range that lies below [totalSize] and inside the
    file holds after the call what it held before. *)
Theorem persist_keeps_data (task : PersistTask) (st : t) (q n : Z) :
  0 <= q -> 0 <= n ->
  q + n <= task_totalSize task ->
  q + n <= Z.of_nat (length (SimpleMutableFile.content (file st))) ->
  SimpleMutableFile.slice n q
    (SimpleMutableFile.content (file (persist_body task st).2))
  = SimpleMutableFile.slice n q (SimpleMutableFile.content (file st)).
Proof.
  intros Hq Hn H1 H2. unfold persist_body.
  destruct (negb _); [done|].
  unfold SimpleMutableFile.truncate, SimpleMutableFile.write,
    SimpleMutableFile.request.
  destruct (file st) as [bs fs].
  cbn [SimpleMutableFile.content SimpleMutableFile.faults] in *.
  destruct (task_final task), fs as [|[e|] rest]; cbn; try done.
  - apply slice_resize_frame; lia.
  - apply slice_resize_frame; lia.
  - apply slice_overwrite_frame; lia.
  - apply slice_overwrite_frame; lia.
Qed.

Lemma persist_keeps_data_witness :
  SimpleMutableFile.slice 2 0
    (SimpleMutableFile.content
       (file (persist_body (mkTask 0 2 false)
                (doWrite [x01; x02] (mkWriter 0 0 2)
                   (writer 0 (init false None)).2).2).2))
  = [x01; x02].
Proof.
  rewrite (persist_keeps_data (mkTask 0 2 false)
             (doWrite [x01; x02] (mkWriter 0 0 2)
                (writer 0 (init false None)).2).2 0 2);
    [reflexivity | lia | lia | cbn; lia | vm_compute; congruence].
Defined.

End PersistKeepsData.

(** * Further properties of the segmented storage *)

Section Cursor.
Import SegmentedFileChunkStorage SegmentSpec.

#[local] Existing Instance key_le_total.
#[local] Existing Instance key_le_trans.

Lemma openCursor_key_sorted id0 store :
  StronglySorted SegmentsDatabase.key_le
    (SegmentsDatabase.openCursor id0 store).
Proof. apply (StronglySorted_merge_sort _). Qed.

Lemma NoDup_openCursor id0 store :
  NoDup (SegmentsDatabase.openCursor id0 store).
Proof.
  unfold SegmentsDatabase.openCursor.
  rewrite (merge_sort_Permutation _ _).
  apply NoDup_filter, NoDup_map_to_list.
Qed.

(** A key-sorted list without repetition that holds exactly the records
    of an id is what the cursor meets. *)
Lemma openCursor_unique id0 store l :
  StronglySorted SegmentsDatabase.key_le l ->
  NoDup l ->
  (forall k v, (k, v) ∈ l <-> k.1 = id0 /\ store !! k = Some v) ->
  SegmentsDatabase.openCursor id0 store = l.
Proof.
  intros Hs Hn Hl.
  apply (StronglySorted_unique_strong SegmentsDatabase.key_le).
  - intros [k1 v1] [k2 v2] H1 H2 Hle1 Hle2.
    apply elem_of_openCursor in H1 as [? H1]. apply Hl in H2 as [? H2].
    assert (k1 = k2) as ->.
    { destruct k1, k2. unfold SegmentsDatabase.key_le in *. cbn in *.
      f_equal; lia. }
    congruence.
  - apply openCursor_key_sorted.
  - done.
  - apply NoDup_Permutation; [apply NoDup_openCursor | done |].
    intros [k v]. by rewrite elem_of_openCursor, Hl.
Qed.

Lemma openCursor_ext id0 store1 store2 :
  (forall k, k.1 = id0 -> store1 !! k = store2 !! k) ->
  SegmentsDatabase.openCursor id0 store1
  = SegmentsDatabase.openCursor id0 store2.
Proof.
  intros H. apply openCursor_unique.
  - apply openCursor_key_sorted.
  - apply NoDup_openCursor.
  - intros k v. rewrite elem_of_openCursor. split.
    + intros [Hk Hv]. split; [done|]. by rewrite H.
    + intros [Hk Hv]. split; [done|]. by rewrite <- H.
Qed.

(** A record added under the id past all positions stored for it is met
    last. *)
Lemma openCursor_insert id0 position v store :
  store !! (id0, position) = None ->
  (forall q u, store !! (id0, q) = Some u -> q <= position) ->
  SegmentsDatabase.openCursor id0 (<[(id0, position) := v]> store)
  = SegmentsDatabase.openCursor id0 store ++ [((id0, position), v)].
Proof.
  intros Hfresh Hlast. apply openCursor_unique.
  - apply StronglySorted_app_2.
    + intros [[i q] u] y Hin ->%list_elem_of_singleton.
      apply elem_of_openCursor in Hin as [Hi Hu]. cbn in Hi. subst i.
      right. cbn. split; [done|]. by eapply Hlast.
    + apply openCursor_key_sorted.
    + repeat constructor.
  - apply NoDup_app. split; [apply NoDup_openCursor|]. split.
    + intros [k u] Hin [= -> ->]%list_elem_of_singleton.
      apply elem_of_openCursor in Hin as [_ Hu]. congruence.
    + apply NoDup_singleton.
  - intros k u. rewrite elem_of_app, elem_of_openCursor,
      list_elem_of_singleton.
    destruct (decide (k = (id0, position))) as [->|Hne].
    + rewrite lookup_insert_eq. split.
      * intros [[_ H]|[= ->]]; [congruence|done].
      * intros [_ [= ->]]. by right.
    + rewrite lookup_insert_ne by done. split.
      * intros [H|[= -> ->]]; done.
      * intros H. by left.
Qed.

End Cursor.

Section Purge.
Import SegmentedFileChunkStorage SegmentSpec BufferSpec.

Lemma openCursor_none id0 store :
  (forall k, k.1 = id0 -> store !! k = None) ->
  SegmentsDatabase.openCursor id0 store = [].
Proof.
  intros H. apply openCursor_unique; [constructor..|].
  intros k v. rewrite elem_of_nil. split; [done|].
  intros [Hk Hv]. rewrite H in Hv; done.
Qed.

Lemma static_delete_ok st :
  SegmentsDatabase.db_faults (database st) = [] ->
  static_delete st
  = (Ok tt,
     set_database
       {| SegmentsDatabase.data :=
            filter (fun kv => kv.1.1 <> id st)
              (SegmentsDatabase.data (database st));
          SegmentsDatabase.recovery :=
            filter (fun kv => kv.1.1 <> id st)
              (SegmentsDatabase.recovery (database st));
          SegmentsDatabase.db_faults := [] |} st).
Proof.
  intros Hf. unfold static_delete, SegmentsDatabase.delete_range,
    SegmentsDatabase.transaction.
  destruct (database st) as [d r fs]. cbn in *. by subst fs.
Qed.

Lemma getFile_no_segments st :
  SegmentsDatabase.db_faults (database st) = [] ->
  segments st = [] ->
  (getFile st).1 = Settled (Ok []).
Proof.
  intros Hf Hs. unfold getFile, SegmentsDatabase.transaction.
  rewrite Hf. cbn [fst]. unfold segments in Hs.
  apply fmap_nil_inv in Hs. by rewrite Hs.
Qed.

Lemma static_delete_purges st :
  SegmentsDatabase.db_faults (database st) = [] ->
  (static_delete st).1 = Ok tt /\
  segments (static_delete st).2 = [] /\
  (getFile (static_delete st).2).1 = Settled (Ok []) /\
  forall k, k.1 = id st ->
    SegmentsDatabase.recovery (database (static_delete st).2) !! k = None.
Proof.
  intros Hf. rewrite static_delete_ok by done. cbn [fst snd].
  assert (Hs : segments
    (set_database
       {| SegmentsDatabase.data :=
            filter (fun kv => kv.1.1 <> id st)
              (SegmentsDatabase.data (database st));
          SegmentsDatabase.recovery :=
            filter (fun kv => kv.1.1 <> id st)
              (SegmentsDatabase.recovery (database st));
          SegmentsDatabase.db_faults := [] |} st) = []).
  { unfold segments. cbn. rewrite openCursor_none; [done|].
    intros k Hk. apply map_lookup_filter_None. right.
    intros v _ Hne. by apply Hne. }
  split; [done|]. split; [done|]. split.
  - by apply getFile_no_segments.
  - intros k Hk. cbn. apply map_lookup_filter_None. right.
    intros v _ Hne. by apply Hne.
Qed.

(** X12.  [delete()] whose transaction the database carries out removes
    every segment and every recovery record of the storage, wherever
    they start: the storage then assembles the empty file. *)
Theorem delete_purges (st : t) :
  SegmentsDatabase.db_faults (database st) = [] ->
  (delete st).1 = Ok tt /\
  segments (delete st).2 = [] /\
  (getFile (delete st).2).1 = Settled (Ok []) /\
  forall k, k.1 = id st ->
    SegmentsDatabase.recovery (database (delete st).2) !! k = None.
Proof.
  intros Hf. unfold delete.
  by apply (static_delete_purges
              {| id := id st; database := database st;
                 flushSentry := S (flushSentry st) |}).
Qed.

Lemma delete_purges_witness :
  (getFile (delete gapped_storage).2).1 = Settled (Ok []).
Proof. apply (delete_purges gapped_storage). reflexivity. Defined.

(** X13.  [init(false)] starts the storage from nothing, whatever earlier
    downloads left under its id; [init(true)] keeps the stored segments
    as they are. *)
Theorem init_segments (id0 : Z) (shared : SegmentsDatabase.t) :
  SegmentsDatabase.db_faults shared = [] ->
  (init id0 shared false).1 = Ok tt /\
  segments (init id0 shared false).2 = [] /\
  (getFile (init id0 shared false).2).1 = Settled (Ok []) /\
  (init id0 shared true).1 = Ok tt /\
  database (init id0 shared true).2 = shared.
Proof.
  intros Hf. unfold init.
  destruct (static_delete_purges
              {| id := id0; database := shared; flushSentry := O |})
    as (H1 & H2 & H3 & _); done.
Qed.

Lemma init_segments_witness :
  (getFile (init 7 (database gapped_storage) false).2).1 = Settled (Ok []).
Proof.
  apply (init_segments 7 (database gapped_storage)). reflexivity.
Defined.

(** X14.  A flush or a delete of one storage leaves the segments of every
    other storage on the same database as they were. *)
Theorem other_storages_untouched (w : Writer) (st : t) (other : Z) :
  other <> id st ->
  segments (sibling other (doFlush w st).2) = segments (sibling other st) /\
  segments (sibling other (delete st).2) = segments (sibling other st).
Proof.
  intros Hne. unfold segments, sibling. cbn [id database]. split.
  - f_equal. apply openCursor_ext. intros k Hk.
    unfold doFlush. destruct (negb _); [done|].
    destruct (_ =? 0)%nat; [done|].
    unfold SegmentsDatabase.add, SegmentsDatabase.transaction.
    destruct (SegmentsDatabase.db_faults (database st)) as [|[e|] rest];
      cbn; try done;
      destruct (SegmentsDatabase.data (database st) !! _); cbn; try done;
      rewrite lookup_insert_ne; try done;
      intros <-; cbn in Hk; congruence.
  - f_equal. apply openCursor_ext. intros k Hk.
    unfold delete, static_delete, SegmentsDatabase.delete_range,
      SegmentsDatabase.transaction. cbn [id database].
    destruct (SegmentsDatabase.db_faults (database st)) as [|[e|] rest];
      cbn; try done.
    + destruct (SegmentsDatabase.data (database st) !! k) as [v|] eqn:E.
      * apply map_lookup_filter_Some. split; [done|]. cbn. congruence.
      * apply map_lookup_filter_None. by left.
    + destruct (SegmentsDatabase.data (database st) !! k) as [v|] eqn:E.
      * apply map_lookup_filter_Some. split; [done|]. cbn. congruence.
      * apply map_lookup_filter_None. by left.
Qed.

Lemma other_storages_untouched_witness :
  segments (sibling 7 (delete (sibling 8 gapped_storage)).2)
  = segments (sibling 7 (sibling 8 gapped_storage)).
Proof.
  apply (other_storages_untouched (writer 0 gapped_storage)
           (sibling 8 gapped_storage) 7).
  vm_compute. congruence.
Defined.

End Purge.

Section Buffering.
Import SegmentedFileChunkStorage SegmentSpec BufferSpec.

(** X15.  A flush that fails, because the transaction is rejected or the
    key is taken, loses nothing: the writer keeps its buffer, position
    and size, and the stored segments are the ones from before, so the
    same bytes go out with the next flush. *)
Theorem failed_flush_keeps_buffer (w w' : Writer) (st st' : t)
  (e : Error) :
  doFlush w st = (Throw e, w', st') ->
  w' = w /\
  bufferData w <> [] /\
  segments st' = segments st /\
  flushSentry st' = flushSentry st /\
  id st' = id st.
Proof.
  unfold doFlush. destruct (negb _); [done|].
  destruct (bufferData w) as [|c cs] eqn:E; [done|]. cbn [length Nat.eqb].
  unfold SegmentsDatabase.add, SegmentsDatabase.transaction.
  destruct (database st) as [d r fs] eqn:Ed.
  cbn [SegmentsDatabase.db_faults SegmentsDatabase.data
       SegmentsDatabase.recovery].
  unfold segments.
  destruct fs as [|[e'|] rest]; cbn;
    try destruct (d !! _); cbn; intros [= <- <- <-]; cbn;
    rewrite ?Ed; done.
Qed.

Lemma failed_flush_keeps_buffer_witness :
  exists w' st',
    doFlush (doWrite ["z"%byte] (writer 100 gapped_storage)).2
      gapped_storage
    = (Throw ConstraintError, w', st') /\
    w' = (doWrite ["z"%byte] (writer 100 gapped_storage)).2.
Proof.
  eexists _, _. split; [vm_compute; reflexivity|].
  eapply (failed_flush_keeps_buffer _ _ gapped_storage).
  vm_compute. reflexivity.
Defined.

Lemma written_app ops1 ops2 :
  written (ops1 ++ ops2) = written ops1 ++ written ops2.
Proof.
  induction ops1 as [|[d|] ops1 IH]; cbn; [done| |done].
  by rewrite IH, app_assoc.
Qed.

Lemma run_app ops1 ops2 w st :
  run (ops1 ++ ops2) w st
  = run ops2 (run ops1 w st).1 (run ops1 w st).2.
Proof.
  revert w st. induction ops1 as [|[d|] ops1 IH]; intros w st; cbn [run app].
  - done.
  - apply IH.
  - destruct (doFlush w st) as [[r w1] st1]. apply IH.
Qed.

Lemma accounted_doWrite d w : accounted w -> accounted (doWrite d w).2.
Proof.
  intros [H1 H2]. unfold doWrite.
  destruct (length d =? 0)%nat eqn:E; [done|].
  apply Nat.eqb_neq in E.
  split; cbn [snd bufferPosition bufferData startPosition writtenSize].
  - rewrite concat_app, length_app. cbn [concat]. rewrite app_nil_r. lia.
  - apply Forall_app_2; [done|]. repeat constructor. by intros ->.
Qed.

Lemma accounted_doFlush w st : accounted w -> accounted (doFlush w st).1.2.
Proof.
  intros [H1 H2]. unfold doFlush. destruct (negb _); [done|].
  destruct (_ =? 0)%nat; [done|].
  destruct (SegmentsDatabase.add _ _ _) as [[[]|e] db]; [|done].
  cbn [fst snd]. split; cbn [bufferPosition bufferData startPosition
    writtenSize]; [|constructor].
  unfold concatTypedArray. cbn [concat length]. lia.
Qed.

Lemma fields_doFlush w st :
  startPosition (doFlush w st).1.2 = startPosition w /\
  w_flushSentry (doFlush w st).1.2 = w_flushSentry w /\
  writtenSize (doFlush w st).1.2 = writtenSize w.
Proof.
  unfold doFlush. destruct (negb _); [done|].
  destruct (_ =? 0)%nat; [done|].
  by destruct (SegmentsDatabase.add _ _ _) as [[[]|e] db].
Qed.

Lemma run_on_accounted steps : forall w,
  accounted w ->
  accounted (run_on steps w) /\
  startPosition (run_on steps w) = startPosition w /\
  w_flushSentry (run_on steps w) = w_flushSentry w /\
  writtenSize (run_on steps w)
  = writtenSize w + Z.of_nat (length (written (fst <$> steps))).
Proof.
  induction steps as [|[[d|] st] steps IH]; intros w Ha;
    cbn [run_on written fmap list_fmap fst].
  - cbn. repeat split; try apply Ha. lia.
  - destruct (IH (doWrite d w).2 (accounted_doWrite d w Ha))
      as (H1 & H2 & H3 & H4).
    destruct (fields_doWrite d w) as (F1 & F2 & F3 & _).
    split; [done|]. split; [congruence|]. split; [congruence|].
    rewrite H4, F3, length_app. lia.
  - destruct (IH (doFlush w st).1.2 (accounted_doFlush w st Ha))
      as (H1 & H2 & H3 & H4).
    destruct (fields_doFlush w st) as (F1 & F2 & F3).
    split; [done|]. split; [congruence|]. split; [congruence|].
    rewrite H4, F3. done.
Qed.

(** X16.  Within the safe integers, the counters of a writer add up
    after any sequence of writes and flushes, whatever storage each
    flush meets: one that accepts the segment, one that rejects it, or
    one whose sentry a delete has replaced.  The writer's size is the
    number of bytes written, its buffer starts where the flushed bytes
    end and holds the rest, no buffered block is empty, and the writer
    keeps the start position and the sentry it was made with. *)
Theorem run_accounting (steps : list (ChunkStorageWriter.Op * t))
  (sp : Z) (st : t) :
  let bytes := Z.of_nat (length (written (fst <$> steps))) in
  Float64.safe sp -> Float64.safe bytes -> Float64.safe (sp + bytes) ->
  let w' := run_on steps (writer sp st) in
  startPosition w' = sp /\
  writtenSize w' = bytes /\
  bufferPosition w' + Z.of_nat (length (concat (bufferData w')))
  = sp + writtenSize w' /\
  Forall (fun c => c <> []) (bufferData w') /\
  w_flushSentry w' = flushSentry st.
Proof.
  cbn zeta. intros _ _ _.
  destruct (run_on_accounted steps (writer sp st))
    as ([H1 H2] & H3 & H4 & H5).
  { split; cbn; [lia | constructor]. }
  cbn in H3, H4, H5. rewrite H3 in H1. by repeat split.
Qed.

Lemma run_accounting_witness :
  let w' :=
    run_on [(ChunkStorageWriter.Write [x01], fresh_storage);
            (ChunkStorageWriter.Flush, (delete fresh_storage).2);
            (ChunkStorageWriter.Write [x02], fresh_storage);
            (ChunkStorageWriter.Flush, gapped_storage)]
      (writer 100 fresh_storage) in
  writtenSize w' = 2 /\ bufferPosition w' = 100.
Proof.
  cbn zeta.
  destruct (run_accounting
              [(ChunkStorageWriter.Write [x01], fresh_storage);
               (ChunkStorageWriter.Flush, (delete fresh_storage).2);
               (ChunkStorageWriter.Write [x02], fresh_storage);
               (ChunkStorageWriter.Flush, gapped_storage)]
              100 fresh_storage)
    as (_ & H2 & _);
    [split; vm_compute; reflexivity..|].
  split; [exact H2 | reflexivity].
Defined.

End Buffering.

Section Appending.
Import SegmentedFileChunkStorage SegmentSpec BufferSpec.

Lemma total_size_snoc segs p v :
  total_size (segs ++ [(p, v)]) = total_size segs + Z.of_nat (length v).
Proof.
  unfold total_size. rewrite fmap_app, concat_app, length_app.
  cbn. rewrite app_nil_r. lia.
Qed.

Lemma tiles_at_nil n : tiles_at n [].
Proof. intros i seg H. by rewrite lookup_nil in H. Qed.

Lemma tiles_at_snoc segs : forall n p v,
  tiles_at n (segs ++ [(p, v)])
  <-> tiles_at n segs /\ p = n + total_size segs.
Proof.
  induction segs as [|[q u] segs IH]; intros n p v.
  - cbn [app]. rewrite tiles_at_cons. change (total_size []) with 0.
    split.
    + intros [Hp _]. split; [apply tiles_at_nil | lia].
    + intros [_ Hp]. split; [lia | apply tiles_at_nil].
  - cbn [app]. rewrite !tiles_at_cons, IH, total_size_cons.
    split; [intros (H1 & H2 & H3) | intros [[H1 H2] H3]];
      repeat split; try done; lia.
Qed.

Lemma tiles_positions segs : forall n,
  tiles_at n segs ->
  Forall (fun seg => seg.2 <> []) segs ->
  forall q u, (q, u) ∈ segs -> q < n + total_size segs.
Proof.
  induction segs as [|[p v] segs IH]; intros n Ht Hne q u Hin;
    [by apply elem_of_nil in Hin|].
  apply tiles_at_cons in Ht as [-> Ht].
  apply Forall_cons in Hne as [Hv Hne]. cbn in Hv.
  rewrite total_size_cons.
  assert (0 < Z.of_nat (length v)) by (destruct v; [done | cbn; lia]).
  assert (0 <= total_size segs) by (unfold total_size; lia).
  apply elem_of_cons in Hin as [[= -> ->]|Hin]; [lia|].
  pose proof (IH _ Ht Hne q u Hin). lia.
Qed.

Lemma getFile_tiles st :
  SegmentsDatabase.db_faults (database st) = [] ->
  tiles (segments st) ->
  (getFile st).1 = Settled (Ok (concat (snd <$> segments st))).
Proof.
  intros Hf Ht. unfold getFile, SegmentsDatabase.transaction.
  rewrite Hf. cbn [fst].
  destruct (cursor_loop_spec
              (SegmentsDatabase.openCursor (id st)
                 (SegmentsDatabase.data (database st))) [] 0)
    as [[_ ->]|[Hn _]]; [done|].
  by destruct Hn.
Qed.

Lemma doFlush_appending w st :
  appending w st ->
  bufferData w <> [] ->
  exists w' st',
    doFlush w st = (Ok tt, w', st') /\
    bufferData w' = [] /\
    segments st'
    = segments st ++ [(bufferPosition w, concat (bufferData w))] /\
    appending w' st'.
Proof.
  intros (Hs & Hf & Ht & Hne & Hp & Hc) Hb. unfold doFlush.
  rewrite Hs, Nat.eqb_refl. cbn [negb].
  destruct (bufferData w) as [|c cs] eqn:E; [done|]. cbn [length Nat.eqb].
  rewrite <- E in *. unfold concatTypedArray.
  assert (Hlast : forall q u,
    SegmentsDatabase.data (database st) !! (id st, q) = Some u ->
    q < bufferPosition w).
  { intros q u Hq. apply elem_of_segments in Hq.
    pose proof (tiles_positions _ _ Ht Hne q u Hq). lia. }
  assert (Hfresh :
    SegmentsDatabase.data (database st) !! (id st, bufferPosition w)
    = None).
  { destruct (_ !! _) as [u|] eqn:Hu; [|done].
    apply Hlast in Hu. lia. }
  rewrite add_fresh by done.
  set (st1 := set_database _ st).
  assert (Hseg : segments st1
    = segments st ++ [(bufferPosition w, concat (bufferData w))]).
  { unfold segments, st1.
    cbn [id database set_database SegmentsDatabase.data].
    rewrite openCursor_insert; [by rewrite fmap_app|done|].
    intros q u Hq. apply Hlast in Hq. lia. }
  eexists _, st1. split; [reflexivity|]. split; [done|].
  split; [done|]. unfold appending. rewrite Hseg.
  cbn [w_flushSentry bufferPosition bufferData].
  split; [done|]. split; [done|].
  split; [apply tiles_at_snoc; split; [done|lia]|].
  split; [apply Forall_app_2; [done|]; repeat constructor;
          cbn; by apply concat_nonempty|].
  split; [by rewrite total_size_snoc, Hp | constructor].
Qed.

Lemma doWrite_appending d w st :
  appending w st -> appending (doWrite d w).2 st.
Proof.
  intros (Hs & Hf & Ht & Hne & Hp & Hc). unfold doWrite.
  destruct (length d =? 0)%nat eqn:E; [done|]. apply Nat.eqb_neq in E.
  repeat split; try done. cbn.
  apply Forall_app_2; [done|]. repeat constructor. by intros ->.
Qed.

Lemma run_appending ops : forall w st,
  appending w st ->
  let w' := (run ops w st).1 in
  let st' := (run ops w st).2 in
  appending w' st' /\
  concat (snd <$> segments st') ++ concat (bufferData w')
  = concat (snd <$> segments st) ++ concat (bufferData w) ++ written ops.
Proof.
  induction ops as [|[d|] ops IH]; intros w st Ha; cbn [run written].
  - cbn. by rewrite app_nil_r.
  - destruct (IH _ _ (doWrite_appending d w st Ha)) as [H1 H2].
    split; [done|]. cbn zeta in H2. rewrite H2, concat_doWrite.
    by rewrite <- !app_assoc.
  - destruct (bufferData w) as [|c cs] eqn:E.
    + assert (Hn : doFlush w st = (Ok tt, w, st)).
      { unfold doFlush. rewrite E. by destruct (negb _). }
      rewrite Hn. destruct (IH _ _ Ha) as [H1 H2].
      split; [done|]. cbn zeta in H2. by rewrite H2, E.
    + destruct (doFlush_appending w st Ha) as (w1 & st1 & Hd & Hb & Hs & Ha1);
        [by rewrite E|].
      rewrite Hd. destruct (IH _ _ Ha1) as [H1 H2].
      split; [done|]. cbn zeta in H2. rewrite H2, Hb, Hs, E.
      rewrite fmap_app, concat_app. cbn. rewrite !app_nil_r.
      by rewrite <- !app_assoc.
Qed.

(** X17.  On a storage whose segments tile from 0, a writer started at
    their end, after any writes and flushes followed by a last flush,
    has made the assembled file grow by exactly the bytes written, in
    the order written; on a storage without segments the file is those
    bytes. *)
Theorem flushed_bytes_are_the_file (ops : list ChunkStorageWriter.Op)
  (st : t) :
  SegmentsDatabase.db_faults (database st) = [] ->
  tiles (segments st) ->
  Forall (fun seg => seg.2 <> []) (segments st) ->
  let w := writer (total_size (segments st)) st in
  let st' := (run (ops ++ [ChunkStorageWriter.Flush]) w st).2 in
  (getFile st').1
  = Settled (Ok (concat (snd <$> segments st) ++ written ops)) /\
  (segments st = [] -> (getFile st').1 = Settled (Ok (written ops))).
Proof.
  intros Hf Ht Hne. cbn zeta.
  assert (Ha : appending (writer (total_size (segments st)) st) st).
  { repeat split; try done; constructor. }
  destruct (run_appending (ops ++ [ChunkStorageWriter.Flush]) _ _ Ha)
    as [Ha' Hc]. cbn zeta in Hc.
  assert (Hb : bufferData
    (run (ops ++ [ChunkStorageWriter.Flush])
       (writer (total_size (segments st)) st) st).1 = []).
  { rewrite run_app. cbn [run].
    destruct (run_appending ops _ _ Ha) as [Ha1 _]. cbn zeta in Ha1.
    destruct (bufferData (run ops (writer (total_size (segments st)) st)
                            st).1) as [|c cs] eqn:E.
    - unfold doFlush. rewrite E. by destruct (negb _).
    - destruct (doFlush_appending _ _ Ha1) as (w1 & st1 & Hd & Hb & _);
        [by rewrite E|].
      by rewrite Hd. }
  rewrite Hb, written_app in Hc. cbn in Hc. rewrite !app_nil_r in Hc.
  destruct Ha' as (_ & Hf' & Ht' & _).
  rewrite getFile_tiles by done. rewrite Hc.
  split; [done|]. by intros ->.
Qed.

Lemma flushed_bytes_are_the_file_witness :
  (getFile
     (run [ChunkStorageWriter.Write [x01]; ChunkStorageWriter.Flush;
           ChunkStorageWriter.Write [x02; x03]; ChunkStorageWriter.Flush]
        (writer 0 fresh_storage) fresh_storage).2).1
  = Settled (Ok [x01; x02; x03]).
Proof.
  apply (flushed_bytes_are_the_file
           [ChunkStorageWriter.Write [x01]; ChunkStorageWriter.Flush;
            ChunkStorageWriter.Write [x02; x03]] fresh_storage);
    [reflexivity | apply tiles_at_nil | constructor | reflexivity].
Defined.

End Appending.

(** * Further properties of the operation queue *)

Section QueueState.
Import ChunkStorageWriter QueueSpec LoneSpec.
Local Open Scope nat_scope.

Lemma tail_cell st a :
  Inv st a ->
  heap st !! this_promise st = Some (settled_with Fulfilled)
  \/ heap st !! this_promise st = Some (pending []).
Proof.
  intros HI. rewrite (inv_tail _ _ HI).
  destruct (pend a) as [|n ws] eqn:E using rev_ind.
  - left. apply (inv_cells _ _ HI). by apply tail_cell_done.
  - right. destruct (tail_cell_pending a ws n E) as [-> Hp].
    apply (inv_cells _ _ HI). rewrite Hp. by left.
Qed.

(** X18.  At every moment of every run a writer has at most one
    operation in flight and at most one job queued, and none queued
    while an operation is in flight: the host never has a choice of what
    to run next. *)
Theorem one_operation_at_a_time (has_parent : bool) (acts : list action)
  (st : state) :
  exec acts (create has_parent) = Some st ->
  length (running st) <= 1 /\
  length (jobs st) <= 1 /\
  (running st <> [] -> jobs st = []) /\
  forall i s,
    step (RunJob (S i)) st = None /\ step (Complete (S i) s) st = None.
Proof.
  intros He. destruct (Inv_reachable _ _ _ He) as [a HI].
  assert (H : length (running st) <= 1 /\ length (jobs st) <= 1 /\
              (running st <> [] -> jobs st = [])).
  { rewrite (inv_jobs _ _ HI), (inv_running _ _ HI).
    destruct (pend a) as [|n ws]; [cbn; auto|].
    destruct n as [k op rho c [| |r|r s|r s]|h [|]]; cbn;
      repeat split; try lia; try done; by intros []. }
  destruct H as (H1 & H2 & H3). do 3 (split; [done|]).
  intros i s. unfold step. split.
  - destruct (jobs st) as [|j [|j' js]]; cbn in *; try done; lia.
  - destruct (running st) as [|[k r] [|j' js]]; cbn in *; try done; lia.
Qed.

Lemma one_operation_at_a_time_witness :
  exec busy_run (create true) = Some busy_writer /\
  length (running busy_writer) <= 1.
Proof.
  assert (H : exec busy_run (create true) = Some busy_writer)
    by (vm_compute; reflexivity).
  split; [exact H|].
  exact (proj1 (one_operation_at_a_time true busy_run busy_writer H)).
Defined.

(** X19.  The promise a writer keeps for chaining is never a rejected
    one and never has a reaction of its own: it is pending or fulfilled,
    so the operation of the next call is always run, whatever failed
    before. *)
Theorem chain_promise_never_rejected (has_parent : bool)
  (acts : list action) (st : state) :
  exec acts (create has_parent) = Some st ->
  heap st !! this_promise st = Some (settled_with Fulfilled)
  \/ heap st !! this_promise st = Some (pending []).
Proof.
  intros He. destruct (Inv_reachable _ _ _ He) as [a HI].
  by apply (tail_cell st a).
Qed.

Lemma chain_promise_never_rejected_witness :
  exec busy_run (create true) = Some busy_writer /\
  (heap busy_writer !! this_promise busy_writer
   = Some (settled_with Fulfilled)
   \/ heap busy_writer !! this_promise busy_writer = Some (pending [])).
Proof.
  assert (H : exec busy_run (create true) = Some busy_writer)
    by (vm_compute; reflexivity).
  split; [exact H|].
  exact (chain_promise_never_rejected true busy_run busy_writer H).
Defined.

(** X20.  [write] and [flush] return before anything runs: the promise
    returned is a new, pending one, the call is recorded, and the
    operations started, finished or in flight and the errors dispatched
    are what they were before the call. *)
Theorem call_returns_before_running (has_parent : bool)
  (acts : list action) (st : state) (op : Op) :
  exec acts (create has_parent) = Some st ->
  let rho := (call op st).1 in
  let st' := (call op st).2 in
  rho = length (heap st) /\
  heap st' !! rho = Some (pending [catch_reaction (S rho)]) /\
  submitted st' = submitted st ++ [(op, rho)] /\
  trace st' = trace st /\
  running st' = running st /\
  dispatched st' = dispatched st.
Proof.
  intros He. destruct (Inv_reachable _ _ _ He) as [a HI]. cbn zeta.
  destruct (tail_cell st a HI) as [Ht|Ht].
  - rewrite (call_settled op st Ht). cbn [fst snd heap submitted trace
      running dispatched].
    split; [done|]. split; [|done].
    apply list_lookup_insert_eq. rewrite !length_app. cbn. lia.
  - rewrite (call_pending op st Ht). cbn [fst snd heap submitted trace
      running dispatched].
    split; [done|]. split; [|done].
    apply list_lookup_insert_eq.
    rewrite !length_app, length_insert, length_app. cbn. lia.
Qed.

Lemma call_returns_before_running_witness :
  exec busy_run (create true) = Some busy_writer /\
  trace (call Flush busy_writer).2 = trace busy_writer.
Proof.
  assert (H : exec busy_run (create true) = Some busy_writer)
    by (vm_compute; reflexivity).
  split; [exact H|].
  exact (proj1 (proj2 (proj2 (proj2
    (call_returns_before_running true busy_run busy_writer Flush H))))).
Defined.

End QueueState.

Section LoneWriter.
Import ChunkStorageWriter QueueSpec LoneSpec.
Local Open Scope nat_scope.

(** X21.  A writer without a parent dispatches nothing, and goes on all
    the same: after any run, failures included, a further call is
    started and ends as its operation does, and each failed call shows
    its error in the promise it returned and nowhere else. *)
Theorem lone_writer_goes_on (acts : list action) (st : state) (op : Op)
  (outcome : nat -> settlement) :
  exec acts (create false) = Some st ->
  dispatched st = [] /\
  exists fuel,
    let k := length (submitted st) in
    let st' := drain fuel outcome (snd (call op st)) in
    quiescent st' /\
    dispatched st' = [] /\
    Started k op ∈ trace st' /\
    Finished k (outcome k) ∈ trace st' /\
    heap st' !! fst (call op st) = Some (settled_with (outcome k)) /\
    forall j opj rho e,
      submitted st' !! j = Some (opj, rho) ->
      Finished j (Rejected e) ∈ trace st' ->
      heap st' !! rho = Some (settled_with (Rejected e)).
Proof.
  intros He. destruct (Inv_reachable _ _ _ He) as [a HI].
  assert (Hp : parent st = false) by apply (exec_parent _ _ _ He).
  split; [by rewrite (inv_dispatched _ _ HI), Hp|].
  destruct (step_call op st a HI) as (n & HI1 & _ & Hrho & _).
  destruct (call_frame op st) as (Hp1 & Hs1 & Ht1).
  set (st1 := snd (call op st)) in *.
  set (a1 := {| dones := dones a; pend := pend a ++ [n] |}) in *.
  exists (weight a1). cbn zeta.
  destruct (drain_quiesces outcome (weight a1) st1 a1 HI1 ltac:(lia))
    as (a' & HI' & Ep' & Hp' & Hs' & new & Ht' & Hnew).
  set (st' := drain (weight a1) outcome st1) in *.
  pose proof (Inv_in_order _ _ HI') as Hio'.
  split; [by apply (Inv_settled_quiescent _ a')|].
  split; [by rewrite (inv_dispatched _ _ HI'), Hp', Hp1, Hp|].
  assert (Hl : submitted st' !! length (submitted st)
               = Some (op, fst (call op st))).
  { rewrite Hs', Hs1. rewrite lookup_app_r by lia.
    by rewrite Nat.sub_diag. }
  destruct (Inv_settled _ _ _ _ _ HI' Ep' Hl) as (s & Hc & Hst & Hf).
  assert (s = outcome (length (submitted st))) as ->.
  { rewrite Ht', Ht1 in Hf. apply elem_of_app in Hf as [Hf|Hf]; [|auto].
    apply (in_order_bound _ _ _ _ (Inv_in_order _ _ HI)) in Hf.
    rewrite length_fmap in Hf. lia. }
  do 3 (split; [done|]).
  intros j opj rho e Hj Hf'.
  destruct (Inv_settled _ _ j opj rho HI' Ep' Hj) as (s & Hc' & _ & Hf'').
  by rewrite Hc', (in_order_once _ _ _ _ _ Hio' Hf'' Hf').
Qed.

Lemma lone_writer_goes_on_witness :
  exec busy_run (create false) = Some lone_writer /\
  dispatched lone_writer = [].
Proof.
  assert (H : exec busy_run (create false) = Some lone_writer)
    by (vm_compute; reflexivity).
  split; [exact H|].
  exact (proj1 (lone_writer_goes_on busy_run lone_writer Flush
                  (fun _ => Fulfilled) H)).
Defined.

End LoneWriter.
